(** * The producer/consumer driver of kern/asst1, embedded and verified

    Source: [kern/asst1/producerconsumer_driver.c].

    The driver is embedded twice.  First each function of the driver is a
    function from its inputs to the sequence of calls it makes (its trace).
    Then the threads of the driver run together with a core in one
    interleaving transition system; the core is a parameter of the system,
    and the bounded buffer is one core.  The definitions come first, the
    facts about them after. *)

From Stdlib Require Import ZArith Lia List String.
From stdpp Require Import base numbers list strings.

Local Open Scope Z_scope.

(** ** Machine integers *)

(** [int] is 32 bits wide and two's complement on the machine the kernel is
    built for.  Values are kept in [Z]; every arithmetic result that is
    stored in an [int] goes through [wrap_int]. *)
Definition INT_MAX : Z := 2147483647.
Definition INT_MIN : Z := -2147483648.

Definition wrap_int (z : Z) : Z := (z + 2147483648) mod 4294967296 - 2147483648.

(** [unsigned long] arithmetic.  Only the low 32 bits of an [unsigned long]
    survive the conversion to [int], so the width chosen here (32) does not
    change what is stored in [item1]. *)
Definition wrap_ulong (z : Z) : Z := z mod 4294967296.


(** ** Data *)

(** Modelled from the spec: [struct pc_data] is declared in
    [producerconsumer_driver.h], which is not among the sources.  The spec
    describes an item as a pair of related integers; the driver prints both
    fields with [%d], so both are [int]. *)
Record pc_data : Type := mk_pc_data { item1 : Z; item2 : Z }.

Global Instance pc_data_eq_dec : EqDecision pc_data.
Proof. solve_decision. Defined.

(** The two semaphores of the driver. *)
Inductive semaphore : Type := consumer_finished | producer_finished.

Global Instance semaphore_eq_dec : EqDecision semaphore.
Proof. solve_decision. Defined.

(** The thread functions handed to [thread_fork]. *)
Inductive entry : Type := consumer_entry | producer_entry.

Global Instance entry_eq_dec : EqDecision entry.
Proof. solve_decision. Defined.

(** What a driver function does, seen from outside: the calls it makes, in
    order.  [consumer_consume d] is a call that returned [d];
    [sem_create s ok] and [thread_fork f n ok] record whether the call
    succeeded. *)
Inductive event : Type :=
| kprintf (fmt : string) (args : list Z)
| producer_produce (d : pc_data)
| consumer_consume (d : pc_data)
| sem_V (s : semaphore)
| sem_P (s : semaphore)
| sem_create (s : semaphore) (ok : bool)
| sem_destroy (s : semaphore)
| thread_fork (f : entry) (thread_num : Z) (ok : bool)
| panic (msg : string)
| producerconsumer_startup
| producerconsumer_shutdown
| return_int (r : Z).

Global Instance event_eq_dec : EqDecision event.
Proof. solve_decision. Defined.

Definition is_produce (e : event) : bool :=
  match e with producer_produce _ => true | _ => false end.

Definition is_consume (e : event) : bool :=
  match e with consumer_consume _ => true | _ => false end.

Definition is_fork (e : event) : bool :=
  match e with thread_fork _ _ _ => true | _ => false end.

Definition is_sem_create (s : semaphore) (e : event) : bool :=
  match e with sem_create s' _ => bool_decide (s' = s) | _ => false end.

Definition is_event (e0 e : event) : bool := bool_decide (e = e0).

(** The items a trace hands to [producer_produce], in order. *)
Definition produced (tr : list event) : list pc_data :=
  omap (fun e => match e with producer_produce d => Some d | _ => None end) tr.

(** The number of events of a trace that satisfy [f]. *)
Definition count (f : event -> bool) (tr : list event) : nat :=
  length (filter (fun e => f e = true) tr).

(** The messages of the driver. *)
Definition msg_producer_started : string := "Producer started\n".
Definition msg_producer_finished : string := "Producer finished\n".
Definition msg_consumer_started : string := "Consumer started\n".
Definition msg_unexpected : string := "*** Error! Unexpected data %d and %d\n".
Definition msg_bored : string := "*** Error! Consumer bored, exiting...\n".
Definition msg_finished_normally : string := "Consumer finished normally\n".
Definition msg_no_semaphore : string := "run_producerconsumer: couldn't create semaphore\n".
Definition msg_no_consumer : string := "start_consumer_threads: couldn't fork (%s)\n".
Definition msg_no_producer : string := "start_producer_threads: couldn't fork (%s)\n".
Definition msg_starting : string := "run_producerconsumer: starting up\n".
Definition msg_waiting : string := "Waiting for producer threads to exit...\n".
Definition msg_all_exited : string := "All producer threads have exited.\n".

(** The shutdown item of [stop_consumer_threads]. *)
Definition sentinel : pc_data := mk_pc_data 0 0.

(** The test of the consumer's [while]: the loop goes on when it holds. *)
Definition loop_test (d : pc_data) : bool :=
  negb (item1 d =? 0) && negb (item2 d =? 0).

(** The consumer's check of a data item, [item1 + 1 != item2]. *)
Definition data_error (d : pc_data) : bool :=
  negb (wrap_int (item1 d + 1) =? item2 d).

(** ** The driver, function by function *)

Section Driver.

(** The [#define]s of the driver.  The source says each of them is changed
    during testing, so they are kept abstract; [Configured] below holds the
    values the file ships with. *)
Variable NUM_PRODUCERS : nat.
Variable NUM_CONSUMERS : nat.
Variable ITEMS_TO_PRODUCE : Z.
Variable CONSUMER_BORED_COUNT : Z.

(** The item built in the body of the producer's loop. *)
Definition make_item (thread_num items_to_go : Z) : pc_data :=
  let i1 := wrap_int (wrap_ulong (wrap_ulong items_to_go
                                  + wrap_ulong (1000 * thread_num))) in
  mk_pc_data i1 (wrap_int (i1 + 1)).

(** [while(--items_to_go) { ... producer_produce(thedata); }].
    [fuel] bounds the number of evaluations of the loop test. *)
Fixpoint producer_loop (fuel : nat) (thread_num items_to_go : Z)
  : option (list event) :=
  match fuel with
  | O => None
  | S fuel' =>
      let items_to_go := wrap_int (items_to_go - 1) in
      if items_to_go =? 0 then Some []
      else
        match producer_loop fuel' thread_num items_to_go with
        | None => None
        | Some evs =>
            Some (producer_produce (make_item thread_num items_to_go) :: evs)
        end
  end.

Definition producer_thread (fuel : nat) (thread_num : Z) : option (list event) :=
  match producer_loop fuel thread_num ITEMS_TO_PRODUCE with
  | None => None
  | Some evs =>
      Some ([kprintf msg_producer_started []] ++ evs
            ++ [kprintf msg_producer_finished []; sem_V producer_finished])
  end.

(** The consumer's loop.  [consume k] is what the [k]-th call of
    [consumer_consume] made by this thread returns ([k] counts from 0);
    [calls] is the number of calls made so far.  The result is the trace of
    the loop and the final [bored_count]. *)
Fixpoint consumer_loop (fuel : nat) (consume : nat -> pc_data) (calls : nat)
    (thedata : pc_data) (bored_count : Z) : option (list event * Z) :=
  match fuel with
  | O => None
  | S fuel' =>
      if loop_test thedata then
        let bored_count := wrap_int (bored_count + 1) in
        if bored_count =? CONSUMER_BORED_COUNT then Some ([], bored_count)
        else
          let report :=
            if data_error thedata
            then [kprintf msg_unexpected [item1 thedata; item2 thedata]]
            else [] in
          let thedata' := consume calls in
          match consumer_loop fuel' consume (S calls) thedata' bored_count with
          | None => None
          | Some (evs, b) =>
              Some (report ++ consumer_consume thedata' :: evs, b)
          end
      else Some ([], bored_count)
  end.

Definition consumer_thread (fuel : nat) (consume : nat -> pc_data)
  : option (list event) :=
  let thedata := consume 0%nat in
  match consumer_loop fuel consume 1 thedata 0 with
  | None => None
  | Some (evs, bored_count) =>
      Some ([kprintf msg_consumer_started []; consumer_consume thedata]
            ++ evs
            ++ [if bored_count =? CONSUMER_BORED_COUNT
                then kprintf msg_bored []
                else kprintf msg_finished_normally []]
            ++ [sem_V consumer_finished])
  end.

(** [for(i = 0; i < n; i++) { result = thread_fork(...); if(result) panic(...); }]
    [fork_ok f i] says whether the fork of thread [i] of kind [f] succeeds.
    The result is the trace and whether the loop ran to its end. *)
Fixpoint fork_loop (f : entry) (msg : string) (fork_ok : entry -> nat -> bool)
    (i n : nat) : list event * bool :=
  match n with
  | O => ([], true)
  | S n' =>
      if fork_ok f i then
        let '(evs, ok) := fork_loop f msg fork_ok (S i) n' in
        (thread_fork f (Z.of_nat i) true :: evs, ok)
      else ([thread_fork f (Z.of_nat i) false; panic msg], false)
  end.

Definition start_consumer_threads (fork_ok : entry -> nat -> bool) :=
  fork_loop consumer_entry msg_no_consumer fork_ok 0 NUM_CONSUMERS.

Definition start_producer_threads (fork_ok : entry -> nat -> bool) :=
  fork_loop producer_entry msg_no_producer fork_ok 0 NUM_PRODUCERS.

Definition wait_for_producer_threads : list event :=
  [kprintf msg_waiting []]
  ++ repeat (sem_P producer_finished) NUM_PRODUCERS
  ++ [kprintf msg_all_exited []].

Definition stop_consumer_threads : list event :=
  let thedata := mk_pc_data 0 0 in
  repeat (producer_produce thedata) NUM_CONSUMERS
  ++ repeat (sem_P consumer_finished) NUM_CONSUMERS.

(** [run_producerconsumer].  [sem_ok s] says whether [sem_create] of [s]
    returns a semaphore.  A [panic] ends the trace: it does not return. *)
Definition run_producerconsumer (sem_ok : semaphore -> bool)
    (fork_ok : entry -> nat -> bool) : list event :=
  [kprintf msg_starting []] ++
  if negb (sem_ok consumer_finished) then
    [sem_create consumer_finished false; panic msg_no_semaphore]
  else
    [sem_create consumer_finished true] ++
    if negb (sem_ok producer_finished) then
      [sem_create producer_finished false; panic msg_no_semaphore]
    else
      [sem_create producer_finished true] ++
      [producerconsumer_startup] ++
      let '(cs, ok) := start_consumer_threads fork_ok in
      cs ++
      if negb ok then [] else
        let '(ps, ok) := start_producer_threads fork_ok in
        ps ++
        if negb ok then [] else
          wait_for_producer_threads ++
          stop_consumer_threads ++
          [producerconsumer_shutdown;
           sem_destroy producer_finished;
           sem_destroy consumer_finished;
           return_int 0].

End Driver.

(** The constants as the file ships them. *)
Module Configured.
Definition NUM_PRODUCERS : nat := 2.
Definition NUM_CONSUMERS : nat := 5.
Definition ITEMS_TO_PRODUCE : Z := 30.
Definition CONSUMER_BORED_COUNT : Z := 10000.
End Configured.

(** ** The threads of the driver, running together

    The second embedding of the driver: each thread is a small machine that
    takes one step at a time, and a scheduler interleaves the steps.  The
    steps of a thread are the statements of its function in the source,
    cut at every call that touches shared state. *)

Inductive tid : Type := Main | Producer (i : nat) | Consumer (j : nat).

Global Instance tid_eq_dec : EqDecision tid.
Proof. solve_decision. Defined.

(** *** The bounded buffer *)

(** Modelled from the spec: [producerconsumer.c], with [producer_produce],
    [consumer_consume], [producerconsumer_startup] and
    [producerconsumer_shutdown], is not among the sources.  The spec, 3 and
    4.2: the Slot Store is an ordered ring of C slots, each [Empty] or
    [Occupied], with head and tail indices mod C. *)
Inductive slot : Type := Empty | Occupied (d : pc_data).

(** Modelled from the spec: the state of the missing core, 4.1: one
    counting signal for available items (initially 0), one for available
    capacity (initially C), and a mutual-exclusion region around the slots
    and the indices. *)
Record core : Type := mk_core {
  slots : list slot;
  head : nat;
  tail : nat;
  items_available : nat;
  capacity_available : nat;
  locked : bool
}.

(** Modelled from the spec: where a task stands inside the missing
    [producer_produce], 4.1: wait on the capacity signal, acquire the
    exclusion, write the slot and advance the index, release the exclusion,
    signal availability. *)
Inductive produce_pc : Type :=
| produce_wait | produce_acquire | produce_write | produce_release | produce_signal.

(** Modelled from the spec: where a task stands inside the missing
    [consumer_consume], the mirror image of [produce_pc]; once the slot is
    read the task holds the item. *)
Inductive consume_pc : Type :=
| consume_wait | consume_acquire | consume_read
| consume_release (d : pc_data) | consume_signal (d : pc_data).

(** *** The threads *)

(** A thread exists once [thread_fork] has made it; it keeps the
    [thread_num] it was given. *)
Inductive thread (A : Type) : Type :=
| not_started
| running (thread_num : Z) (pc : A).
Arguments not_started {A}.
Arguments running {A} thread_num pc.

(** [producer_thread]: about to print and enter the loop; at the loop test
    with [items_to_go]; inside [producer_produce(thedata)]; after the loop;
    gone. *)
Inductive producer_pc : Type :=
| producer_start
| producer_at_loop (items_to_go : Z)
| producer_in_produce (items_to_go : Z) (pc : produce_pc)
| producer_at_signal
| producer_exited.

(** [consumer_thread]: about to print and make the first call; inside
    [consumer_consume()]; at the loop test with the item received; after
    the loop; gone. *)
Inductive consumer_pc : Type :=
| consumer_start
| consumer_in_consume (bored_count : Z) (pc : consume_pc)
| consumer_at_loop (bored_count : Z) (thedata : pc_data)
| consumer_after_loop (bored_count : Z)
| consumer_exited.

(** [run_producerconsumer] and the functions it calls, each [for] loop at
    its test with the value of [i]. *)
Inductive main_pc : Type :=
| main_sem_create (s : semaphore)
| main_startup
| main_start_consumers (i : nat)
| main_start_producers (i : nat)
| main_wait_producers (i : nat)
| main_stop_produce (i : nat)
| main_stop_in_produce (i : nat) (pc : produce_pc)
| main_stop_wait (i : nat)
| main_shutdown
| main_sem_destroy (s : semaphore)
| main_returned
| main_panicked.

Definition is_panicked (pc : main_pc) : bool :=
  match pc with main_panicked => true | _ => false end.

(** What the threads share: the counts of the driver's two semaphores and
    the buffer. *)
Record shared : Type := mk_shared {
  count_producer_finished : nat;
  count_consumer_finished : nat;
  buffer : core
}.

(** The whole system.  [trace] is the history of calls, the newest first,
    each with the thread that made it. *)
Record state : Type := mk_state {
  main : main_pc;
  producers : list (thread producer_pc);
  consumers : list (thread consumer_pc);
  mem : shared;
  trace : list (tid * event)
}.

(** What the scheduler chooses: a thread to run for one step, or that the
    allocation the main thread is about to make fails. *)
Inductive action : Type := run (t : tid) | fail.

Definition set_buffer (c : core) (sh : shared) : shared :=
  mk_shared (count_producer_finished sh) (count_consumer_finished sh) c.

Definition record (t : tid) (evs : list event) (tr : list (tid * event))
  : list (tid * event) :=
  foldl (fun tr e => (t, e) :: tr) tr evs.

(** Modelled from the spec: the three operations of the missing core that
    the driver calls, 3: the state [producerconsumer_startup] sets up, and
    one step of a call of [producer_produce] and of [consumer_consume].
    [core_produce]: [None] when the task is blocked, [Some (c, None)] when
    the call returns.  [core_consume]: [None] when the task is blocked,
    [Some (c, inr d)] when the call returns [d]. *)
Record core_operations : Type := mk_core_operations {
  core_startup : core;
  core_produce : pc_data -> produce_pc -> core -> option (core * option produce_pc);
  core_consume : consume_pc -> core -> option (core * (consume_pc + pc_data))
}.

Section Core.

(** Modelled from the spec: the capacity C of the Slot Store, fixed at
    startup; the constant of the missing header that sets it is not among
    the sources. *)
Variable CAPACITY : nat.

(** Modelled from the spec: what the missing [producerconsumer_startup]
    sets up, 4.4 and 4.1: C empty slots, no item available, all of the
    capacity available, the exclusion free. *)
Definition startup : core :=
  mk_core (replicate CAPACITY Empty) 0 0 0 CAPACITY false.

(** Modelled from the spec: one step of the missing [producer_produce],
    4.1.  [None]: the task is blocked.  [Some (c, None)]: the call
    returned. *)
Definition produce_step (d : pc_data) (pc : produce_pc) (c : core)
  : option (core * option produce_pc) :=
  match pc with
  | produce_wait =>
      match capacity_available c with
      | O => None
      | S n =>
          Some (mk_core (slots c) (head c) (tail c) (items_available c) n (locked c),
                Some produce_acquire)
      end
  | produce_acquire =>
      if locked c then None
      else Some (mk_core (slots c) (head c) (tail c) (items_available c)
                   (capacity_available c) true,
                 Some produce_write)
  | produce_write =>
      Some (mk_core (<[tail c := Occupied d]> (slots c)) (head c)
              ((tail c + 1) mod CAPACITY)%nat
              (items_available c) (capacity_available c) (locked c),
            Some produce_release)
  | produce_release =>
      Some (mk_core (slots c) (head c) (tail c) (items_available c)
              (capacity_available c) false,
            Some produce_signal)
  | produce_signal =>
      Some (mk_core (slots c) (head c) (tail c) (S (items_available c))
              (capacity_available c) (locked c),
            None)
  end.

(** Modelled from the spec: one step of the missing [consumer_consume],
    4.1.  [None]: the task is blocked (or would read a slot that holds
    nothing).  [Some (c, inr d)]: the call returned [d]. *)
Definition consume_step (pc : consume_pc) (c : core)
  : option (core * (consume_pc + pc_data)) :=
  match pc with
  | consume_wait =>
      match items_available c with
      | O => None
      | S n =>
          Some (mk_core (slots c) (head c) (tail c) n (capacity_available c) (locked c),
                inl consume_acquire)
      end
  | consume_acquire =>
      if locked c then None
      else Some (mk_core (slots c) (head c) (tail c) (items_available c)
                   (capacity_available c) true,
                 inl consume_read)
  | consume_read =>
      match slots c !! head c with
      | Some (Occupied d) =>
          Some (mk_core (<[head c := Empty]> (slots c))
                  ((head c + 1) mod CAPACITY)%nat (tail c)
                  (items_available c) (capacity_available c) (locked c),
                inl (consume_release d))
      | _ => None
      end
  | consume_release d =>
      Some (mk_core (slots c) (head c) (tail c) (items_available c)
              (capacity_available c) false,
            inl (consume_signal d))
  | consume_signal d =>
      Some (mk_core (slots c) (head c) (tail c) (items_available c)
              (S (capacity_available c)) (locked c),
            inr d)
  end.

(** Modelled from the spec: the bounded buffer of capacity C, 4.1. *)
Definition bounded_buffer : core_operations :=
  mk_core_operations startup produce_step consume_step.

End Core.

Section System.

Variable NUM_PRODUCERS : nat.
Variable NUM_CONSUMERS : nat.
Variable ITEMS_TO_PRODUCE : Z.
Variable CONSUMER_BORED_COUNT : Z.

(** The core the threads call.  The threads are embedded for every core:
    a call may take any number of steps, block for any time and return any
    item. *)
Variable CORE : core_operations.

(** One step of a producer thread. *)
Definition producer_step (thread_num : Z) (pc : producer_pc) (sh : shared)
  : option (producer_pc * shared * list event) :=
  match pc with
  | producer_start =>
      Some (producer_at_loop ITEMS_TO_PRODUCE, sh,
            [kprintf msg_producer_started []])
  | producer_at_loop items_to_go =>
      let items_to_go := wrap_int (items_to_go - 1) in
      if items_to_go =? 0 then Some (producer_at_signal, sh, [])
      else Some (producer_in_produce items_to_go produce_wait, sh,
                 [producer_produce (make_item thread_num items_to_go)])
  | producer_in_produce items_to_go pc =>
      match core_produce CORE (make_item thread_num items_to_go) pc (buffer sh) with
      | None => None
      | Some (c, Some pc') =>
          Some (producer_in_produce items_to_go pc', set_buffer c sh, [])
      | Some (c, None) => Some (producer_at_loop items_to_go, set_buffer c sh, [])
      end
  | producer_at_signal =>
      Some (producer_exited,
            mk_shared (S (count_producer_finished sh))
              (count_consumer_finished sh) (buffer sh),
            [kprintf msg_producer_finished []; sem_V producer_finished])
  | producer_exited => None
  end.

(** One step of a consumer thread. *)
Definition consumer_step (pc : consumer_pc) (sh : shared)
  : option (consumer_pc * shared * list event) :=
  match pc with
  | consumer_start =>
      Some (consumer_in_consume 0 consume_wait, sh,
            [kprintf msg_consumer_started []])
  | consumer_in_consume bored_count pc =>
      match core_consume CORE pc (buffer sh) with
      | None => None
      | Some (c, inl pc') =>
          Some (consumer_in_consume bored_count pc', set_buffer c sh, [])
      | Some (c, inr d) =>
          Some (consumer_at_loop bored_count d, set_buffer c sh,
                [consumer_consume d])
      end
  | consumer_at_loop bored_count thedata =>
      if loop_test thedata then
        let bored_count := wrap_int (bored_count + 1) in
        if bored_count =? CONSUMER_BORED_COUNT
        then Some (consumer_after_loop bored_count, sh, [])
        else Some (consumer_in_consume bored_count consume_wait, sh,
                   if data_error thedata
                   then [kprintf msg_unexpected [item1 thedata; item2 thedata]]
                   else [])
      else Some (consumer_after_loop bored_count, sh, [])
  | consumer_after_loop bored_count =>
      Some (consumer_exited,
            mk_shared (count_producer_finished sh)
              (S (count_consumer_finished sh)) (buffer sh),
            [if bored_count =? CONSUMER_BORED_COUNT
             then kprintf msg_bored []
             else kprintf msg_finished_normally [];
             sem_V consumer_finished])
  | consumer_exited => None
  end.

(** One step of the main thread. *)
Definition main_step (s : state) : option state :=
  let sh := mem s in
  match main s with
  | main_sem_create consumer_finished =>
      Some (mk_state (main_sem_create producer_finished) (producers s) (consumers s)
              (mk_shared (count_producer_finished sh) 0 (buffer sh))
              (record Main [kprintf msg_starting [];
                            sem_create consumer_finished true] (trace s)))
  | main_sem_create producer_finished =>
      Some (mk_state main_startup (producers s) (consumers s)
              (mk_shared 0 (count_consumer_finished sh) (buffer sh))
              (record Main [sem_create producer_finished true] (trace s)))
  | main_startup =>
      Some (mk_state (main_start_consumers 0) (producers s) (consumers s)
              (set_buffer (core_startup CORE) sh)
              (record Main [producerconsumer_startup] (trace s)))
  | main_start_consumers i =>
      if (i <? NUM_CONSUMERS)%nat then
        Some (mk_state (main_start_consumers (S i)) (producers s)
                (<[i := running (Z.of_nat i) consumer_start]> (consumers s)) sh
                (record Main [thread_fork consumer_entry (Z.of_nat i) true] (trace s)))
      else
        Some (mk_state (main_start_producers 0) (producers s) (consumers s) sh (trace s))
  | main_start_producers i =>
      if (i <? NUM_PRODUCERS)%nat then
        Some (mk_state (main_start_producers (S i))
                (<[i := running (Z.of_nat i) producer_start]> (producers s))
                (consumers s) sh
                (record Main [thread_fork producer_entry (Z.of_nat i) true] (trace s)))
      else
        Some (mk_state (main_wait_producers 0) (producers s) (consumers s) sh
                (record Main [kprintf msg_waiting []] (trace s)))
  | main_wait_producers i =>
      if (i <? NUM_PRODUCERS)%nat then
        match count_producer_finished sh with
        | O => None
        | S n =>
            Some (mk_state (main_wait_producers (S i)) (producers s) (consumers s)
                    (mk_shared n (count_consumer_finished sh) (buffer sh))
                    (record Main [sem_P producer_finished] (trace s)))
        end
      else
        Some (mk_state (main_stop_produce 0) (producers s) (consumers s) sh
                (record Main [kprintf msg_all_exited []] (trace s)))
  | main_stop_produce i =>
      if (i <? NUM_CONSUMERS)%nat then
        Some (mk_state (main_stop_in_produce i produce_wait) (producers s)
                (consumers s) sh
                (record Main [producer_produce (mk_pc_data 0 0)] (trace s)))
      else
        Some (mk_state (main_stop_wait 0) (producers s) (consumers s) sh (trace s))
  | main_stop_in_produce i pc =>
      match core_produce CORE (mk_pc_data 0 0) pc (buffer sh) with
      | None => None
      | Some (c, Some pc') =>
          Some (mk_state (main_stop_in_produce i pc') (producers s) (consumers s)
                  (set_buffer c sh) (trace s))
      | Some (c, None) =>
          Some (mk_state (main_stop_produce (S i)) (producers s) (consumers s)
                  (set_buffer c sh) (trace s))
      end
  | main_stop_wait i =>
      if (i <? NUM_CONSUMERS)%nat then
        match count_consumer_finished sh with
        | O => None
        | S n =>
            Some (mk_state (main_stop_wait (S i)) (producers s) (consumers s)
                    (mk_shared (count_producer_finished sh) n (buffer sh))
                    (record Main [sem_P consumer_finished] (trace s)))
        end
      else
        Some (mk_state main_shutdown (producers s) (consumers s) sh (trace s))
  | main_shutdown =>
      Some (mk_state (main_sem_destroy producer_finished) (producers s)
              (consumers s) sh
              (record Main [producerconsumer_shutdown] (trace s)))
  | main_sem_destroy producer_finished =>
      Some (mk_state (main_sem_destroy consumer_finished) (producers s)
              (consumers s) sh
              (record Main [sem_destroy producer_finished] (trace s)))
  | main_sem_destroy consumer_finished =>
      Some (mk_state main_returned (producers s) (consumers s) sh
              (record Main [sem_destroy consumer_finished; return_int 0] (trace s)))
  | main_returned => None
  | main_panicked => None
  end.

(** The allocation the main thread is about to make fails: it panics. *)
Definition main_fail (s : state) : option state :=
  let panicked evs :=
    Some (mk_state main_panicked (producers s) (consumers s) (mem s)
            (record Main evs (trace s))) in
  match main s with
  | main_sem_create consumer_finished =>
      panicked [kprintf msg_starting []; sem_create consumer_finished false;
                panic msg_no_semaphore]
  | main_sem_create producer_finished =>
      panicked [sem_create producer_finished false; panic msg_no_semaphore]
  | main_start_consumers i =>
      if (i <? NUM_CONSUMERS)%nat
      then panicked [thread_fork consumer_entry (Z.of_nat i) false;
                     panic msg_no_consumer]
      else None
  | main_start_producers i =>
      if (i <? NUM_PRODUCERS)%nat
      then panicked [thread_fork producer_entry (Z.of_nat i) false;
                     panic msg_no_producer]
      else None
  | _ => None
  end.

(** One step of the system.  A panic stops every thread. *)
Definition step (a : action) (s : state) : option state :=
  if is_panicked (main s) then None
  else
    match a with
    | run Main => main_step s
    | run (Producer i) =>
        match producers s !! i with
        | Some (running thread_num pc) =>
            match producer_step thread_num pc (mem s) with
            | Some (pc', sh, evs) =>
                Some (mk_state (main s)
                        (<[i := running thread_num pc']> (producers s))
                        (consumers s) sh (record (Producer i) evs (trace s)))
            | None => None
            end
        | _ => None
        end
    | run (Consumer j) =>
        match consumers s !! j with
        | Some (running thread_num pc) =>
            match consumer_step pc (mem s) with
            | Some (pc', sh, evs) =>
                Some (mk_state (main s) (producers s)
                        (<[j := running thread_num pc']> (consumers s))
                        sh (record (Consumer j) evs (trace s)))
            | None => None
            end
        | _ => None
        end
    | fail => main_fail s
    end.

(** Before [run_producerconsumer] starts: no thread but the main one. *)
Definition initial : state :=
  mk_state (main_sem_create consumer_finished)
    (replicate NUM_PRODUCERS not_started)
    (replicate NUM_CONSUMERS not_started)
    (mk_shared 0 0 (core_startup CORE)) [].

(** The states a run can pass through. *)
Inductive reachable : state -> Prop :=
| reachable_initial : reachable initial
| reachable_step a s s' : reachable s -> step a s = Some s' -> reachable s'.

(** Follow a schedule from a state. *)
Fixpoint run_schedule (sched : list action) (s : state) : option state :=
  match sched with
  | [] => Some s
  | a :: sched' =>
      match step a s with
      | Some s' => run_schedule sched' s'
      | None => None
      end
  end.

(** The actions a scheduler can choose from. *)
Definition all_actions : list action :=
  run Main :: map (fun i => run (Producer i)) (seq 0 NUM_PRODUCERS)
  ++ map (fun j => run (Consumer j)) (seq 0 NUM_CONSUMERS) ++ [fail].

(** The first of a list of actions that can be taken, with its result. *)
Fixpoint first_enabled (acts : list action) (s : state) : option state :=
  match acts with
  | [] => None
  | a :: acts' =>
      match step a s with
      | Some s' => Some s'
      | None => first_enabled acts' s
      end
  end.

(** A scheduler that never lets an allocation fail and always runs the
    first thread that can take a step, for at most [fuel] steps. *)
Fixpoint drive (fuel : nat) (s : state) : state :=
  match fuel with
  | O => s
  | S fuel' =>
      match first_enabled (removelast all_actions) s with
      | Some s' => drive fuel' s'
      | None => s
      end
  end.

(** No action can be taken. *)
Definition stuck (s : state) : Prop := forall a, step a s = None.

End System.

(** A complete run with the constants the file ships with and ten slots. *)
Definition configured_run : state :=
  drive Configured.NUM_PRODUCERS Configured.NUM_CONSUMERS
    Configured.ITEMS_TO_PRODUCE Configured.CONSUMER_BORED_COUNT (bounded_buffer 10)
    (Z.to_nat 5000)
    (initial Configured.NUM_PRODUCERS Configured.NUM_CONSUMERS (bounded_buffer 10)).

(** ** The vocabulary of the statements *)

(** *** Traces of the driver's functions *)

(** [countdown n] is [n, n-1, ..., 1]: the values [items_to_go] takes in the
    body of the producer's loop when it starts from [n + 1]. *)
Fixpoint countdown (n : nat) : list Z :=
  match n with
  | O => []
  | S m => Z.of_nat (S m) :: countdown m
  end.

(** The number of leading items of [consume], from index [k] on, on which
    the consumer's loop test holds, capped at [limit]. *)
Fixpoint run_length (consume : nat -> pc_data) (k limit : nat) : nat :=
  match limit with
  | O => O
  | S l => if loop_test (consume k) then S (run_length consume (S k) l) else O
  end.

(** What one completed iteration of the consumer's loop adds to the trace:
    the report on item [k], if any, and the next call. *)
Definition iteration (consume : nat -> pc_data) (k : nat) : list event :=
  (if data_error (consume k)
   then [kprintf msg_unexpected [item1 (consume k); item2 (consume k)]]
   else [])
  ++ [consumer_consume (consume (S k))].

Definition is_report (e : event) : bool :=
  match e with
  | kprintf fmt _ => bool_decide (fmt = msg_unexpected)
  | _ => false
  end.

(** The number of iterations a consumer thread completes on [consume]. *)
Definition iterations (CONSUMER_BORED_COUNT : Z) (consume : nat -> pc_data) : nat :=
  run_length consume 0 (Z.to_nat (CONSUMER_BORED_COUNT - 1)).

(** An item a producer thread can have built without overflow. *)
Definition producer_item (d : pc_data) : Prop :=
  exists thread_num items_to_go,
    0 <= thread_num /\ 1 <= items_to_go
    /\ items_to_go + 1000 * thread_num < INT_MAX
    /\ d = make_item thread_num items_to_go.

(** *** Histories of the running system *)

(** The number of times an item stands in a list. *)
Definition multiplicity (d : pc_data) (l : list pc_data) : nat :=
  sum_list_with (fun x => if bool_decide (x = d) then 1%nat else 0%nat) l.

(** The number of times [x] stands in a trace. *)
Definition occurrences (x : tid * event) (tr : list (tid * event)) : nat :=
  sum_list_with (fun y => if bool_decide (y = x) then 1%nat else 0%nat) tr.

(** The items the main thread, and the producer threads, have handed to
    [producer_produce], and the items [consumer_consume] has returned, the
    newest first. *)
Definition passed_by_main (tr : list (tid * event)) : list pc_data :=
  omap (fun x => match x with
                 | (Main, producer_produce d) => Some d
                 | _ => None
                 end) tr.

Definition passed_by_producers (tr : list (tid * event)) : list pc_data :=
  omap (fun x => match x with
                 | (Producer _, producer_produce d) => Some d
                 | _ => None
                 end) tr.

Definition consumed (tr : list (tid * event)) : list pc_data :=
  omap (fun x => match x with
                 | (_, consumer_consume d) => Some d
                 | _ => None
                 end) tr.

(** The items [consumer_consume] has returned to consumer [j]. *)
Definition returned_to (j : nat) (tr : list (tid * event)) : list pc_data :=
  omap (fun x => match x with
                 | (Consumer j', consumer_consume d) =>
                     if bool_decide (j' = j) then Some d else None
                 | _ => None
                 end) tr.

Definition producer_done (th : thread producer_pc) : nat :=
  match th with running _ producer_exited => 1 | _ => 0 end.

Definition consumer_done (th : thread consumer_pc) : nat :=
  match th with running _ consumer_exited => 1 | _ => 0 end.

(** The main thread has left [wait_for_producer_threads]: it is in
    [stop_consumer_threads] or beyond. *)
Definition closing (pc : main_pc) : bool :=
  match pc with
  | main_stop_produce _ | main_stop_in_produce _ _ | main_stop_wait _
  | main_shutdown | main_sem_destroy _ | main_returned => true
  | _ => false
  end.

(** The main thread has left [stop_consumer_threads]. *)
Definition shutting_down (pc : main_pc) : bool :=
  match pc with
  | main_shutdown | main_sem_destroy _ | main_returned => true
  | _ => false
  end.

Section SequencingInvariant.

Variable NUM_PRODUCERS : nat.
Variable NUM_CONSUMERS : nat.

(** How many times the main thread has come back from
    [P(producer_finished)] and from [P(consumer_finished)]. *)
Definition waited_producers (pc : main_pc) : nat :=
  match pc with
  | main_wait_producers i => i
  | main_panicked => 0
  | _ => if closing pc then NUM_PRODUCERS else 0
  end.

Definition waited_consumers (pc : main_pc) : nat :=
  match pc with
  | main_stop_wait i => i
  | _ => if shutting_down pc then NUM_CONSUMERS else 0
  end.

(** How many threads of each kind the main thread has forked. *)
Definition forked_consumers (pc : main_pc) : nat :=
  match pc with
  | main_sem_create _ | main_startup => 0
  | main_start_consumers i => i
  | _ => NUM_CONSUMERS
  end.

Definition forked_producers (pc : main_pc) : nat :=
  match pc with
  | main_sem_create _ | main_startup | main_start_consumers _ => 0
  | main_start_producers i => i
  | _ => NUM_PRODUCERS
  end.

(** How many threads of each kind are known to have been forked: after a
    panic, none. *)
Definition started_consumers (pc : main_pc) : nat :=
  match pc with main_panicked => 0 | _ => forked_consumers pc end.

Definition started_producers (pc : main_pc) : nat :=
  match pc with main_panicked => 0 | _ => forked_producers pc end.

Definition index_in_range (pc : main_pc) : Prop :=
  match pc with
  | main_wait_producers i => (i <= NUM_PRODUCERS)%nat
  | main_stop_wait i => (i <= NUM_CONSUMERS)%nat
  | _ => True
  end.

(** The invariant behind the order of events at shutdown: each semaphore
    counts the threads that have signalled and have not been waited for
    yet, and a thread's signal is in the trace exactly when it is gone. *)
Record sequencing (s : state) : Prop := {
  seq_producers : length (producers s) = NUM_PRODUCERS;
  seq_consumers : length (consumers s) = NUM_CONSUMERS;
  seq_index : index_in_range (main s);
  seq_producer_finished :
    (count_producer_finished (mem s) + waited_producers (main s)
     = sum_list_with producer_done (producers s))%nat;
  seq_consumer_finished :
    (count_consumer_finished (mem s) + waited_consumers (main s)
     = sum_list_with consumer_done (consumers s))%nat;
  seq_not_started_producers :
    forall i th, (forked_producers (main s) <= i)%nat ->
      producers s !! i = Some th -> th = not_started;
  seq_not_started_consumers :
    forall j th, (forked_consumers (main s) <= j)%nat ->
      consumers s !! j = Some th -> th = not_started;
  seq_started_producers :
    forall i th, (i < started_producers (main s))%nat ->
      producers s !! i = Some th -> th <> not_started;
  seq_started_consumers :
    forall j th, (j < started_consumers (main s))%nat ->
      consumers s !! j = Some th -> th <> not_started;
  seq_producer_signal :
    forall i th, producers s !! i = Some th ->
      occurrences (Producer i, sem_V producer_finished) (trace s) = producer_done th;
  seq_consumer_signal :
    forall j th, consumers s !! j = Some th ->
      occurrences (Consumer j, sem_V consumer_finished) (trace s) = consumer_done th;
  seq_closing :
    closing (main s) = false -> passed_by_main (trace s) = [];
  seq_shutting_down :
    shutting_down (main s) = false ->
    occurrences (Main, producerconsumer_shutdown) (trace s) = 0%nat
}.

End SequencingInvariant.

(** *** The ring of slots as a queue *)

(** The slots, read from [hd] on, hold the items of [q] in order and
    nothing else; [tl] is where the next item goes. *)
Definition ring_rep (CAPACITY : nat) (sl : list slot) (hd tl : nat)
    (q : list pc_data) : Prop :=
  length sl = CAPACITY
  /\ (hd < CAPACITY)%nat
  /\ (length q <= CAPACITY)%nat
  /\ tl = ((hd + length q) mod CAPACITY)%nat
  /\ forall k, (k < CAPACITY)%nat ->
       sl !! ((hd + k) mod CAPACITY)%nat
       = Some (match q !! k with Some d => Occupied d | None => Empty end).

(** *** What each thread holds *)

(** Weights on items: [eos] counts the items the consumer's loop test
    rejects (the items it takes for the end of the stream), [real] the
    others. *)
Definition eos (d : pc_data) : nat := if loop_test d then 0 else 1.
Definition real (d : pc_data) : nat := if loop_test d then 1 else 0.

(** A call of [producer_produce] in progress: between taking a unit of
    capacity and writing the slot; between writing the slot and signalling
    availability; inside the exclusion; with the item not yet in the
    store. *)
Definition produce_reserved (pc : produce_pc) : nat :=
  match pc with produce_acquire | produce_write => 1 | _ => 0 end.

Definition produce_written (pc : produce_pc) : nat :=
  match pc with produce_release | produce_signal => 1 | _ => 0 end.

Definition produce_critical (pc : produce_pc) : nat :=
  match pc with produce_write | produce_release => 1 | _ => 0 end.

Definition produce_hand (w : pc_data -> nat) (d : pc_data) (pc : produce_pc) : nat :=
  match pc with
  | produce_wait | produce_acquire | produce_write => w d
  | _ => 0
  end.

(** A call of [consumer_consume] in progress: between taking a unit of
    availability and reading the slot; between reading the slot and
    signalling capacity; inside the exclusion; with an item in hand. *)
Definition consume_reserved (pc : consume_pc) : nat :=
  match pc with consume_acquire | consume_read => 1 | _ => 0 end.

Definition consume_freed (pc : consume_pc) : nat :=
  match pc with consume_release _ | consume_signal _ => 1 | _ => 0 end.

Definition consume_critical (pc : consume_pc) : nat :=
  match pc with consume_read | consume_release _ => 1 | _ => 0 end.

Definition consume_hand (w : pc_data -> nat) (pc : consume_pc) : nat :=
  match pc with consume_release d | consume_signal d => w d | _ => 0 end.

Definition producer_call (f : produce_pc -> nat) (th : thread producer_pc) : nat :=
  match th with running _ (producer_in_produce _ pc) => f pc | _ => 0 end.

Definition producer_hand (w : pc_data -> nat) (th : thread producer_pc) : nat :=
  match th with
  | running thread_num (producer_in_produce items_to_go pc) =>
      produce_hand w (make_item thread_num items_to_go) pc
  | _ => 0
  end.

Definition main_call (f : produce_pc -> nat) (pc : main_pc) : nat :=
  match pc with main_stop_in_produce _ pc => f pc | _ => 0 end.

Definition consumer_call (f : consume_pc -> nat) (th : thread consumer_pc) : nat :=
  match th with running _ (consumer_in_consume _ pc) => f pc | _ => 0 end.

(** What a consumer thread has received so far: an item its loop test
    rejects (at most one, after which it leaves), and the number of items
    its loop has accepted. *)
Definition consumer_eos (th : thread consumer_pc) : nat :=
  match th with
  | running _ (consumer_at_loop _ d) => eos d
  | running _ (consumer_after_loop _) | running _ consumer_exited => 1
  | _ => 0
  end.

Definition consumer_reals (th : thread consumer_pc) : nat :=
  match th with
  | running _ (consumer_in_consume b _) | running _ (consumer_after_loop b) => Z.to_nat b
  | running _ (consumer_at_loop b d) => Z.to_nat b + real d
  | _ => 0
  end.

(** The items of a queue that stand behind an item the consumers take for
    the end of the stream are all such items. *)
Fixpoint reals_first (q : list pc_data) : Prop :=
  match q with
  | [] => True
  | d :: q' => (eos d = 1%nat -> sum_list_with real q' = 0%nat) /\ reals_first q'
  end.

(** The number of steps a call in progress still takes. *)
Definition produce_rank (pc : produce_pc) : nat :=
  match pc with
  | produce_wait => 5 | produce_acquire => 4 | produce_write => 3
  | produce_release => 2 | produce_signal => 1
  end.

Definition consume_rank (pc : consume_pc) : nat :=
  match pc with
  | consume_wait => 5 | consume_acquire => 4 | consume_read => 3
  | consume_release _ => 2 | consume_signal _ => 1
  end.

(** *** The invariant of the system *)

Section SystemInvariant.

Variable NUM_PRODUCERS : nat.
Variable NUM_CONSUMERS : nat.
Variable ITEMS_TO_PRODUCE : Z.
Variable CONSUMER_BORED_COUNT : Z.
Variable CAPACITY : nat.

(** The number of items a producer thread has handed over. *)
Definition producer_passed (th : thread producer_pc) : nat :=
  match th with
  | running _ (producer_at_loop v) | running _ (producer_in_produce v _) =>
      Z.to_nat (ITEMS_TO_PRODUCE - v)
  | running _ producer_at_signal | running _ producer_exited =>
      Z.to_nat (ITEMS_TO_PRODUCE - 1)
  | _ => 0
  end.

(** The number of sentinels the main thread has handed over. *)
Definition main_passed (pc : main_pc) : nat :=
  match pc with
  | main_stop_produce i => i
  | main_stop_in_produce i _ => S i
  | main_stop_wait _ | main_shutdown | main_sem_destroy _ | main_returned =>
      NUM_CONSUMERS
  | _ => 0
  end.

Definition main_hand (w : pc_data -> nat) (pc : main_pc) : nat :=
  match pc with
  | main_stop_in_produce _ pc => produce_hand w (mk_pc_data 0 0) pc
  | _ => 0
  end.

Definition main_ok (pc : main_pc) : Prop :=
  match pc with
  | main_stop_produce i => (i <= NUM_CONSUMERS)%nat
  | main_stop_in_produce i _ => (i < NUM_CONSUMERS)%nat
  | _ => True
  end.

Definition producer_ok (i : nat) (th : thread producer_pc) : Prop :=
  match th with
  | not_started => True
  | running thread_num pc =>
      thread_num = Z.of_nat i
      /\ match pc with
         | producer_at_loop v => 1 <= v <= ITEMS_TO_PRODUCE
         | producer_in_produce v _ => 1 <= v < ITEMS_TO_PRODUCE
         | _ => True
         end
  end.

Definition consumer_ok (th : thread consumer_pc) : Prop :=
  match th with
  | running _ (consumer_in_consume b _) | running _ (consumer_at_loop b _)
  | running _ (consumer_after_loop b) => 0 <= b < CONSUMER_BORED_COUNT
  | _ => True
  end.

(** A bound on the number of steps each thread still takes, and their sum:
    the measure that every step of the system lowers. *)
Definition producer_steps (th : thread producer_pc) : nat :=
  match th with
  | not_started | running _ producer_start =>
      6 * Z.to_nat (ITEMS_TO_PRODUCE - 1) + 3
  | running _ (producer_at_loop v) => 6 * Z.to_nat (v - 1) + 2
  | running _ (producer_in_produce v pc) =>
      6 * Z.to_nat (v - 1) + 2 + produce_rank pc
  | running _ producer_at_signal => 1
  | running _ producer_exited => 0
  end.

Definition consumer_steps (th : thread consumer_pc) : nat :=
  match th with
  | not_started | running _ consumer_start =>
      6 * Z.to_nat CONSUMER_BORED_COUNT + 8
  | running _ (consumer_in_consume b pc) =>
      6 * Z.to_nat (CONSUMER_BORED_COUNT - b) + 2 + consume_rank pc
  | running _ (consumer_at_loop b _) =>
      6 * Z.to_nat (CONSUMER_BORED_COUNT - b) + 2
  | running _ (consumer_after_loop _) => 1
  | running _ consumer_exited => 0
  end.

Definition main_steps (pc : main_pc) : nat :=
  match pc with
  | main_returned | main_panicked => 0
  | main_sem_destroy consumer_finished => 1
  | main_sem_destroy producer_finished => 2
  | main_shutdown => 3
  | main_stop_wait i => 4 + (NUM_CONSUMERS - i)
  | main_stop_produce i => 5 + NUM_CONSUMERS + 6 * (NUM_CONSUMERS - i)
  | main_stop_in_produce i pc =>
      5 + NUM_CONSUMERS + 6 * (NUM_CONSUMERS - S i) + produce_rank pc
  | main_wait_producers i => 6 + 7 * NUM_CONSUMERS + (NUM_PRODUCERS - i)
  | main_start_producers i =>
      7 + 7 * NUM_CONSUMERS + NUM_PRODUCERS + (NUM_PRODUCERS - i)
  | main_start_consumers i =>
      8 + 7 * NUM_CONSUMERS + 2 * NUM_PRODUCERS + (NUM_CONSUMERS - i)
  | main_startup => 9 + 8 * NUM_CONSUMERS + 2 * NUM_PRODUCERS
  | main_sem_create producer_finished => 10 + 8 * NUM_CONSUMERS + 2 * NUM_PRODUCERS
  | main_sem_create consumer_finished => 11 + 8 * NUM_CONSUMERS + 2 * NUM_PRODUCERS
  end.

Definition steps_left (s : state) : nat :=
  main_steps (main s)
  + sum_list_with producer_steps (producers s)
  + sum_list_with consumer_steps (consumers s).

(** The invariant of the system, for the queue [q] the ring stands for. *)
Record inv (s : state) (q : list pc_data) : Prop := {
  inv_sequencing : sequencing NUM_PRODUCERS NUM_CONSUMERS s;
  inv_main : main_ok (main s);
  inv_producers : forall i th, producers s !! i = Some th -> producer_ok i th;
  inv_consumers : forall j th, consumers s !! j = Some th -> consumer_ok th;
  inv_ring :
    ring_rep CAPACITY (slots (buffer (mem s))) (head (buffer (mem s)))
      (tail (buffer (mem s))) q;
  inv_capacity :
    (capacity_available (buffer (mem s)) + length q
     + sum_list_with (producer_call produce_reserved) (producers s)
     + main_call produce_reserved (main s)
     + sum_list_with (consumer_call consume_freed) (consumers s)
     = CAPACITY)%nat;
  inv_available :
    (items_available (buffer (mem s))
     + sum_list_with (producer_call produce_written) (producers s)
     + main_call produce_written (main s)
     + sum_list_with (consumer_call consume_reserved) (consumers s)
     = length q)%nat;
  inv_locked :
    ((if locked (buffer (mem s)) then 1 else 0)
     = sum_list_with (producer_call produce_critical) (producers s)
       + main_call produce_critical (main s)
       + sum_list_with (consumer_call consume_critical) (consumers s))%nat;
  inv_passed :
    length (passed_by_producers (trace s))
    = sum_list_with producer_passed (producers s);
  inv_passed_real :
    sum_list_with eos (passed_by_producers (trace s)) = 0%nat;
  inv_passed_main :
    passed_by_main (trace s) = repeat sentinel (main_passed (main s));
  inv_conservation :
    forall w : pc_data -> nat,
      (sum_list_with w (passed_by_producers (trace s))
       + sum_list_with w (passed_by_main (trace s))
       = sum_list_with w (consumed (trace s))
         + sum_list_with w q
         + sum_list_with (producer_hand w) (producers s)
         + main_hand w (main s)
         + sum_list_with (consumer_call (consume_hand w)) (consumers s))%nat;
  inv_eos :
    sum_list_with consumer_eos (consumers s)
    = sum_list_with eos (consumed (trace s));
  inv_eos_each :
    forall j th, consumers s !! j = Some th ->
      sum_list_with eos (returned_to j (trace s)) = consumer_eos th;
  inv_reals :
    (sum_list_with consumer_reals (consumers s)
     <= sum_list_with real (consumed (trace s)))%nat;
  inv_reals_first : reals_first q;
  inv_drained :
    (0 < sum_list_with eos (consumed (trace s))
         + sum_list_with (consumer_call (consume_hand eos)) (consumers s))%nat ->
    sum_list_with real q = 0%nat
}.

End SystemInvariant.

(** *** More vocabulary for the driver's functions *)

(** The forks of threads 0 .. n-1 of kind [f], all successful. *)
Definition forks (f : entry) (n : nat) : list event :=
  map (fun i => thread_fork f (Z.of_nat i) true) (seq 0 n).

Definition is_wait (e : event) : bool :=
  match e with sem_P _ => true | _ => false end.

Definition is_destroy (e : event) : bool :=
  match e with sem_destroy _ => true | _ => false end.

Definition is_return (e : event) : bool :=
  match e with return_int _ => true | _ => false end.

Definition is_fork_of (f : entry) (e : event) : bool :=
  match e with thread_fork f' _ true => bool_decide (f' = f) | _ => false end.

(** *** Sessions and the calls of one thread *)

(** Where a run stands: [producerconsumer_startup] has not been called
    yet; it has, and [producerconsumer_shutdown] has not; both have. *)
Inductive phase : Type := before_startup | in_session | after_shutdown.

(** What a call does to the phase; [None] when the call is out of place.
    Before the session only the main thread acts: it prints, creates
    semaphores, may panic, and opens the session.  After the session only
    the main thread acts: it destroys semaphores and returns.  Inside the
    session nobody opens it again, creates or destroys a semaphore or
    returns, and only the main thread ends it. *)
Definition phase_step (ph : phase) (x : tid * event) : option phase :=
  match ph with
  | before_startup =>
      match x with
      | (Main, producerconsumer_startup) => Some in_session
      | (Main, kprintf _ _) | (Main, sem_create _ _) | (Main, panic _) =>
          Some before_startup
      | _ => None
      end
  | in_session =>
      match x with
      | (Main, producerconsumer_shutdown) => Some after_shutdown
      | (_, producerconsumer_startup) | (_, producerconsumer_shutdown)
      | (_, sem_create _ _) | (_, sem_destroy _) | (_, return_int _) => None
      | _ => Some in_session
      end
  | after_shutdown =>
      match x with
      | (Main, sem_destroy _) | (Main, return_int _) => Some after_shutdown
      | _ => None
      end
  end.

(** The phase after a history, read from the oldest call on. *)
Fixpoint session (ph : phase) (h : list (tid * event)) : option phase :=
  match h with
  | [] => Some ph
  | x :: h' =>
      match phase_step ph x with
      | Some ph' => session ph' h'
      | None => None
      end
  end.

(** No thread has been forked; every thread has run to its end. *)
Definition no_thread (s : state) : Prop :=
  (forall th, th ∈ producers s -> th = not_started)
  /\ (forall th, th ∈ consumers s -> th = not_started).

Definition all_exited (s : state) : Prop :=
  (forall th, th ∈ producers s -> exists thread_num, th = running thread_num producer_exited)
  /\ (forall th, th ∈ consumers s -> exists thread_num, th = running thread_num consumer_exited).

(** The phase the main thread's program point stands for. *)
Definition phase_ok (ph : phase) (pc : main_pc) : Prop :=
  match pc with
  | main_sem_create _ | main_startup => ph = before_startup
  | main_sem_destroy _ | main_returned => ph = after_shutdown
  | main_panicked => ph <> after_shutdown
  | _ => ph = in_session
  end.

(** The calls of thread [t] in a history, the oldest first. *)
Definition events_of (t : tid) (tr : list (tid * event)) : list event :=
  omap (fun x => if bool_decide (x.1 = t) then Some x.2 else None) (rev tr).

(** The items among the calls of a consumer thread: what its calls of
    [consumer_consume] returned, in order. *)
Definition received (evs : list event) : list pc_data :=
  omap (fun e => match e with consumer_consume d => Some d | _ => None end) evs.

(** The consumer's report on an item, if it makes one. *)
Definition report (d : pc_data) : list event :=
  if data_error d then [kprintf msg_unexpected [item1 d; item2 d]] else [].

(** What an item adds to the calls of a consumer thread whose loop goes on
    after it: the call that returned it and the report on it. *)
Definition accepted (d : pc_data) : list event := consumer_consume d :: report d.

Section ThreadInvariants.

Variable NUM_PRODUCERS : nat.
Variable NUM_CONSUMERS : nat.
Variable ITEMS_TO_PRODUCE : Z.
Variable CONSUMER_BORED_COUNT : Z.

(** All the calls of a producer thread, and the calls it still has to make
    at a program point. *)
Definition producer_calls (thread_num : Z) : list event :=
  [kprintf msg_producer_started []]
  ++ map (fun k => producer_produce (make_item thread_num k))
       (countdown (Z.to_nat (ITEMS_TO_PRODUCE - 1)))
  ++ [kprintf msg_producer_finished []; sem_V producer_finished].

Definition producer_rest (thread_num : Z) (pc : producer_pc) : list event :=
  match pc with
  | producer_start => producer_calls thread_num
  | producer_at_loop v | producer_in_produce v _ =>
      map (fun k => producer_produce (make_item thread_num k))
        (countdown (Z.to_nat (v - 1)))
      ++ [kprintf msg_producer_finished []; sem_V producer_finished]
  | producer_at_signal =>
      [kprintf msg_producer_finished []; sem_V producer_finished]
  | producer_exited => []
  end.

(** Producer [i] with the calls [evs] behind it is on its way through
    [producer_calls]. *)
Definition producer_refines (i : nat) (th : thread producer_pc) (evs : list event)
  : Prop :=
  match th with
  | not_started => evs = []
  | running thread_num pc =>
      thread_num = Z.of_nat i
      /\ evs ++ producer_rest thread_num pc = producer_calls thread_num
      /\ match pc with
         | producer_at_loop v => 1 <= v <= ITEMS_TO_PRODUCE
         | producer_in_produce v _ => 1 <= v < ITEMS_TO_PRODUCE
         | _ => True
         end
  end.

(** A consumer thread with the calls [evs] behind it: the items its loop
    went on after, and the item it stands on. *)
Definition consumer_refines (th : thread consumer_pc) (evs : list event) : Prop :=
  match th with
  | not_started | running _ consumer_start => evs = []
  | running _ (consumer_in_consume b _) =>
      exists init,
        0 <= b < CONSUMER_BORED_COUNT /\ Z.of_nat (length init) = b
        /\ Forall (fun d => loop_test d = true) init
        /\ evs = kprintf msg_consumer_started [] :: flat_map accepted init
  | running _ (consumer_at_loop b d) =>
      exists init,
        0 <= b < CONSUMER_BORED_COUNT /\ Z.of_nat (length init) = b
        /\ Forall (fun d => loop_test d = true) init
        /\ evs = kprintf msg_consumer_started [] :: flat_map accepted init
                 ++ [consumer_consume d]
  | running _ (consumer_after_loop b) =>
      exists init d,
        Z.of_nat (length init) < CONSUMER_BORED_COUNT
        /\ Forall (fun d => loop_test d = true) init
        /\ ((loop_test d = false /\ b = Z.of_nat (length init))
            \/ (loop_test d = true /\ b = Z.of_nat (length init) + 1
                /\ b = CONSUMER_BORED_COUNT))
        /\ evs = kprintf msg_consumer_started [] :: flat_map accepted init
                 ++ [consumer_consume d]
  | running _ consumer_exited =>
      exists init d,
        Z.of_nat (length init) < CONSUMER_BORED_COUNT
        /\ Forall (fun d => loop_test d = true) init
        /\ (loop_test d = false \/ Z.of_nat (length init) + 1 = CONSUMER_BORED_COUNT)
        /\ evs = kprintf msg_consumer_started [] :: flat_map accepted init
                 ++ [consumer_consume d]
                 ++ [if loop_test d then kprintf msg_bored []
                     else kprintf msg_finished_normally [];
                     sem_V consumer_finished]
  end.

(** The calls the main thread has behind it at each program point. *)
Definition opening : list event :=
  [kprintf msg_starting [];
   sem_create consumer_finished true; sem_create producer_finished true;
   producerconsumer_startup].

Definition forked (i : nat) : list event :=
  opening ++ forks consumer_entry NUM_CONSUMERS ++ forks producer_entry i.

Definition waited (i : nat) : list event :=
  forked NUM_PRODUCERS ++ [kprintf msg_waiting []]
  ++ repeat (sem_P producer_finished) i.

Definition stopping (i : nat) : list event :=
  waited NUM_PRODUCERS ++ [kprintf msg_all_exited []]
  ++ repeat (producer_produce sentinel) i.

Definition stopped (i : nat) : list event :=
  stopping NUM_CONSUMERS ++ repeat (sem_P consumer_finished) i.

Definition main_calls (pc : main_pc) : list event :=
  match pc with
  | main_sem_create consumer_finished => []
  | main_sem_create producer_finished =>
      [kprintf msg_starting []; sem_create consumer_finished true]
  | main_startup =>
      [kprintf msg_starting [];
       sem_create consumer_finished true; sem_create producer_finished true]
  | main_start_consumers i => opening ++ forks consumer_entry i
  | main_start_producers i => forked i
  | main_wait_producers i => waited i
  | main_stop_produce i => stopping i
  | main_stop_in_produce i _ => stopping (S i)
  | main_stop_wait i => stopped i
  | main_shutdown => stopped NUM_CONSUMERS
  | main_sem_destroy producer_finished =>
      stopped NUM_CONSUMERS ++ [producerconsumer_shutdown]
  | main_sem_destroy consumer_finished =>
      stopped NUM_CONSUMERS
      ++ [producerconsumer_shutdown; sem_destroy producer_finished]
  | main_returned =>
      stopped NUM_CONSUMERS
      ++ [producerconsumer_shutdown; sem_destroy producer_finished;
          sem_destroy consumer_finished; return_int 0]
  | main_panicked => []
  end.

(** The index of each loop of the main thread stays within its bound. *)
Definition main_index_ok (pc : main_pc) : Prop :=
  match pc with
  | main_start_consumers i | main_stop_produce i | main_stop_wait i =>
      (i <= NUM_CONSUMERS)%nat
  | main_stop_in_produce i _ => (i < NUM_CONSUMERS)%nat
  | main_start_producers i | main_wait_producers i => (i <= NUM_PRODUCERS)%nat
  | _ => True
  end.

(** An allocation fails in a run with these outcomes. *)
Definition some_failure (sem_ok : semaphore -> bool) (fork_ok : entry -> nat -> bool)
  : Prop :=
  sem_ok consumer_finished = false \/ sem_ok producer_finished = false
  \/ (exists k, (k < NUM_CONSUMERS)%nat /\ fork_ok consumer_entry k = false)
  \/ (exists k, (k < NUM_PRODUCERS)%nat /\ fork_ok producer_entry k = false).

(** The main thread with the calls [evs] behind it. *)
Definition main_refines (pc : main_pc) (evs : list event) : Prop :=
  match pc with
  | main_panicked =>
      exists sem_ok fork_ok,
        some_failure sem_ok fork_ok
        /\ evs = run_producerconsumer NUM_PRODUCERS NUM_CONSUMERS sem_ok fork_ok
  | _ => evs = main_calls pc /\ main_index_ok pc
  end.

End ThreadInvariants.

(** A core with a fault, to exercise the statements about faults: it lets
    every call return at once, and hands every consumer the item (1, 5),
    whatever was produced. *)
Definition careless_core : core_operations :=
  mk_core_operations
    (mk_core [] 0 0 0 0 false)
    (fun _ _ c => Some (c, None))
    (fun _ c => Some (c, inr (mk_pc_data 1 5))).

(** A run against the careless core: the main thread up to the fork of
    consumer 0, then three steps of that consumer. *)
Definition careless_run : option state :=
  run_schedule Configured.NUM_PRODUCERS Configured.NUM_CONSUMERS
    Configured.ITEMS_TO_PRODUCE Configured.CONSUMER_BORED_COUNT careless_core
    [run Main; run Main; run Main; run Main;
     run (Consumer 0); run (Consumer 0); run (Consumer 0)]
    (initial Configured.NUM_PRODUCERS Configured.NUM_CONSUMERS careless_core).

(** *** The flow of items, whatever the constants *)

Section FlowInvariant.

Variable NUM_PRODUCERS : nat.
Variable NUM_CONSUMERS : nat.
Variable CAPACITY : nat.

(** What holds of the bounded buffer and the items in every state of every
    run, for the queue [q] the ring stands for: nothing is made up and
    nothing is handed out twice.  It asks nothing of ITEMS_TO_PRODUCE and
    CONSUMER_BORED_COUNT. *)
Record flow (s : state) (q : list pc_data) : Prop := {
  flow_sequencing : sequencing NUM_PRODUCERS NUM_CONSUMERS s;
  flow_main : main_ok NUM_CONSUMERS (main s);
  flow_ring :
    ring_rep CAPACITY (slots (buffer (mem s))) (head (buffer (mem s)))
      (tail (buffer (mem s))) q;
  flow_capacity :
    (capacity_available (buffer (mem s)) + length q
     + sum_list_with (producer_call produce_reserved) (producers s)
     + main_call produce_reserved (main s)
     + sum_list_with (consumer_call consume_freed) (consumers s)
     = CAPACITY)%nat;
  flow_available :
    (items_available (buffer (mem s))
     + sum_list_with (producer_call produce_written) (producers s)
     + main_call produce_written (main s)
     + sum_list_with (consumer_call consume_reserved) (consumers s)
     = length q)%nat;
  flow_locked :
    ((if locked (buffer (mem s)) then 1 else 0)
     = sum_list_with (producer_call produce_critical) (producers s)
       + main_call produce_critical (main s)
       + sum_list_with (consumer_call consume_critical) (consumers s))%nat;
  flow_passed_main :
    passed_by_main (trace s) = repeat sentinel (main_passed NUM_CONSUMERS (main s));
  flow_conservation :
    forall w : pc_data -> nat,
      (sum_list_with w (passed_by_producers (trace s))
       + sum_list_with w (passed_by_main (trace s))
       = sum_list_with w (consumed (trace s))
         + sum_list_with w q
         + sum_list_with (producer_hand w) (producers s)
         + main_hand w (main s)
         + sum_list_with (consumer_call (consume_hand w)) (consumers s))%nat;
  flow_eos :
    (sum_list_with eos (consumed (trace s))
     <= sum_list_with consumer_eos (consumers s))%nat;
  flow_idle :
    (forall i th, producers s !! i = Some th -> th = not_started) ->
    passed_by_producers (trace s) = []
}.

End FlowInvariant.

(** *** After closure *)

(** Closing the stream is the work of [stop_consumer_threads]: the main
    thread hands one sentinel for each consumer thread to
    [producer_produce].  The stream is being closed from the moment the
    main thread enters that function ([closing]); it is closed once the
    last sentinel is in. *)
Definition closed (pc : main_pc) : bool :=
  match pc with
  | main_stop_wait _ | main_shutdown | main_sem_destroy _ | main_returned => true
  | _ => false
  end.

(** The items that are still on their way: in a slot of the ring, or read
    from a slot by a call of [consumer_consume] that has not returned. *)
Definition stored (sl : slot) : option pc_data :=
  match sl with Occupied d => Some d | Empty => None end.

Definition held (th : thread consumer_pc) : option pc_data :=
  match th with
  | running _ (consumer_in_consume _ (consume_release d))
  | running _ (consumer_in_consume _ (consume_signal d)) => Some d
  | _ => None
  end.

Definition in_flight (s : state) : list pc_data :=
  omap stored (slots (buffer (mem s))) ++ omap held (consumers s).

(** The store is drained: no item of a producer is on its way any more,
    only sentinels, if anything. *)
Definition drained (s : state) : bool :=
  forallb (fun d => bool_decide (d = sentinel)) (in_flight s).

(** The consumer thread is in a call of [consumer_consume] or on its way
    to one: it has not called yet, is inside the call, or stands on an
    item after which its loop goes on. *)
Definition awaits (CONSUMER_BORED_COUNT : Z) (th : thread consumer_pc) : bool :=
  match th with
  | running _ consumer_start | running _ (consumer_in_consume _ _) => true
  | running _ (consumer_at_loop bored_count thedata) =>
      loop_test thedata && negb (wrap_int (bored_count + 1) =? CONSUMER_BORED_COUNT)
  | _ => false
  end.

(** What consumer [j] has received, with the sentinel it still waits
    for. *)
Definition receives (CONSUMER_BORED_COUNT : Z) (j : nat) (th : thread consumer_pc)
    (tr : list (tid * event)) : list pc_data :=
  (if awaits CONSUMER_BORED_COUNT th then [sentinel] else []) ++ returned_to j tr.

(** A bound on the number of steps the threads still take once the main
    thread is closing the stream: the main thread to its return, a consumer
    thread to its next wait for an item, and six steps of some consumer for
    every item that is available. *)
Definition main_left (NUM_CONSUMERS : nat) (pc : main_pc) : nat :=
  match pc with
  | main_stop_produce i => 5 + NUM_CONSUMERS + 12 * (NUM_CONSUMERS - i)
  | main_stop_in_produce i pc =>
      11 + NUM_CONSUMERS + 12 * (NUM_CONSUMERS - S i) + produce_rank pc
  | main_stop_wait i => 4 + (NUM_CONSUMERS - i)
  | main_shutdown => 3
  | main_sem_destroy producer_finished => 2
  | main_sem_destroy consumer_finished => 1
  | _ => 0
  end.

Definition consumer_left (th : thread consumer_pc) : nat :=
  match th with
  | not_started | running _ consumer_exited => 0
  | running _ (consumer_after_loop _) => 1
  | running _ (consumer_in_consume _ consume_wait) => 2
  | running _ consumer_start | running _ (consumer_at_loop _ _) => 3
  | running _ (consumer_in_consume _ pc) => 3 + consume_rank pc
  end.

Definition steps_after_close (NUM_CONSUMERS : nat) (s : state) : nat :=
  main_left NUM_CONSUMERS (main s)
  + 6 * items_available (buffer (mem s))
  + sum_list_with consumer_left (consumers s).

(** *** Runs to try the statements on *)

Section Schedules.

Variable NUM_PRODUCERS : nat.
Variable NUM_CONSUMERS : nat.
Variable ITEMS_TO_PRODUCE : Z.
Variable CONSUMER_BORED_COUNT : Z.
Variable CORE : core_operations.

(** The schedule [drive] follows: the first action that can be taken, at
    every step. *)
Fixpoint first_action (acts : list action) (s : state) : option action :=
  match acts with
  | [] => None
  | a :: acts' =>
      match step NUM_PRODUCERS NUM_CONSUMERS ITEMS_TO_PRODUCE CONSUMER_BORED_COUNT
              CORE a s with
      | Some _ => Some a
      | None => first_action acts' s
      end
  end.

Fixpoint drive_schedule (fuel : nat) (s : state) : list action :=
  match fuel with
  | O => []
  | S fuel' =>
      match first_action (removelast (all_actions NUM_PRODUCERS NUM_CONSUMERS)) s with
      | Some a =>
          match step NUM_PRODUCERS NUM_CONSUMERS ITEMS_TO_PRODUCE
                  CONSUMER_BORED_COUNT CORE a s with
          | Some s' => a :: drive_schedule fuel' s'
          | None => []
          end
      | None => []
      end
  end.

End Schedules.

(** A run in which the consumer gets bored: one producer that submits
    three items, one consumer that leaves after two, two slots. *)
Definition bored_run : state :=
  drive 1 1 4 2 (bounded_buffer 2) (Z.to_nat 200) (initial 1 1 (bounded_buffer 2)).

(** The run with the constants the file ships with, at a point where the
    stream is closed and drained and every consumer still waits for its
    sentinel; and the rest of that run. *)
Definition drained_run : state :=
  drive Configured.NUM_PRODUCERS Configured.NUM_CONSUMERS
    Configured.ITEMS_TO_PRODUCE Configured.CONSUMER_BORED_COUNT (bounded_buffer 10)
    (Z.to_nat 750)
    (initial Configured.NUM_PRODUCERS Configured.NUM_CONSUMERS (bounded_buffer 10)).

Definition drained_run_schedule : list action :=
  drive_schedule Configured.NUM_PRODUCERS Configured.NUM_CONSUMERS
    Configured.ITEMS_TO_PRODUCE Configured.CONSUMER_BORED_COUNT (bounded_buffer 10)
    (Z.to_nat 100) drained_run.

Definition drained_run_end : state :=
  drive Configured.NUM_PRODUCERS Configured.NUM_CONSUMERS
    Configured.ITEMS_TO_PRODUCE Configured.CONSUMER_BORED_COUNT (bounded_buffer 10)
    (Z.to_nat 100) drained_run.

(** ** Facts about machine integers *)

Lemma wrap_int_small z : INT_MIN <= z <= INT_MAX -> wrap_int z = z.
Proof.
  unfold wrap_int, INT_MIN, INT_MAX. intros Hz.
  rewrite Z.mod_small by lia. lia.
Qed.

Lemma wrap_int_range z : INT_MIN <= wrap_int z <= INT_MAX.
Proof.
  unfold wrap_int, INT_MIN, INT_MAX.
  pose proof (Z.mod_pos_bound (z + 2147483648) 4294967296). lia.
Qed.

Lemma wrap_int_ulong z : wrap_int (wrap_ulong z) = wrap_int z.
Proof.
  unfold wrap_int, wrap_ulong.
  rewrite Zplus_mod_idemp_l. reflexivity.
Qed.

(** ** Facts about the driver's functions *)

Section DriverFacts.

Variable NUM_PRODUCERS : nat.
Variable NUM_CONSUMERS : nat.
Variable ITEMS_TO_PRODUCE : Z.
Variable CONSUMER_BORED_COUNT : Z.

Abbreviation iterations := (iterations CONSUMER_BORED_COUNT).

Lemma length_countdown n : length (countdown n) = n.
Proof. induction n as [|n IH]; simpl; [reflexivity | now rewrite IH]. Qed.

Lemma elem_of_countdown n k : k ∈ countdown n <-> 1 <= k <= Z.of_nat n.
Proof.
  induction n as [|n IH].
  - simpl. rewrite elem_of_nil. lia.
  - cbn [countdown]. rewrite elem_of_cons, IH. lia.
Qed.

Lemma producer_loop_countdown fuel thread_num (n : nat) :
  (n < fuel)%nat -> Z.of_nat n < INT_MAX ->
  producer_loop fuel thread_num (Z.of_nat n + 1)
  = Some (map (fun k => producer_produce (make_item thread_num k)) (countdown n)).
Proof.
  revert fuel. induction n as [|n IH]; intros fuel Hfuel Hmax.
  - destruct fuel as [|fuel]; [lia|]. reflexivity.
  - destruct fuel as [|fuel]; [lia|].
    cbn [producer_loop countdown map].
    replace (Z.of_nat (S n) + 1 - 1) with (Z.of_nat n + 1) by lia.
    rewrite wrap_int_small by (unfold INT_MIN, INT_MAX in *; lia).
    destruct (Z.eqb_spec (Z.of_nat n + 1) 0) as [E|_]; [lia|].
    rewrite IH by lia.
    replace (Z.of_nat n + 1) with (Z.of_nat (S n)) by lia. reflexivity.
Qed.

(** The trace of a producer thread: ITEMS_TO_PRODUCE - 1 calls of
    [producer_produce], for [items_to_go] from ITEMS_TO_PRODUCE - 1 down to
    1, then the signal. *)
Lemma producer_thread_trace fuel thread_num :
  1 <= ITEMS_TO_PRODUCE <= INT_MAX ->
  (Z.to_nat ITEMS_TO_PRODUCE <= fuel)%nat ->
  producer_thread ITEMS_TO_PRODUCE fuel thread_num
  = Some ([kprintf msg_producer_started []]
          ++ map (fun k => producer_produce (make_item thread_num k))
                 (countdown (Z.to_nat (ITEMS_TO_PRODUCE - 1)))
          ++ [kprintf msg_producer_finished []; sem_V producer_finished]).
Proof.
  intros Hitems Hfuel. unfold producer_thread.
  replace ITEMS_TO_PRODUCE
    with (Z.of_nat (Z.to_nat (ITEMS_TO_PRODUCE - 1)) + 1) at 1 by lia.
  rewrite producer_loop_countdown by lia. reflexivity.
Qed.

Lemma count_app f tr1 tr2 : count f (tr1 ++ tr2) = (count f tr1 + count f tr2)%nat.
Proof. unfold count. now rewrite filter_app, length_app. Qed.

Lemma count_cons f e tr :
  count f (e :: tr) = ((if f e then 1 else 0) + count f tr)%nat.
Proof.
  unfold count. destruct (f e) eqn:E.
  - rewrite filter_cons_True by exact E. reflexivity.
  - rewrite filter_cons_False by (rewrite E; discriminate). reflexivity.
Qed.

Lemma count_nil f : count f [] = 0%nat.
Proof. reflexivity. Qed.

Lemma count_all f tr : (forall e, e ∈ tr -> f e = true) -> count f tr = length tr.
Proof.
  induction tr as [|e tr IH]; intros H; [reflexivity|].
  rewrite count_cons, H by apply list_elem_of_here.
  rewrite IH; [reflexivity|]. intros e' He'. apply H. now apply list_elem_of_further.
Qed.

Lemma count_none f tr : (forall e, e ∈ tr -> f e = false) -> count f tr = 0%nat.
Proof.
  induction tr as [|e tr IH]; intros H; [reflexivity|].
  rewrite count_cons, H by apply list_elem_of_here.
  rewrite IH; [reflexivity|]. intros e' He'. apply H. now apply list_elem_of_further.
Qed.

Lemma count_repeat f e n :
  count f (repeat e n) = if f e then n else 0%nat.
Proof.
  induction n as [|n IH]; [now destruct (f e)|].
  cbn [repeat]. rewrite count_cons, IH. now destruct (f e).
Qed.

Lemma produced_app tr1 tr2 : produced (tr1 ++ tr2) = produced tr1 ++ produced tr2.
Proof. unfold produced. apply omap_app. Qed.

Lemma produced_map_produce (l : list pc_data) :
  produced (map producer_produce l) = l.
Proof. induction l as [|d l IH]; [reflexivity|]. cbn. f_equal. exact IH. Qed.

(** The items of a producer thread. *)
Lemma producer_thread_produced fuel thread_num tr :
  1 <= ITEMS_TO_PRODUCE <= INT_MAX ->
  (Z.to_nat ITEMS_TO_PRODUCE <= fuel)%nat ->
  producer_thread ITEMS_TO_PRODUCE fuel thread_num = Some tr ->
  produced tr
  = map (make_item thread_num) (countdown (Z.to_nat (ITEMS_TO_PRODUCE - 1))).
Proof.
  intros Hitems Hfuel Htr.
  rewrite producer_thread_trace in Htr by assumption.
  injection Htr as <-.
  change (produced (kprintf ?m ?a :: ?t)) with (produced t).
  rewrite produced_app. change (produced [_; _]) with (@nil pc_data).
  rewrite app_nil_r.
  rewrite <- (produced_map_produce (map _ _)). now rewrite map_map.
Qed.

(** Without overflow the item is what the source's formula says. *)
Lemma make_item_exact thread_num k :
  0 <= thread_num -> 0 <= k -> k + 1000 * thread_num < INT_MAX ->
  make_item thread_num k
  = mk_pc_data (k + 1000 * thread_num) (k + 1000 * thread_num + 1).
Proof.
  intros Ht Hk Hmax. unfold make_item.
  unfold wrap_ulong, INT_MAX in *.
  rewrite (Z.mod_small k), (Z.mod_small (1000 * thread_num)) by lia.
  rewrite Z.mod_small by lia.
  rewrite !wrap_int_small by (unfold INT_MIN, INT_MAX; lia).
  reflexivity.
Qed.

Lemma run_length_le consume k limit : (run_length consume k limit <= limit)%nat.
Proof.
  revert k. induction limit as [|l IH]; intros k; cbn [run_length]; [lia|].
  destruct (loop_test (consume k)); [specialize (IH (S k))|]; lia.
Qed.

Lemma run_length_pass consume k limit j :
  (j < run_length consume k limit)%nat -> loop_test (consume (k + j)%nat) = true.
Proof.
  revert k j. induction limit as [|l IH]; intros k j; cbn [run_length]; [lia|].
  destruct (loop_test (consume k)) eqn:E; [|lia].
  destruct j as [|j]; intros Hj.
  - now rewrite Nat.add_0_r.
  - rewrite Nat.add_succ_r. apply (IH (S k) j). lia.
Qed.

Lemma run_length_stop consume k limit :
  (run_length consume k limit < limit)%nat ->
  loop_test (consume (k + run_length consume k limit)%nat) = false.
Proof.
  revert k. induction limit as [|l IH]; intros k; cbn [run_length]; [lia|].
  destruct (loop_test (consume k)) eqn:E; intros Hlt.
  - rewrite Nat.add_succ_r. apply (IH (S k)). lia.
  - now rewrite Nat.add_0_r.
Qed.

(** The loop of the consumer, from the moment item [k] has been received
    and [bored_count] is [b]: it completes [run_length] iterations and
    leaves on the item after them. *)
Lemma consumer_loop_trace limit fuel consume k b :
  0 <= b -> b + Z.of_nat limit + 1 = CONSUMER_BORED_COUNT ->
  CONSUMER_BORED_COUNT <= INT_MAX -> (limit < fuel)%nat ->
  consumer_loop CONSUMER_BORED_COUNT fuel consume (S k) (consume k) b
  = let n := run_length consume k limit in
    Some (flat_map (iteration consume) (seq k n),
          b + Z.of_nat n + (if loop_test (consume (k + n)%nat) then 1 else 0)).
Proof.
  revert fuel k b. induction limit as [|l IH]; intros fuel k b Hb HB Hmax Hfuel;
    (destruct fuel as [|fuel]; [lia|]); cbn [consumer_loop run_length].
  - rewrite Nat.add_0_r. destruct (loop_test (consume k)).
    + rewrite wrap_int_small by (unfold INT_MIN, INT_MAX in *; lia).
      destruct (Z.eqb_spec (b + 1) CONSUMER_BORED_COUNT) as [_|Hne]; [|lia].
      cbn. do 2 f_equal. lia.
    + cbn. do 2 f_equal. lia.
  - destruct (loop_test (consume k)) eqn:Etest.
    + rewrite wrap_int_small by (unfold INT_MIN, INT_MAX in *; lia).
      destruct (Z.eqb_spec (b + 1) CONSUMER_BORED_COUNT) as [Heq|_]; [lia|].
      rewrite (IH fuel (S k) (b + 1)) by lia.
      cbn zeta. cbn [seq flat_map]. unfold iteration at 2.
      rewrite <- app_assoc. cbn [app].
      rewrite Nat.add_succ_r. cbn [Nat.add].
      do 2 f_equal. lia.
    + cbn. rewrite Nat.add_0_r, Etest. do 2 f_equal. lia.
Qed.

(** The whole trace of a consumer thread. *)
Lemma consumer_thread_trace fuel consume :
  1 <= CONSUMER_BORED_COUNT <= INT_MAX ->
  (Z.to_nat CONSUMER_BORED_COUNT <= fuel)%nat ->
  consumer_thread CONSUMER_BORED_COUNT fuel consume
  = Some ([kprintf msg_consumer_started []; consumer_consume (consume 0%nat)]
          ++ flat_map (iteration consume) (seq 0 (iterations consume))
          ++ [if loop_test (consume (iterations consume))
              then kprintf msg_bored []
              else kprintf msg_finished_normally []]
          ++ [sem_V consumer_finished]).
Proof.
  intros HB Hfuel. unfold consumer_thread.
  rewrite (consumer_loop_trace (Z.to_nat (CONSUMER_BORED_COUNT - 1))) by lia.
  cbn zeta. fold (iterations consume). cbn [Nat.add].
  do 4 f_equal.
  pose proof (run_length_le consume 0 (Z.to_nat (CONSUMER_BORED_COUNT - 1))) as Hle.
  fold (iterations consume) in Hle.
  destruct (loop_test (consume (iterations consume))) eqn:Etest.
  - destruct (Nat.eq_dec (iterations consume) (Z.to_nat (CONSUMER_BORED_COUNT - 1)))
      as [Heq|Hne].
    + destruct (Z.eqb_spec (0 + Z.of_nat (iterations consume) + 1) CONSUMER_BORED_COUNT);
        [reflexivity | lia].
    + pose proof (run_length_stop consume 0 (Z.to_nat (CONSUMER_BORED_COUNT - 1))) as Hstop.
      fold (iterations consume) in Hstop. cbn [Nat.add] in Hstop.
      rewrite Hstop in Etest by lia. discriminate.
  - destruct (Z.eqb_spec (0 + Z.of_nat (iterations consume) + 0) CONSUMER_BORED_COUNT);
      [lia | reflexivity].
Qed.

Lemma count_iterations f consume k n :
  (forall d, f (consumer_consume d) = true) ->
  (forall fmt args, f (kprintf fmt args) = false) ->
  count f (flat_map (iteration consume) (seq k n)) = n.
Proof.
  intros Hc Hk. revert k. induction n as [|n IH]; intros k; [reflexivity|].
  cbn [seq flat_map]. rewrite count_app, IH. unfold iteration.
  rewrite count_app, count_cons, count_nil, Hc.
  destruct (data_error (consume k)); [rewrite count_cons, Hk|]; rewrite ?count_nil; lia.
Qed.

End DriverFacts.

(** ** The driver's functions, one at a time *)

(** In general a producer thread calls [producer_produce]
    ITEMS_TO_PRODUCE - 1 times, then signals [producer_finished] once, as
    the last thing it does. *)
Lemma producer_thread_calls (ITEMS_TO_PRODUCE : Z) fuel thread_num :
  1 <= ITEMS_TO_PRODUCE <= INT_MAX ->
  (Z.to_nat ITEMS_TO_PRODUCE <= fuel)%nat ->
  exists tr,
    producer_thread ITEMS_TO_PRODUCE fuel thread_num = Some tr
    /\ count is_produce tr = Z.to_nat (ITEMS_TO_PRODUCE - 1)
    /\ count (is_event (sem_V producer_finished)) tr = 1%nat
    /\ last tr = Some (sem_V producer_finished).
Proof.
  intros Hitems Hfuel. eexists. split; [now apply producer_thread_trace|].
  rewrite !count_app, !count_cons, !count_nil. cbn [is_produce is_event].
  rewrite (count_all is_produce), (count_none (is_event _)).
  - rewrite length_map, length_countdown. unfold is_event.
    rewrite !bool_decide_eq_false_2 by discriminate.
    rewrite bool_decide_eq_true_2 by reflexivity.
    split; [lia|]. split; [lia|].
    rewrite app_assoc.
    change [kprintf msg_producer_finished []; sem_V producer_finished]
      with ([kprintf msg_producer_finished []] ++ [sem_V producer_finished]).
    rewrite app_assoc. apply last_snoc.
  - intros e He. apply list_elem_of_fmap in He as (k & -> & _).
    unfold is_event. now rewrite bool_decide_eq_false_2.
  - intros e He. apply list_elem_of_fmap in He as (k & -> & _). reflexivity.
Qed.

(** C3 (the code falls one call short of the claim): with ITEMS_TO_PRODUCE
    = 30, as shipped, a producer thread calls [producer_produce] 29 times
    before it signals [producer_finished], whatever its thread number; with
    ITEMS_TO_PRODUCE = 50 it calls it 49 times, so two producers submit 98
    items, not 100. *)
Theorem producer_thread_one_call_short :
  forall thread_num,
    (exists tr, producer_thread 30 30 thread_num = Some tr
                /\ count is_produce tr = 29%nat
                /\ last tr = Some (sem_V producer_finished))
    /\ (exists tr, producer_thread 50 50 thread_num = Some tr
                   /\ count is_produce tr = 49%nat
                   /\ (2 * count is_produce tr = 98)%nat).
Proof.
  intros thread_num. split.
  - destruct (producer_thread_calls 30 30 thread_num) as (tr & Htr & Hn & _ & Hlast);
      [unfold INT_MAX; lia | lia |].
    exists tr. rewrite Hn. split; [exact Htr|]. split; [reflexivity | exact Hlast].
  - destruct (producer_thread_calls 50 50 thread_num) as (tr & Htr & Hn & _ & Hlast);
      [unfold INT_MAX; lia | lia |].
    exists tr. rewrite Hn. split; [exact Htr|]. split; reflexivity.
Qed.

(** The items of a producer thread, when no arithmetic overflows: each is
    built from a value of [items_to_go] that is at least 1, its second
    field is the first plus one, and the consumer's loop test holds of it. *)
Lemma producer_items_exact (ITEMS_TO_PRODUCE : Z) fuel thread_num :
  1 <= ITEMS_TO_PRODUCE -> 0 <= thread_num ->
  ITEMS_TO_PRODUCE + 1000 * thread_num <= INT_MAX ->
  (Z.to_nat ITEMS_TO_PRODUCE <= fuel)%nat ->
  exists tr,
    producer_thread ITEMS_TO_PRODUCE fuel thread_num = Some tr
    /\ forall d, d ∈ produced tr ->
         (exists items_to_go,
             1 <= items_to_go < ITEMS_TO_PRODUCE
             /\ item1 d = items_to_go + 1000 * thread_num)
         /\ item2 d = item1 d + 1
         /\ item1 d <> 0 /\ item2 d <> 0
         /\ loop_test d = true /\ data_error d = false /\ d <> sentinel.
Proof.
  intros Hitems Htn Hmax Hfuel.
  assert (Hrange : 1 <= ITEMS_TO_PRODUCE <= INT_MAX) by lia.
  eexists. split; [now apply producer_thread_trace|].
  intros d Hd.
  erewrite producer_thread_produced in Hd
    by (try apply producer_thread_trace; eassumption).
  apply list_elem_of_fmap in Hd as (k & -> & Hk).
  apply elem_of_countdown in Hk.
  rewrite make_item_exact by lia.
  unfold loop_test, data_error, sentinel. cbn [item1 item2].
  rewrite wrap_int_small by (unfold INT_MIN, INT_MAX in *; lia).
  rewrite Z.eqb_refl.
  destruct (Z.eqb_spec (k + 1000 * thread_num) 0) as [E|_]; [lia|].
  destruct (Z.eqb_spec (k + 1000 * thread_num + 1) 0) as [E|_]; [lia|].
  repeat split; try lia; try reflexivity.
  - exists k. lia.
  - intros E. injection E. lia.
Qed.

(** C4 (the code leaves the loop on the wrong items): an item with one zero
    field is not the sentinel, yet the consumer treats it as the end of the
    stream.  On (0, 1), which even satisfies item1 + 1 = item2, and on
    (5, 0), the thread makes one call, leaves its loop and finishes
    normally. *)
Theorem consumer_thread_stops_on_one_zero :
  (mk_pc_data 0 1 <> sentinel
   /\ data_error (mk_pc_data 0 1) = false
   /\ consumer_thread 10000 (Z.to_nat 10000) (fun _ => mk_pc_data 0 1)
      = Some [kprintf msg_consumer_started [];
              consumer_consume (mk_pc_data 0 1);
              kprintf msg_finished_normally [];
              sem_V consumer_finished])
  /\ (mk_pc_data 5 0 <> sentinel
      /\ consumer_thread 10000 (Z.to_nat 10000) (fun _ => mk_pc_data 5 0)
         = Some [kprintf msg_consumer_started [];
                 consumer_consume (mk_pc_data 5 0);
                 kprintf msg_finished_normally [];
                 sem_V consumer_finished]).
Proof.
  repeat split; try discriminate; vm_compute; reflexivity.
Qed.

(** C5: [stop_consumer_threads] hands [producer_produce] exactly
    NUM_CONSUMERS items, each of them (0, 0), and only then waits
    NUM_CONSUMERS times on [consumer_finished]. *)
Theorem stop_consumer_threads_sentinels (NUM_CONSUMERS : nat) :
  produced (stop_consumer_threads NUM_CONSUMERS) = repeat sentinel NUM_CONSUMERS
  /\ count is_produce (stop_consumer_threads NUM_CONSUMERS) = NUM_CONSUMERS
  /\ (forall d, d ∈ produced (stop_consumer_threads NUM_CONSUMERS) ->
        item1 d = 0 /\ item2 d = 0)
  /\ stop_consumer_threads NUM_CONSUMERS
     = repeat (producer_produce sentinel) NUM_CONSUMERS
       ++ repeat (sem_P consumer_finished) NUM_CONSUMERS.
Proof.
  assert (Hp : produced (stop_consumer_threads NUM_CONSUMERS)
               = repeat sentinel NUM_CONSUMERS).
  { unfold stop_consumer_threads. rewrite produced_app.
    assert (H1 : forall n, produced (repeat (producer_produce (mk_pc_data 0 0)) n)
                           = repeat sentinel n).
    { induction n as [|n IH]; [reflexivity|]. cbn. f_equal. exact IH. }
    assert (H2 : forall n, produced (repeat (sem_P consumer_finished) n) = []).
    { induction n as [|n IH]; [reflexivity|]. exact IH. }
    now rewrite H1, H2, app_nil_r. }
  split; [exact Hp|]. split; [|split; [|reflexivity]].
  - unfold stop_consumer_threads. rewrite count_app, !count_repeat.
    cbn [is_produce]. lia.
  - intros d Hd. rewrite Hp in Hd.
    apply list_elem_of_In, repeat_spec in Hd. subst d. split; reflexivity.
Qed.

(** C7: when either [sem_create] fails, [run_producerconsumer] panics at
    once: the panic follows the failed call directly, and the trace holds
    no call of [producerconsumer_startup], no [thread_fork], no second
    attempt at creating a semaphore and no return. *)
Theorem semaphore_failure_panics (NUM_PRODUCERS NUM_CONSUMERS : nat)
    (sem_ok : semaphore -> bool) (fork_ok : entry -> nat -> bool) :
  sem_ok consumer_finished = false \/ sem_ok producer_finished = false ->
  let tr := run_producerconsumer NUM_PRODUCERS NUM_CONSUMERS sem_ok fork_ok in
  (exists s pre,
      tr = pre ++ [sem_create s false; panic msg_no_semaphore]
      /\ Forall (fun e => e = kprintf msg_starting [] \/ exists s', e = sem_create s' true) pre)
  /\ (producerconsumer_startup ∉ tr)
  /\ count is_fork tr = 0%nat
  /\ (count (is_sem_create consumer_finished) tr <= 1)%nat
  /\ (count (is_sem_create producer_finished) tr <= 1)%nat
  /\ (return_int 0 ∉ tr).
Proof.
  intros Hfail tr. subst tr. unfold run_producerconsumer.
  destruct (sem_ok consumer_finished) eqn:E1; cbn [negb].
  - destruct Hfail as [Hfail|Hfail]; [discriminate|]. rewrite Hfail. cbn [negb app].
    split; [|split; [|split; [|split; [|split]]]].
    + exists producer_finished,
        [kprintf msg_starting []; sem_create consumer_finished true].
      split; [reflexivity|].
      constructor; [left; reflexivity|].
      constructor; [right; now exists consumer_finished|]. constructor.
    + rewrite !elem_of_cons, elem_of_nil. intros [H|[H|[H|[H|[]]]]]; discriminate.
    + reflexivity.
    + vm_compute. lia.
    + vm_compute. lia.
    + rewrite !elem_of_cons, elem_of_nil. intros [H|[H|[H|[H|[]]]]]; discriminate.
  - cbn [app].
    split; [|split; [|split; [|split; [|split]]]].
    + exists consumer_finished, [kprintf msg_starting []].
      split; [reflexivity|].
      constructor; [left; reflexivity|]. constructor.
    + rewrite !elem_of_cons, elem_of_nil. intros [H|[H|[H|[]]]]; discriminate.
    + reflexivity.
    + vm_compute. lia.
    + vm_compute. lia.
    + rewrite !elem_of_cons, elem_of_nil. intros [H|[H|[H|[]]]]; discriminate.
Qed.

Lemma semaphore_failure_panics_witness :
  (false = false \/ false = false)
  /\ exists s pre,
      run_producerconsumer 2 5 (fun _ => false) (fun _ _ => true)
      = pre ++ [sem_create s false; panic msg_no_semaphore].
Proof.
  split; [left; reflexivity|].
  destruct (semaphore_failure_panics 2 5 (fun _ => false) (fun _ _ => true))
    as ((s & pre & Htr & _) & _); [left; reflexivity|].
  exists s, pre. exact Htr.
Defined.

Lemma producer_item_no_error d : producer_item d -> data_error d = false.
Proof.
  intros (tn & k & Htn & Hk & Hmax & ->).
  rewrite make_item_exact by lia.
  unfold data_error. cbn [item1 item2].
  rewrite wrap_int_small by (unfold INT_MIN, INT_MAX in *; lia).
  now rewrite Z.eqb_refl.
Qed.

Lemma count_reports_iterations consume k n :
  (forall i, (k <= i < k + n)%nat -> data_error (consume i) = false) ->
  count is_report (flat_map (iteration consume) (seq k n)) = 0%nat.
Proof.
  revert k. induction n as [|n IH]; intros k Hok; [reflexivity|].
  cbn [seq flat_map]. rewrite count_app, IH by (intros i Hi; apply Hok; lia).
  unfold iteration. rewrite Hok by lia. reflexivity.
Qed.

Lemma count_reports_all consume k n :
  (forall i, data_error (consume i) = true) ->
  count is_report (flat_map (iteration consume) (seq k n)) = n.
Proof.
  intros Hbad. revert k. induction n as [|n IH]; intros k; [reflexivity|].
  cbn [seq flat_map]. rewrite count_app, IH.
  unfold iteration. rewrite Hbad. reflexivity.
Qed.

Lemma run_length_all consume k limit :
  (forall i, loop_test (consume i) = true) -> run_length consume k limit = limit.
Proof.
  intros Hall. revert k. induction limit as [|l IH]; intros k; [reflexivity|].
  cbn [run_length]. now rewrite Hall, IH.
Qed.

(** C8, as amended: (a) every item a producer thread submits satisfies
    item2 = item1 + 1, as long as nothing overflows; (b) the consumer
    completes some number [n] of iterations, fewer than
    CONSUMER_BORED_COUNT; each of the items 0 .. n-1 passed its loop test
    and is followed in the trace by a data error report exactly when
    item1 + 1 != item2 ([iteration]); the item after them either fails the
    loop test or is the CONSUMER_BORED_COUNT-th item received, and on that
    item the thread leaves the loop with no check; (c) when every item
    received is a producer's item or the sentinel, nothing is reported. *)
Theorem payload_relation_checked (ITEMS_TO_PRODUCE CONSUMER_BORED_COUNT : Z) :
  1 <= ITEMS_TO_PRODUCE -> 1 <= CONSUMER_BORED_COUNT <= INT_MAX ->
  (forall thread_num fuel,
      0 <= thread_num -> ITEMS_TO_PRODUCE + 1000 * thread_num <= INT_MAX ->
      (Z.to_nat ITEMS_TO_PRODUCE <= fuel)%nat ->
      exists tr,
        producer_thread ITEMS_TO_PRODUCE fuel thread_num = Some tr
        /\ forall d, d ∈ produced tr -> item2 d = item1 d + 1)
  /\ (forall consume fuel,
         (Z.to_nat CONSUMER_BORED_COUNT <= fuel)%nat ->
         exists n tr,
           Z.of_nat n < CONSUMER_BORED_COUNT
           /\ consumer_thread CONSUMER_BORED_COUNT fuel consume = Some tr
           /\ tr = [kprintf msg_consumer_started []; consumer_consume (consume 0%nat)]
                   ++ flat_map (iteration consume) (seq 0 n)
                   ++ [if loop_test (consume n)
                       then kprintf msg_bored []
                       else kprintf msg_finished_normally []]
                   ++ [sem_V consumer_finished]
           /\ (forall k, (k < n)%nat -> loop_test (consume k) = true)
           /\ (loop_test (consume n) = false
               \/ Z.of_nat n + 1 = CONSUMER_BORED_COUNT)
           /\ ((forall k, (k <= n)%nat ->
                          consume k = sentinel \/ producer_item (consume k)) ->
               count is_report tr = 0%nat)).
Proof.
  intros Hitems HB. split.
  - intros thread_num fuel Htn Hmax Hfuel.
    destruct (producer_items_exact ITEMS_TO_PRODUCE fuel thread_num)
      as (tr & Htr & Hall); try assumption.
    exists tr. split; [exact Htr|]. intros d Hd. now apply Hall.
  - intros consume fuel Hfuel.
    exists (iterations CONSUMER_BORED_COUNT consume). eexists.
    pose proof (run_length_le consume 0 (Z.to_nat (CONSUMER_BORED_COUNT - 1))) as Hle.
    fold (iterations CONSUMER_BORED_COUNT consume) in Hle.
    split; [lia|].
    split; [now apply consumer_thread_trace|].
    split; [reflexivity|].
    split; [|split].
    + intros k Hk. apply (run_length_pass consume 0 _ k Hk).
    + destruct (Nat.eq_dec (iterations CONSUMER_BORED_COUNT consume)
                  (Z.to_nat (CONSUMER_BORED_COUNT - 1))) as [Heq|Hne]; [right; lia|].
      left. apply (run_length_stop consume 0). fold (iterations CONSUMER_BORED_COUNT consume). lia.
    + intros Hgood.
      rewrite !count_app, count_reports_iterations.
      * destruct (loop_test _); reflexivity.
      * intros i Hi.
        pose proof (run_length_pass consume 0 _ i (proj2 Hi)) as Hpass.
        cbn [Nat.add] in Hpass.
        destruct (Hgood i) as [Hs|Hp]; [lia | |].
        -- rewrite Hs in Hpass. discriminate.
        -- now apply producer_item_no_error.
Qed.

Lemma payload_relation_checked_witness :
  (1 <= 30 /\ 1 <= 10000 <= INT_MAX)
  /\ exists tr, producer_thread 30 30 1 = Some tr
                /\ forall d, d ∈ produced tr -> item2 d = item1 d + 1.
Proof.
  assert (H1 : 1 <= 30) by lia.
  assert (H2 : 1 <= 10000 <= INT_MAX) by (unfold INT_MAX; lia).
  split; [split; assumption|].
  destruct (payload_relation_checked 30 10000 H1 H2) as [Hp _].
  apply (Hp 1 30%nat); unfold INT_MAX; lia.
Defined.

(** C8, as stated, fails at the bored limit: a consumer that is handed
    (1, 5) by every call makes CONSUMER_BORED_COUNT = 10000 calls; none of
    the items is treated as the end of the stream and every one of them has
    item1 + 1 != item2, but only 9999 data errors are reported: the 10000th
    item ends the loop before it is checked. *)
Lemma data_error_unreported_at_bored_limit :
  let consume := fun _ : nat => mk_pc_data 1 5 in
  (forall k, loop_test (consume k) = true /\ data_error (consume k) = true)
  /\ exists tr,
      consumer_thread 10000 (Z.to_nat 10000) consume = Some tr
      /\ count is_consume tr = Z.to_nat 10000
      /\ count is_report tr = Z.to_nat 9999.
Proof.
  intros consume. split; [intros k; split; reflexivity|].
  assert (H1 : 1 <= 10000 <= INT_MAX) by (unfold INT_MAX; lia).
  assert (H2 : (Z.to_nat 10000 <= Z.to_nat 10000)%nat) by apply Nat.le_refl.
  eexists. split; [exact (consumer_thread_trace 10000 _ consume H1 H2)|].
  assert (Hn : iterations 10000 consume = Z.to_nat 9999)
    by (apply run_length_all; reflexivity).
  rewrite Hn, !count_app, count_iterations, count_reports_all by reflexivity.
  change (loop_test (consume (Z.to_nat 9999))) with true. cbv iota.
  rewrite !count_cons, !count_nil. cbn [is_consume is_report].
  rewrite !bool_decide_eq_false_2 by discriminate.
  split; lia.
Qed.

(** X1: on every sequence of items a consumer
    thread stops after at most CONSUMER_BORED_COUNT calls of
    [consumer_consume]; it reports boredom exactly when the first
    CONSUMER_BORED_COUNT items all passed its loop test; it signals
    [consumer_finished] once, as the last thing it does. *)
Theorem consumer_thread_bounded (CONSUMER_BORED_COUNT : Z) fuel consume :
  1 <= CONSUMER_BORED_COUNT <= INT_MAX ->
  (Z.to_nat CONSUMER_BORED_COUNT <= fuel)%nat ->
  exists tr,
    consumer_thread CONSUMER_BORED_COUNT fuel consume = Some tr
    /\ (1 <= count is_consume tr <= Z.to_nat CONSUMER_BORED_COUNT)%nat
    /\ count (is_event (sem_V consumer_finished)) tr = 1%nat
    /\ last tr = Some (sem_V consumer_finished)
    /\ ((kprintf msg_bored [] ∈ tr)
        <-> forall k, (k < Z.to_nat CONSUMER_BORED_COUNT)%nat ->
                      loop_test (consume k) = true)
    /\ ((kprintf msg_bored [] ∈ tr) ->
        count is_consume tr = Z.to_nat CONSUMER_BORED_COUNT).
Proof.
  intros HB Hfuel. eexists. split; [now apply consumer_thread_trace|].
  set (n := iterations CONSUMER_BORED_COUNT consume).
  pose proof (run_length_le consume 0 (Z.to_nat (CONSUMER_BORED_COUNT - 1))) as Hle.
  fold (iterations CONSUMER_BORED_COUNT consume) in Hle. fold n in Hle.
  assert (Hpass : forall k, (k < n)%nat -> loop_test (consume k) = true)
    by (intros k Hk; apply (run_length_pass consume 0 _ k Hk)).
  assert (Hstop : (n < Z.to_nat (CONSUMER_BORED_COUNT - 1))%nat ->
                  loop_test (consume n) = false)
    by (intros Hlt; apply (run_length_stop consume 0); exact Hlt).
  assert (Hcalls :
    count is_consume
      ([kprintf msg_consumer_started []; consumer_consume (consume 0%nat)]
       ++ flat_map (iteration consume) (seq 0 n)
       ++ [if loop_test (consume n) then kprintf msg_bored []
           else kprintf msg_finished_normally []]
       ++ [sem_V consumer_finished]) = S n).
  { rewrite !count_app, count_iterations by reflexivity.
    rewrite !count_cons, !count_nil. cbn [is_consume].
    destruct (loop_test (consume n)); cbn [is_consume]; lia. }
  assert (Hbored :
    kprintf msg_bored [] ∈
      ([kprintf msg_consumer_started []; consumer_consume (consume 0%nat)]
       ++ flat_map (iteration consume) (seq 0 n)
       ++ [if loop_test (consume n) then kprintf msg_bored []
           else kprintf msg_finished_normally []]
       ++ [sem_V consumer_finished])
    <-> loop_test (consume n) = true).
  { rewrite !elem_of_app, !elem_of_cons, !elem_of_nil.
    split.
    - intros [[H|[H|[]]]|[H|[[H|[]]|[H|[]]]]]; try discriminate.
      + apply list_elem_of_In, in_flat_map in H as (k & _ & H).
        unfold iteration in H. apply in_app_or in H as [H|[H|[]]]; [|discriminate].
        destruct (data_error (consume k)); [|destruct H].
        destruct H as [H|[]]. discriminate.
      + destruct (loop_test (consume n)); [reflexivity | discriminate].
    - intros ->. right. right. left. now left. }
  split; [rewrite Hcalls; lia|]. split; [|split; [|split]].
  - rewrite !count_app, (count_none (is_event _) (flat_map _ _)).
    + rewrite !count_cons, !count_nil. unfold is_event.
      rewrite (bool_decide_eq_true_2 (sem_V consumer_finished = _)) by reflexivity.
      rewrite !bool_decide_eq_false_2; [lia | destruct (loop_test _) | | ]; discriminate.
    + intros e He. apply list_elem_of_In, in_flat_map in He as (k & _ & H).
      unfold is_event. apply bool_decide_eq_false_2. intros ->.
      unfold iteration in H. apply in_app_or in H as [H|[H|[]]]; [|discriminate].
      destruct (data_error (consume k)); [|destruct H].
      destruct H as [H|[]]. discriminate.
  - rewrite !app_assoc. apply last_snoc.
  - rewrite Hbored. split.
    + intros Htest k Hk.
      destruct (Nat.eq_dec n (Z.to_nat (CONSUMER_BORED_COUNT - 1))) as [Heq|Hne].
      * destruct (Nat.eq_dec k n) as [->|Hkn]; [exact Htest | apply Hpass; lia].
      * rewrite Hstop in Htest by lia. discriminate.
    + intros Hall. apply Hall. lia.
  - rewrite Hbored, Hcalls. intros Htest.
    destruct (Nat.eq_dec n (Z.to_nat (CONSUMER_BORED_COUNT - 1))) as [Heq|Hne]; [lia|].
    rewrite Hstop in Htest by lia. discriminate.
Qed.

Lemma consumer_thread_bounded_witness :
  (1 <= 10000 <= INT_MAX /\ (Z.to_nat 10000 <= Z.to_nat 10000)%nat)
  /\ exists tr,
      consumer_thread 10000 (Z.to_nat 10000) (fun _ => mk_pc_data 1 2) = Some tr
      /\ (1 <= count is_consume tr <= Z.to_nat 10000)%nat.
Proof.
  assert (H1 : 1 <= 10000 <= INT_MAX) by (unfold INT_MAX; lia).
  assert (H2 : (Z.to_nat 10000 <= Z.to_nat 10000)%nat) by lia.
  split; [split; assumption|].
  destruct (consumer_thread_bounded 10000 (Z.to_nat 10000)
              (fun _ => mk_pc_data 1 2) H1 H2) as (tr & Htr & Hcalls & _).
  exists tr. split; assumption.
Defined.

(** C9 (the bored report is missed on items with one zero field): a
    consumer that is handed (0, 5) by every call never receives the
    sentinel, yet it does not go on until it is bored: it stops after one
    call and reports that it finished normally. *)
Theorem consumer_thread_not_bored_without_sentinel :
  let consume := fun _ : nat => mk_pc_data 0 5 in
  (forall k, consume k <> sentinel)
  /\ consumer_thread 10000 (Z.to_nat 10000) consume
     = Some [kprintf msg_consumer_started [];
             consumer_consume (mk_pc_data 0 5);
             kprintf msg_finished_normally [];
             sem_V consumer_finished].
Proof.
  intros consume. split; [intros k; discriminate|].
  vm_compute. reflexivity.
Qed.

(** C10: under the constants the file ships with, every item a producer
    thread with thread number in [0, NUM_PRODUCERS) submits is built from a
    value of [items_to_go] that is at least 1, has item2 = item1 + 1, has
    no zero field, passes the consumer's loop test and is not the
    sentinel. *)
Theorem driver_items_never_sentinel (thread_num : Z) (fuel : nat) :
  0 <= thread_num < Z.of_nat Configured.NUM_PRODUCERS ->
  (Z.to_nat Configured.ITEMS_TO_PRODUCE <= fuel)%nat ->
  exists tr,
    producer_thread Configured.ITEMS_TO_PRODUCE fuel thread_num = Some tr
    /\ forall d, d ∈ produced tr ->
         (exists items_to_go,
             1 <= items_to_go /\ item1 d = items_to_go + 1000 * thread_num)
         /\ item2 d = item1 d + 1
         /\ item1 d <> 0 /\ item2 d <> 0
         /\ loop_test d = true /\ d <> sentinel.
Proof.
  unfold Configured.NUM_PRODUCERS, Configured.ITEMS_TO_PRODUCE.
  intros Htn Hfuel.
  destruct (producer_items_exact 30 fuel thread_num)
    as (tr & Htr & Hall); try (unfold INT_MAX; lia).
  exists tr. split; [exact Htr|]. intros d Hd.
  destruct (Hall d Hd) as ((k & Hk & H1) & H2 & H3 & H4 & H5 & _ & H6).
  repeat split; try assumption. exists k. split; [lia | exact H1].
Qed.

Lemma driver_items_never_sentinel_witness :
  (0 <= 1 < Z.of_nat Configured.NUM_PRODUCERS
   /\ (Z.to_nat Configured.ITEMS_TO_PRODUCE <= 30)%nat)
  /\ exists tr,
      producer_thread Configured.ITEMS_TO_PRODUCE 30 1 = Some tr
      /\ forall d, d ∈ produced tr -> loop_test d = true /\ d <> sentinel.
Proof.
  assert (H1 : 0 <= 1 < Z.of_nat Configured.NUM_PRODUCERS)
    by (unfold Configured.NUM_PRODUCERS; lia).
  assert (H2 : (Z.to_nat Configured.ITEMS_TO_PRODUCE <= 30)%nat)
    by (unfold Configured.ITEMS_TO_PRODUCE; lia).
  split; [split; assumption|].
  destruct (driver_items_never_sentinel 1 30 H1 H2) as (tr & Htr & Hall).
  exists tr. split; [exact Htr|].
  intros d Hd. destruct (Hall d Hd) as (_ & _ & _ & _ & H5 & H6). now split.
Defined.

(** ** The driver's functions: forks, the whole run, the items *)

(** A fork loop either forks every thread, or stops at the first fork that
    fails. *)
Lemma fork_loop_outcome f msg fork_ok i n :
  (fork_loop f msg fork_ok i n
   = (map (fun k => thread_fork f (Z.of_nat k) true) (seq i n), true)
   /\ forall k, (i <= k < i + n)%nat -> fork_ok f k = true)
  \/ exists m, (m < n)%nat
       /\ fork_ok f (i + m)%nat = false
       /\ (forall k, (i <= k < i + m)%nat -> fork_ok f k = true)
       /\ fork_loop f msg fork_ok i n
          = (map (fun k => thread_fork f (Z.of_nat k) true) (seq i m)
             ++ [thread_fork f (Z.of_nat (i + m)) false; panic msg], false).
Proof.
  revert i. induction n as [|n IH]; intros i.
  - left. split; [reflexivity | lia].
  - cbn [fork_loop seq map]. destruct (fork_ok f i) eqn:Hi.
    + destruct (IH (S i)) as [[-> Hall]|(m & Hm & Hfail & Hall & ->)].
      * left. split; [reflexivity|]. intros k Hk.
        destruct (Nat.eq_dec k i) as [->|Hne]; [exact Hi | apply Hall; lia].
      * right. exists (S m). split; [lia|].
        rewrite Nat.add_succ_r. split; [exact Hfail|]. split.
        -- intros k Hk.
           destruct (Nat.eq_dec k i) as [->|Hne]; [exact Hi | apply Hall; lia].
        -- reflexivity.
    + right. exists 0%nat. rewrite Nat.add_0_r.
      split; [lia|]. split; [exact Hi|]. split; [lia | reflexivity].
Qed.

(** X2: [start_consumer_threads] and [start_producer_threads] fork the
    threads 0, 1, ... in this order, each with its index as thread number.
    When every fork succeeds they fork all of them and return.  Otherwise
    they stop at the first fork that fails: the threads before it have been
    forked, none after it is, and the panic follows the failed fork at
    once. *)
Theorem start_threads_outcome (NUM_PRODUCERS NUM_CONSUMERS : nat)
    (fork_ok : entry -> nat -> bool) :
  ((start_consumer_threads NUM_CONSUMERS fork_ok = (forks consumer_entry NUM_CONSUMERS, true)
    /\ forall k, (k < NUM_CONSUMERS)%nat -> fork_ok consumer_entry k = true)
   \/ exists m, (m < NUM_CONSUMERS)%nat
        /\ fork_ok consumer_entry m = false
        /\ (forall k, (k < m)%nat -> fork_ok consumer_entry k = true)
        /\ start_consumer_threads NUM_CONSUMERS fork_ok
           = (forks consumer_entry m
              ++ [thread_fork consumer_entry (Z.of_nat m) false; panic msg_no_consumer],
              false))
  /\ ((start_producer_threads NUM_PRODUCERS fork_ok = (forks producer_entry NUM_PRODUCERS, true)
       /\ forall k, (k < NUM_PRODUCERS)%nat -> fork_ok producer_entry k = true)
      \/ exists m, (m < NUM_PRODUCERS)%nat
           /\ fork_ok producer_entry m = false
           /\ (forall k, (k < m)%nat -> fork_ok producer_entry k = true)
           /\ start_producer_threads NUM_PRODUCERS fork_ok
              = (forks producer_entry m
                 ++ [thread_fork producer_entry (Z.of_nat m) false; panic msg_no_producer],
                 false)).
Proof.
  unfold start_consumer_threads, start_producer_threads, forks. split.
  - destruct (fork_loop_outcome consumer_entry msg_no_consumer fork_ok 0 NUM_CONSUMERS)
      as [[Heq Hall]|(m & Hm & Hfail & Hall & Heq)].
    + left. split; [exact Heq|]. intros k Hk. apply Hall. lia.
    + right. exists m. cbn [Nat.add] in *. repeat split; try assumption.
      intros k Hk. apply Hall. lia.
  - destruct (fork_loop_outcome producer_entry msg_no_producer fork_ok 0 NUM_PRODUCERS)
      as [[Heq Hall]|(m & Hm & Hfail & Hall & Heq)].
    + left. split; [exact Heq|]. intros k Hk. apply Hall. lia.
    + right. exists m. cbn [Nat.add] in *. repeat split; try assumption.
      intros k Hk. apply Hall. lia.
Qed.

Lemma fork_loop_all f msg fork_ok n :
  (forall k, (k < n)%nat -> fork_ok f k = true) ->
  fork_loop f msg fork_ok 0 n = (forks f n, true).
Proof.
  intros Hall.
  destruct (fork_loop_outcome f msg fork_ok 0 n) as [[Heq _]|(m & Hm & Hfail & _)].
  - exact Heq.
  - cbn [Nat.add] in Hfail. rewrite Hall in Hfail by exact Hm. discriminate.
Qed.

Lemma fork_loop_fails f msg fork_ok n k :
  (k < n)%nat -> fork_ok f k = false ->
  exists m, (m <= k)%nat
    /\ fork_ok f m = false
    /\ fork_loop f msg fork_ok 0 n
       = (forks f m ++ [thread_fork f (Z.of_nat m) false; panic msg], false).
Proof.
  intros Hk Hfail.
  destruct (fork_loop_outcome f msg fork_ok 0 n) as [[_ Hall]|(m & Hm & Hf & Hall & Heq)].
  - rewrite Hall in Hfail by lia. discriminate.
  - exists m. cbn [Nat.add] in *. split; [|split; assumption].
    destruct (Nat.le_gt_cases m k) as [Hle|Hgt]; [exact Hle|].
    rewrite Hall in Hfail by lia. discriminate.
Qed.

(** X3: when both semaphores are created and every fork succeeds,
    [run_producerconsumer] makes exactly this sequence of calls: it creates
    [consumer_finished], then [producer_finished], calls
    [producerconsumer_startup], forks the NUM_CONSUMERS consumers and then
    the NUM_PRODUCERS producers, waits NUM_PRODUCERS times on
    [producer_finished], hands NUM_CONSUMERS sentinels to
    [producer_produce], waits NUM_CONSUMERS times on [consumer_finished],
    calls [producerconsumer_shutdown], destroys [producer_finished], then
    [consumer_finished], and returns 0. *)
Theorem run_producerconsumer_completes (NUM_PRODUCERS NUM_CONSUMERS : nat)
    (sem_ok : semaphore -> bool) (fork_ok : entry -> nat -> bool) :
  sem_ok consumer_finished = true -> sem_ok producer_finished = true ->
  (forall k, (k < NUM_CONSUMERS)%nat -> fork_ok consumer_entry k = true) ->
  (forall k, (k < NUM_PRODUCERS)%nat -> fork_ok producer_entry k = true) ->
  run_producerconsumer NUM_PRODUCERS NUM_CONSUMERS sem_ok fork_ok
  = [kprintf msg_starting [];
     sem_create consumer_finished true; sem_create producer_finished true;
     producerconsumer_startup]
    ++ forks consumer_entry NUM_CONSUMERS
    ++ forks producer_entry NUM_PRODUCERS
    ++ [kprintf msg_waiting []]
    ++ repeat (sem_P producer_finished) NUM_PRODUCERS
    ++ [kprintf msg_all_exited []]
    ++ repeat (producer_produce sentinel) NUM_CONSUMERS
    ++ repeat (sem_P consumer_finished) NUM_CONSUMERS
    ++ [producerconsumer_shutdown;
        sem_destroy producer_finished; sem_destroy consumer_finished;
        return_int 0].
Proof.
  intros Hc Hp Hfc Hfp. unfold run_producerconsumer.
  rewrite Hc, Hp. cbn [negb].
  unfold start_consumer_threads, start_producer_threads.
  rewrite (fork_loop_all _ _ _ _ Hfc), (fork_loop_all _ _ _ _ Hfp). cbn [negb].
  unfold wait_for_producer_threads, stop_consumer_threads, sentinel.
  cbn [app]. rewrite <- !app_assoc. reflexivity.
Qed.

Lemma run_producerconsumer_completes_witness :
  ((fun _ : semaphore => true) consumer_finished = true
   /\ (fun _ : semaphore => true) producer_finished = true)
  /\ run_producerconsumer 1 2 (fun _ => true) (fun _ _ => true)
     = [kprintf msg_starting [];
        sem_create consumer_finished true; sem_create producer_finished true;
        producerconsumer_startup;
        thread_fork consumer_entry 0 true; thread_fork consumer_entry 1 true;
        thread_fork producer_entry 0 true;
        kprintf msg_waiting []; sem_P producer_finished; kprintf msg_all_exited [];
        producer_produce sentinel; producer_produce sentinel;
        sem_P consumer_finished; sem_P consumer_finished;
        producerconsumer_shutdown;
        sem_destroy producer_finished; sem_destroy consumer_finished;
        return_int 0].
Proof.
  split; [split; reflexivity|].
  exact (run_producerconsumer_completes 1 2 (fun _ => true) (fun _ _ => true)
           eq_refl eq_refl (fun _ _ => eq_refl) (fun _ _ => eq_refl)).
Defined.

Lemma Forall_forks f n : Forall (fun e => exists f' k, e = thread_fork f' k true) (forks f n).
Proof.
  unfold forks. apply Forall_forall. intros e He.
  apply list_elem_of_fmap in He as (k & -> & _). now exists f, (Z.of_nat k).
Qed.

Lemma count_successful_forks g pre :
  (forall f k, g (thread_fork f k true) = false) ->
  Forall (fun e => exists f' k, e = thread_fork f' k true) pre ->
  count g pre = 0%nat.
Proof.
  intros Hg Hpre. apply count_none. intros e He.
  rewrite Forall_forall in Hpre. destruct (Hpre e He) as (f & k & ->). apply Hg.
Qed.

Lemma count_fork_of f f' n :
  count (is_fork_of f) (forks f' n) = if bool_decide (f' = f) then n else 0%nat.
Proof.
  unfold forks. destruct (bool_decide_reflect (f' = f)) as [->|Hne].
  - rewrite count_all, length_map, length_seq; [reflexivity|].
    intros e He. apply list_elem_of_fmap in He as (k & -> & _).
    cbn. now apply bool_decide_eq_true_2.
  - apply count_none. intros e He. apply list_elem_of_fmap in He as (k & -> & _).
    cbn. now apply bool_decide_eq_false_2.
Qed.

(** X4: when both semaphores are created and a fork fails,
    [run_producerconsumer] panics right after the failed fork.  By then
    [producerconsumer_startup] has been called and the earlier threads have
    been forked, and nothing is undone: it waits on no semaphore, hands no
    sentinel to [producer_produce], does not call
    [producerconsumer_shutdown], destroys no semaphore and does not return.
    When the fork that fails is a producer's, all NUM_CONSUMERS consumer
    threads have been forked before it. *)
Theorem fork_failure_panics (NUM_PRODUCERS NUM_CONSUMERS : nat)
    (sem_ok : semaphore -> bool) (fork_ok : entry -> nat -> bool) :
  sem_ok consumer_finished = true -> sem_ok producer_finished = true ->
  (exists k, (k < NUM_CONSUMERS)%nat /\ fork_ok consumer_entry k = false)
  \/ (exists k, (k < NUM_PRODUCERS)%nat /\ fork_ok producer_entry k = false) ->
  let tr := run_producerconsumer NUM_PRODUCERS NUM_CONSUMERS sem_ok fork_ok in
  (exists pre f m msg,
      tr = [kprintf msg_starting [];
            sem_create consumer_finished true; sem_create producer_finished true;
            producerconsumer_startup]
           ++ pre ++ [thread_fork f (Z.of_nat m) false; panic msg]
      /\ fork_ok f m = false
      /\ Forall (fun e => exists f' k, e = thread_fork f' k true) pre)
  /\ count is_wait tr = 0%nat
  /\ count is_produce tr = 0%nat
  /\ count (is_event producerconsumer_shutdown) tr = 0%nat
  /\ count is_destroy tr = 0%nat
  /\ count is_return tr = 0%nat
  /\ ((forall k, (k < NUM_CONSUMERS)%nat -> fork_ok consumer_entry k = true) ->
      count (is_fork_of consumer_entry) tr = NUM_CONSUMERS).
Proof.
  intros Hc Hp Hfail tr.
  assert (Hshape :
    exists pre f m msg,
      tr = [kprintf msg_starting [];
            sem_create consumer_finished true; sem_create producer_finished true;
            producerconsumer_startup]
           ++ pre ++ [thread_fork f (Z.of_nat m) false; panic msg]
      /\ fork_ok f m = false
      /\ Forall (fun e => exists f' k, e = thread_fork f' k true) pre
      /\ ((forall k, (k < NUM_CONSUMERS)%nat -> fork_ok consumer_entry k = true) ->
          count (is_fork_of consumer_entry) pre = NUM_CONSUMERS /\ f = producer_entry)).
  { subst tr. unfold run_producerconsumer. rewrite Hc, Hp. cbn [negb].
    unfold start_consumer_threads, start_producer_threads.
    destruct (fork_loop_outcome consumer_entry msg_no_consumer fork_ok 0 NUM_CONSUMERS)
      as [[-> Hall]|(m & Hm & Hf & Hall & ->)].
    - destruct Hfail as [(k & Hk & Hkf)|(k & Hk & Hkf)];
        [rewrite Hall in Hkf by lia; discriminate|].
      destruct (fork_loop_fails producer_entry msg_no_producer fork_ok NUM_PRODUCERS k Hk Hkf)
        as (m & Hm & Hf & ->).
      cbn [negb].
      exists (forks consumer_entry NUM_CONSUMERS ++ forks producer_entry m),
        producer_entry, m, msg_no_producer.
      split; [cbn [app]; rewrite <- !app_assoc, app_nil_r; reflexivity|].
      split; [exact Hf|]. split.
      + apply Forall_app. split; apply Forall_forks.
      + intros _. split; [|reflexivity].
        rewrite count_app, !count_fork_of.
        rewrite bool_decide_eq_true_2 by reflexivity.
        rewrite bool_decide_eq_false_2 by discriminate. lia.
    - cbn [negb Nat.add] in *.
      exists (forks consumer_entry m), consumer_entry, m, msg_no_consumer.
      split; [cbn [app]; rewrite <- !app_assoc, app_nil_r; reflexivity|].
      split; [exact Hf|]. split; [apply Forall_forks|].
      intros Hallc. rewrite Hallc in Hf by exact Hm. discriminate. }
  destruct Hshape as (pre & f & m & msg & Htr & Hf & Hpre & Hcons).
  split; [now exists pre, f, m, msg|].
  rewrite Htr.
  repeat split.
  1-5: rewrite !count_app, (count_successful_forks _ pre) by (reflexivity || exact Hpre);
       reflexivity.
  intros Hallc. destruct (Hcons Hallc) as [Hn ->].
  rewrite !count_app, Hn, !count_cons, !count_nil. cbn [is_fork_of]. lia.
Qed.

Lemma fork_failure_panics_witness :
  ((fun _ : semaphore => true) consumer_finished = true
   /\ (fun _ : semaphore => true) producer_finished = true
   /\ exists k, (k < 2)%nat /\ Nat.eqb k 0 = false)
  /\ count is_wait
       (run_producerconsumer 2 5 (fun _ => true)
          (fun f k => match f with consumer_entry => true | producer_entry => Nat.eqb k 0 end))
     = 0%nat
  /\ count (is_fork_of consumer_entry)
       (run_producerconsumer 2 5 (fun _ => true)
          (fun f k => match f with consumer_entry => true | producer_entry => Nat.eqb k 0 end))
     = 5%nat.
Proof.
  assert (Hk : exists k, (k < 2)%nat /\ Nat.eqb k 0 = false)
    by (exists 1%nat; split; [lia | reflexivity]).
  split; [split; [reflexivity | split; [reflexivity | exact Hk]]|].
  destruct (fork_failure_panics 2 5 (fun _ => true)
              (fun f k => match f with consumer_entry => true | producer_entry => Nat.eqb k 0 end)
              eq_refl eq_refl (or_intror Hk)) as (_ & Hw & _ & _ & _ & _ & Hforks).
  split; [exact Hw | apply Hforks; reflexivity].
Defined.

Lemma NoDup_countdown n : NoDup (countdown n).
Proof.
  induction n as [|n IH]; [constructor|].
  cbn [countdown]. constructor; [|exact IH].
  rewrite elem_of_countdown. lia.
Qed.

(** X5: the items of one producer thread: as long as nothing overflows,
    their first fields descend one by one from
    ITEMS_TO_PRODUCE - 1 + 1000 * thread_num to 1 + 1000 * thread_num, in
    the order of the calls, so no two calls of one thread hand over the
    same item. *)
Theorem producer_items_descend (ITEMS_TO_PRODUCE : Z) fuel thread_num :
  1 <= ITEMS_TO_PRODUCE -> 0 <= thread_num ->
  ITEMS_TO_PRODUCE + 1000 * thread_num <= INT_MAX ->
  (Z.to_nat ITEMS_TO_PRODUCE <= fuel)%nat ->
  exists tr,
    producer_thread ITEMS_TO_PRODUCE fuel thread_num = Some tr
    /\ map item1 (produced tr)
       = map (fun k => k + 1000 * thread_num)
           (countdown (Z.to_nat (ITEMS_TO_PRODUCE - 1)))
    /\ NoDup (produced tr).
Proof.
  intros Hitems Htn Hmax Hfuel.
  assert (Hrange : 1 <= ITEMS_TO_PRODUCE <= INT_MAX) by lia.
  eexists. split; [now apply producer_thread_trace|].
  erewrite producer_thread_produced
    by (try apply producer_thread_trace; eassumption).
  split.
  - rewrite map_map. apply map_ext_in. intros k Hk.
    apply list_elem_of_In, elem_of_countdown in Hk.
    rewrite make_item_exact by lia. reflexivity.
  - apply NoDup_fmap_2_strong; [|apply NoDup_countdown].
    intros k1 k2 H1 H2 Heq.
    apply elem_of_countdown in H1. apply elem_of_countdown in H2.
    rewrite !make_item_exact in Heq by lia. injection Heq. lia.
Qed.

Lemma producer_items_descend_witness :
  (1 <= 30 /\ 0 <= 1 /\ 30 + 1000 * 1 <= INT_MAX
   /\ (Z.to_nat 30 <= 30)%nat)
  /\ exists tr,
      producer_thread 30 30 1 = Some tr /\ NoDup (produced tr).
Proof.
  assert (H1 : 1 <= 30) by lia.
  assert (H2 : 0 <= 1) by lia.
  assert (H3 : 30 + 1000 * 1 <= INT_MAX) by (unfold INT_MAX; lia).
  assert (H4 : (Z.to_nat 30 <= 30)%nat) by lia.
  split; [repeat split; assumption|].
  destruct (producer_items_descend 30 30 1 H1 H2 H3 H4) as (tr & Htr & _ & Hnd).
  now exists tr.
Defined.

(** X6: the items of two producer threads: with ITEMS_TO_PRODUCE <= 1001
    no item of one thread is an item of the other, so an item tells which
    thread made it.  The bound is sharp: from ITEMS_TO_PRODUCE = 1002 on,
    the item the thread with the next number hands over last, with first
    field 1 + 1000 * (thread_num + 1), is also handed over by the thread
    [thread_num]. *)
Theorem producer_items_disjoint (ITEMS_TO_PRODUCE : Z) fuel thread_num1 thread_num2 :
  1 <= ITEMS_TO_PRODUCE -> 0 <= thread_num1 < thread_num2 ->
  ITEMS_TO_PRODUCE + 1000 * thread_num2 <= INT_MAX ->
  (Z.to_nat ITEMS_TO_PRODUCE <= fuel)%nat ->
  exists tr1 tr2,
    producer_thread ITEMS_TO_PRODUCE fuel thread_num1 = Some tr1
    /\ producer_thread ITEMS_TO_PRODUCE fuel thread_num2 = Some tr2
    /\ (ITEMS_TO_PRODUCE <= 1001 ->
        forall d, d ∈ produced tr1 -> d ∉ produced tr2)
    /\ (1002 <= ITEMS_TO_PRODUCE -> thread_num2 = thread_num1 + 1 ->
        make_item thread_num2 1 ∈ produced tr1
        /\ make_item thread_num2 1 ∈ produced tr2).
Proof.
  intros Hitems Htn Hmax Hfuel.
  assert (Hrange : 1 <= ITEMS_TO_PRODUCE <= INT_MAX) by lia.
  eexists. eexists.
  split; [now apply producer_thread_trace|].
  split; [now apply producer_thread_trace|].
  erewrite !producer_thread_produced
    by (try apply producer_thread_trace; eassumption).
  split.
  - intros Hsmall d Hd1 Hd2.
    apply list_elem_of_fmap in Hd1 as (k1 & -> & Hk1).
    apply list_elem_of_fmap in Hd2 as (k2 & Heq & Hk2).
    apply elem_of_countdown in Hk1. apply elem_of_countdown in Hk2.
    rewrite !make_item_exact in Heq by lia. injection Heq. lia.
  - intros Hlarge ->. split.
    + apply list_elem_of_fmap. exists 1001. split.
      * rewrite !make_item_exact by lia. f_equal; lia.
      * apply elem_of_countdown. lia.
    + apply list_elem_of_fmap. exists 1. split; [reflexivity|].
      apply elem_of_countdown. lia.
Qed.

Lemma producer_items_disjoint_witness :
  (1 <= 30 /\ 0 <= 0 < 1 /\ 30 + 1000 * 1 <= INT_MAX /\ (Z.to_nat 30 <= 30)%nat)
  /\ exists tr1 tr2,
      producer_thread 30 30 0 = Some tr1
      /\ producer_thread 30 30 1 = Some tr2
      /\ forall d, d ∈ produced tr1 -> d ∉ produced tr2.
Proof.
  assert (H1 : 1 <= 30) by lia.
  assert (H2 : 0 <= 0 < 1) by lia.
  assert (H3 : 30 + 1000 * 1 <= INT_MAX) by (unfold INT_MAX; lia).
  assert (H4 : (Z.to_nat 30 <= 30)%nat) by lia.
  split; [repeat split; try assumption; lia|].
  destruct (producer_items_disjoint 30 30 0 1 H1 H2 H3 H4) as (tr1 & tr2 & Ht1 & Ht2 & Hd & _).
  exists tr1, tr2. split; [exact Ht1|]. split; [exact Ht2|]. apply Hd. lia.
Defined.

Lemma producer_loop_below_zero fuel thread_num items_to_go :
  INT_MIN <= items_to_go <= 0 ->
  (fuel <= Z.to_nat (items_to_go - INT_MIN))%nat ->
  producer_loop fuel thread_num items_to_go = None.
Proof.
  revert items_to_go. induction fuel as [|fuel IH]; intros v Hv Hfuel; [reflexivity|].
  cbn [producer_loop].
  rewrite wrap_int_small by (unfold INT_MIN, INT_MAX in *; lia).
  destruct (Z.eqb_spec (v - 1) 0) as [E|_]; [lia|].
  rewrite IH; [reflexivity | unfold INT_MIN in *; lia | unfold INT_MIN in *; lia].
Qed.

(** X7: the edges of ITEMS_TO_PRODUCE.  With ITEMS_TO_PRODUCE = 1 a
    producer thread hands over nothing: it prints its two messages and
    signals.  With ITEMS_TO_PRODUCE <= 0 it is not idle: the counter starts
    at or below zero and [--items_to_go] moves it away from zero, so the
    loop's test has not ended the loop after ITEMS_TO_PRODUCE + 2^31
    evaluations (all of them before the counter could overflow). *)
Theorem producer_thread_edges (thread_num : Z) :
  (forall fuel, (1 <= fuel)%nat ->
      producer_thread 1 fuel thread_num
      = Some [kprintf msg_producer_started [];
              kprintf msg_producer_finished []; sem_V producer_finished])
  /\ (forall ITEMS_TO_PRODUCE fuel,
         INT_MIN <= ITEMS_TO_PRODUCE <= 0 ->
         (fuel <= Z.to_nat (ITEMS_TO_PRODUCE + 2147483648))%nat ->
         producer_thread ITEMS_TO_PRODUCE fuel thread_num = None).
Proof.
  split.
  - intros [|fuel] Hfuel; [lia | reflexivity].
  - intros ITEMS_TO_PRODUCE fuel Hitems Hfuel. unfold producer_thread.
    rewrite producer_loop_below_zero; [reflexivity | exact Hitems |].
    unfold INT_MIN. lia.
Qed.

(** ** Facts about the running system *)

(** *** Bookkeeping *)

Lemma sum_list_with_insert {A} (f : A -> nat) (l : list A) i x y :
  l !! i = Some x ->
  (sum_list_with f (<[i:=y]> l) + f x = sum_list_with f l + f y)%nat.
Proof.
  revert i. induction l as [|a l IH]; intros [|i] Hl; try discriminate.
  - injection Hl as ->. simpl. lia.
  - simpl in *. specialize (IH i Hl). lia.
Qed.

Lemma sum_list_with_lookup {A} (f : A -> nat) (l : list A) i x :
  l !! i = Some x -> (f x <= sum_list_with f l)%nat.
Proof.
  revert i. induction l as [|a l IH]; intros [|i] Hl; try discriminate.
  - injection Hl as ->. simpl. lia.
  - simpl in *. specialize (IH i Hl). lia.
Qed.

Lemma sum_list_with_bound {A} (f : A -> nat) (l : list A) b :
  (forall x, x ∈ l -> (f x <= b)%nat) ->
  (sum_list_with f l <= length l * b)%nat.
Proof.
  induction l as [|a l IH]; intros Hb; cbn; [lia|].
  assert (f a <= b)%nat by (apply Hb; apply list_elem_of_here).
  assert (sum_list_with f l <= length l * b)%nat
    by (apply IH; intros x Hx; apply Hb; now apply list_elem_of_further).
  lia.
Qed.

(** When every element weighs at most one and the weights add up to the
    length, every element weighs one. *)
Lemma sum_list_with_full {A} (f : A -> nat) (l : list A) :
  (forall x, (f x <= 1)%nat) ->
  (length l <= sum_list_with f l)%nat ->
  forall x, x ∈ l -> f x = 1%nat.
Proof.
  intros Hone. induction l as [|a l IH]; intros Hsum x Hx.
  - now apply elem_of_nil in Hx.
  - cbn in Hsum.
    assert (sum_list_with f l <= length l * 1)%nat
      by (apply sum_list_with_bound; intros; apply Hone).
    pose proof (Hone a).
    apply elem_of_cons in Hx as [->|Hx]; [cbn in *; lia|].
    apply IH; [cbn in *; lia | exact Hx].
Qed.

Lemma sum_list_with_replicate {A} (f : A -> nat) n x :
  sum_list_with f (replicate n x) = (n * f x)%nat.
Proof. induction n as [|n IH]; cbn; [reflexivity | rewrite IH; lia]. Qed.

Lemma sum_list_with_const {A} (f : A -> nat) (l : list A) c :
  (forall x, x ∈ l -> f x = c) -> sum_list_with f l = (length l * c)%nat.
Proof.
  induction l as [|a l IH]; intros Hc; simpl; [reflexivity|].
  rewrite (Hc a) by apply list_elem_of_here.
  rewrite IH; [lia|]. intros x Hx. apply Hc. now apply list_elem_of_further.
Qed.

Lemma sum_list_with_pos {A} (f : A -> nat) (l : list A) :
  (0 < sum_list_with f l)%nat -> exists i x, l !! i = Some x /\ (0 < f x)%nat.
Proof.
  induction l as [|a l IH]; simpl; [lia|]. intros Hpos.
  destruct (Nat.eq_dec (f a) 0%nat) as [Hz|Hnz].
  - destruct IH as (i & x & Hi & Hx); [lia|]. now exists (S i), x.
  - exists 0%nat, a. split; [reflexivity | lia].
Qed.

Lemma sum_list_with_short {A} (f : A -> nat) (l : list A) :
  (sum_list_with f l < length l)%nat -> exists i x, l !! i = Some x /\ f x = 0%nat.
Proof.
  induction l as [|a l IH]; simpl; [lia|]. intros Hlt.
  destruct (Nat.eq_dec (f a) 0%nat) as [Hz|Hnz].
  - now exists 0%nat, a.
  - destruct IH as (i & x & Hi & Hx); [lia|]. now exists (S i), x.
Qed.

Lemma multiplicity_count_occ d l :
  multiplicity d l = count_occ pc_data_eq_dec l d.
Proof.
  unfold multiplicity. induction l as [|x l IH]; simpl; [reflexivity|].
  rewrite IH. destruct (pc_data_eq_dec x d) as [->|Hne].
  - now rewrite bool_decide_eq_true_2.
  - now rewrite bool_decide_eq_false_2.
Qed.

(** Two lists that weigh the same under every weight hold the same items,
    each as often. *)
Lemma permutation_by_weights (l1 l2 : list pc_data) :
  (forall w : pc_data -> nat, sum_list_with w l1 = sum_list_with w l2) ->
  l1 ≡ₚ l2.
Proof.
  intros Hw. apply (Permutation_count_occ pc_data_eq_dec). intros d.
  rewrite <- !multiplicity_count_occ. apply Hw.
Qed.

Lemma multiplicity_zero d l : d ∉ l -> multiplicity d l = 0%nat.
Proof.
  unfold multiplicity. induction l as [|x l IH]; simpl; intros Hd; [reflexivity|].
  rewrite not_elem_of_cons in Hd. destruct Hd as [Hne Hd].
  rewrite bool_decide_eq_false_2 by congruence. now rewrite IH.
Qed.

Lemma elem_of_passed_by_main d tr :
  d ∈ passed_by_main tr <-> (Main, producer_produce d) ∈ tr.
Proof.
  unfold passed_by_main. rewrite list_elem_of_omap. split.
  - intros ([[| |] e] & Hin & Heq); try discriminate.
    destruct e; try discriminate. now injection Heq as ->.
  - intros Hin. now exists (Main, producer_produce d).
Qed.

Lemma occurrences_pos x tr : x ∈ tr <-> (0 < occurrences x tr)%nat.
Proof.
  unfold occurrences. induction tr as [|y tr IH]; simpl.
  - rewrite elem_of_nil. lia.
  - rewrite elem_of_cons, IH. destruct (bool_decide_reflect (y = x)) as [->|Hne].
    + split; [lia | now left].
    + split; [intros [->|H]; [congruence | lia] | intros H; right; lia].
Qed.

Lemma sum_list_with_zero {A} (f : A -> nat) (l : list A) :
  (forall i x, l !! i = Some x -> f x = 0%nat) -> sum_list_with f l = 0%nat.
Proof.
  induction l as [|a l IH]; intros Hz; [reflexivity|]. simpl.
  rewrite (Hz 0%nat a eq_refl), IH; [reflexivity|].
  intros i x Hx. apply (Hz (S i) x Hx).
Qed.

(** Keep the arithmetic of the source folded while states are simplified. *)
Local Arguments Nat.ltb : simpl never.
Local Arguments Nat.modulo : simpl never.
Local Arguments Z.eqb : simpl never.
Local Arguments wrap_int : simpl never.
Local Arguments make_item : simpl never.
Local Arguments loop_test : simpl never.
Local Arguments data_error : simpl never.

(** Turn the tests of the loops into facts [lia] reads. *)
Ltac loop_tests :=
  repeat match goal with
    | H : (_ <? _)%nat = true |- _ => apply Nat.ltb_lt in H
    | H : (_ <? _)%nat = false |- _ => apply Nat.ltb_ge in H
    | H : (_ =? _) = true |- _ => apply Z.eqb_eq in H
    | H : (_ =? _) = false |- _ => apply Z.eqb_neq in H
    end.

(** Split a lookup in an updated list into the updated index and the others. *)
Ltac lookups :=
  intros;
  repeat match goal with
    | H : <[_:=_]> _ !! _ = Some _ |- _ =>
        apply list_lookup_insert_Some in H as [(-> & <- & ?)|(? & ?)]
    end.

(** Decide the comparisons of trace entries. *)
Ltac decides :=
  repeat match goal with
    | |- context [bool_decide ?P] => destruct (bool_decide_reflect P); simplify_eq
    end.

(** A goal stated for every weight, from the hypotheses stated so. *)
Ltac weigh :=
  let w := fresh "w" in
  intros w;
  repeat match goal with
    | H : forall _ : pc_data -> nat, _ |- _ => specialize (H w)
    end.

(** Replace the sum over a list updated at [i] by the sum over the list. *)
Ltac sums :=
  repeat match goal with
    | Hlk : ?l !! ?i = Some ?x |- context [sum_list_with ?f (<[?i:=?y]> ?l)] =>
        let E := fresh "E" in
        let v := fresh "v" in
        pose proof (sum_list_with_insert f l i x y Hlk) as E;
        set (v := sum_list_with f (<[i:=y]> l)) in *; clearbody v;
        cbn in E
    end.

Section Sequencing.

Variable NUM_PRODUCERS : nat.
Variable NUM_CONSUMERS : nat.
Variable ITEMS_TO_PRODUCE : Z.
Variable CONSUMER_BORED_COUNT : Z.
Variable CORE : core_operations.

(** The system and its counters at the constants of this section. *)
Abbreviation step :=
  (step NUM_PRODUCERS NUM_CONSUMERS ITEMS_TO_PRODUCE CONSUMER_BORED_COUNT CORE).
Abbreviation reachable :=
  (reachable NUM_PRODUCERS NUM_CONSUMERS ITEMS_TO_PRODUCE CONSUMER_BORED_COUNT CORE).
Abbreviation waited_producers := (waited_producers NUM_PRODUCERS).
Abbreviation waited_consumers := (waited_consumers NUM_CONSUMERS).
Abbreviation forked_producers := (forked_producers NUM_PRODUCERS).
Abbreviation forked_consumers := (forked_consumers NUM_CONSUMERS).
Abbreviation started_producers := (started_producers NUM_PRODUCERS).
Abbreviation started_consumers := (started_consumers NUM_CONSUMERS).
Abbreviation index_in_range := (index_in_range NUM_PRODUCERS NUM_CONSUMERS).
Abbreviation sequencing := (sequencing NUM_PRODUCERS NUM_CONSUMERS).

Lemma sequencing_initial :
  sequencing (initial NUM_PRODUCERS NUM_CONSUMERS CORE).
Proof.
  constructor; cbn.
  - apply length_replicate.
  - apply length_replicate.
  - exact Logic.I.
  - rewrite sum_list_with_replicate. cbn. lia.
  - rewrite sum_list_with_replicate. cbn. lia.
  - intros i th _ Hth. now apply lookup_replicate in Hth as [-> _].
  - intros i th _ Hth. now apply lookup_replicate in Hth as [-> _].
  - intros i th Hi. lia.
  - intros i th Hi. lia.
  - intros i th Hth. now apply lookup_replicate in Hth as [-> _].
  - intros i th Hth. now apply lookup_replicate in Hth as [-> _].
  - reflexivity.
  - reflexivity.
Qed.

Lemma sequencing_step a s s' :
  sequencing s -> step a s = Some s' -> sequencing s'.
Proof.
  intros Hinv Hstep. unfold step in Hstep.
  destruct (is_panicked (main s)) eqn:Hnp; [discriminate|].
  destruct s as [m ps cs [pf cf c] tr]. destruct Hinv as [H1 H2 H3 H4 H5 H6 H7 Hsp Hsc H8 H9 H10 H11].
  cbn in *.
  destruct a as [[|i|j]|].
  - unfold main_step in Hstep. cbn in Hstep.
    destruct m as [[|]| | | | | | | | | [|] | |]; cbn in Hstep; repeat case_match;
      simplify_eq; loop_tests.
    all: try (assert (Hlk : cs !! i = Some not_started)
               by (destruct (lookup_lt_is_Some_2 cs i) as [th Hth]; [lia|];
                   rewrite Hth; f_equal; apply (H7 i th); [cbn; lia | exact Hth])).
    all: try (assert (Hlk : ps !! i = Some not_started)
               by (destruct (lookup_lt_is_Some_2 ps i) as [th Hth]; [lia|];
                   rewrite Hth; f_equal; apply (H6 i th); [cbn; lia | exact Hth])).
    all: constructor; cbn in *; rewrite ?length_insert; sums;
      try lia; try assumption; try discriminate.
    all: try (rewrite sum_list_with_zero; [lia|]; intros k th Hth;
              first [rewrite (H6 k th) | rewrite (H7 k th)];
              [reflexivity | lia | exact Hth]).
    all: lookups; decides;
      solve [ lia
            | discriminate
            | eapply H6; [|eassumption]; lia
            | eapply H7; [|eassumption]; lia
            | eapply Hsp; [|eassumption]; lia
            | eapply Hsc; [|eassumption]; lia
            | erewrite H8 by eassumption; reflexivity
            | erewrite H9 by eassumption; reflexivity
            | exfalso; match goal with H : _ !! _ = Some _ |- _ =>
                apply lookup_lt_Some in H; lia end ].
  - destruct (ps !! i) as [[|tn pc]|] eqn:Hlk; try discriminate.
    destruct (producer_step ITEMS_TO_PRODUCE CORE tn pc (mk_shared pf cf c))
      as [[[pc' sh] evs]|] eqn:Hpc; [|discriminate].
    injection Hstep as <-.
    assert (Hm : forall k th, (forked_producers m <= k)%nat ->
                 <[i:=running tn pc']> ps !! k = Some th -> th = not_started).
    { lookups; [|eapply H6; eassumption]. discriminate (H6 _ _ ltac:(eassumption) Hlk). }
    destruct pc; cbn in Hpc; repeat case_match; simplify_eq.
    all: constructor; cbn in *; rewrite ?length_insert; sums;
      try lia; try assumption; try discriminate.
    all: lookups; decides;
      solve [ lia
            | discriminate
            | eapply Hsp; eassumption
            | eapply Hsc; eassumption
            | erewrite H8 by eassumption; reflexivity
            | erewrite H9 by eassumption; reflexivity ].
  - destruct (cs !! j) as [[|tn pc]|] eqn:Hlk; try discriminate.
    destruct (consumer_step CONSUMER_BORED_COUNT CORE pc (mk_shared pf cf c))
      as [[[pc' sh] evs]|] eqn:Hpc; [|discriminate].
    injection Hstep as <-.
    assert (Hm : forall k th, (forked_consumers m <= k)%nat ->
                 <[j:=running tn pc']> cs !! k = Some th -> th = not_started).
    { lookups; [|eapply H7; eassumption]. discriminate (H7 _ _ ltac:(eassumption) Hlk). }
    destruct pc; cbn in Hpc; repeat case_match; simplify_eq.
    all: constructor; cbn in *; rewrite ?length_insert; sums;
      try lia; try assumption; try discriminate.
    all: lookups; decides;
      solve [ lia
            | discriminate
            | eapply Hsp; eassumption
            | eapply Hsc; eassumption
            | erewrite H8 by eassumption; reflexivity
            | erewrite H9 by eassumption; reflexivity ].
  - unfold main_fail in Hstep. cbn in Hstep.
    destruct m as [[|]| | | | | | | | | [|] | |]; cbn in Hstep; repeat case_match;
      simplify_eq; loop_tests.
    all: constructor; cbn in *; try lia; try assumption; try discriminate.
    all: lookups; solve [ lia | exfalso;
      match goal with H : _ !! _ = Some _ |- _ => apply lookup_lt_Some in H; lia end ].
Qed.

Lemma sequencing_reachable s : reachable s -> sequencing s.
Proof.
  induction 1 as [|a s s' _ IH Hstep];
    [apply sequencing_initial | exact (sequencing_step a s s' IH Hstep)].
Qed.

Lemma reachable_first_enabled acts s s' :
  reachable s ->
  first_enabled NUM_PRODUCERS NUM_CONSUMERS ITEMS_TO_PRODUCE CONSUMER_BORED_COUNT
    CORE acts s = Some s' ->
  reachable s'.
Proof.
  intros Hs. induction acts as [|a acts IH]; cbn; [discriminate|].
  destruct (step a s) as [s1|] eqn:Hstep; [|exact IH].
  intros [= <-]. exact (reachable_step _ _ _ _ _ a s s1 Hs Hstep).
Qed.

Lemma reachable_drive fuel s :
  reachable s ->
  reachable (drive NUM_PRODUCERS NUM_CONSUMERS ITEMS_TO_PRODUCE
               CONSUMER_BORED_COUNT CORE fuel s).
Proof.
  revert s. induction fuel as [|fuel IH]; intros s Hs; cbn; [exact Hs|].
  destruct (first_enabled _ _ _ _ _ _ s) as [s'|] eqn:Hfirst; [|exact Hs].
  apply IH. exact (reachable_first_enabled _ s s' Hs Hfirst).
Qed.

Lemma reachable_run_schedule sched s s' :
  reachable s ->
  run_schedule NUM_PRODUCERS NUM_CONSUMERS ITEMS_TO_PRODUCE CONSUMER_BORED_COUNT
    CORE sched s = Some s' ->
  reachable s'.
Proof.
  revert s. induction sched as [|a sched IH]; intros s Hs; cbn.
  - now intros [= <-].
  - destruct (step a s) as [s1|] eqn:Hstep; [|discriminate].
    apply IH. exact (reachable_step _ _ _ _ _ a s s1 Hs Hstep).
Qed.

Lemma producers_gone s th :
  sequencing s -> closing (main s) = true -> th ∈ producers s ->
  exists thread_num, th = running thread_num producer_exited.
Proof.
  intros Hseq Hc Hth.
  pose proof (seq_producer_finished _ _ s Hseq) as Hpf.
  pose proof (seq_producers _ _ s Hseq) as Hlen.
  pose proof (seq_index _ _ s Hseq) as Hidx.
  assert (Hw : waited_producers (main s) = NUM_PRODUCERS)
    by (destruct (main s); try discriminate; reflexivity).
  assert (Hdone : producer_done th = 1%nat).
  { apply (sum_list_with_full producer_done (producers s)); [|lia|exact Hth].
    intros [|tn [| | | |]]; cbn; lia. }
  destruct th as [|tn []]; try discriminate. now exists tn.
Qed.

Lemma consumers_gone s th :
  sequencing s -> shutting_down (main s) = true -> th ∈ consumers s ->
  exists thread_num, th = running thread_num consumer_exited.
Proof.
  intros Hseq Hc Hth.
  pose proof (seq_consumer_finished _ _ s Hseq) as Hcf.
  pose proof (seq_consumers _ _ s Hseq) as Hlen.
  assert (Hw : waited_consumers (main s) = NUM_CONSUMERS)
    by (destruct (main s); try discriminate; reflexivity).
  assert (Hdone : consumer_done th = 1%nat).
  { apply (sum_list_with_full consumer_done (consumers s)); [|lia|exact Hth].
    intros [|tn [| | | |]]; cbn; lia. }
  destruct th as [|tn []]; try discriminate. now exists tn.
Qed.

(** C6: whatever the core does and however the threads are scheduled, in
    every state a run can reach, once the main thread has left
    [wait_for_producer_threads] (or the trace holds a call of
    [producer_produce] by the main thread, the first step of closing),
    every one of the NUM_PRODUCERS producer threads is gone and has
    signalled [producer_finished] exactly once; and once the main thread
    has left [stop_consumer_threads] (or the trace holds its call of
    [producerconsumer_shutdown]), every one of the NUM_CONSUMERS consumer
    threads is gone and has signalled [consumer_finished] exactly once. *)
Theorem shutdown_sequencing s :
  reachable s ->
  ((closing (main s) = true \/ exists d, (Main, producer_produce d) ∈ trace s) ->
   forall i, (i < NUM_PRODUCERS)%nat ->
     (exists thread_num, producers s !! i = Some (running thread_num producer_exited))
     /\ occurrences (Producer i, sem_V producer_finished) (trace s) = 1%nat)
  /\ ((shutting_down (main s) = true
       \/ (Main, producerconsumer_shutdown) ∈ trace s) ->
      forall j, (j < NUM_CONSUMERS)%nat ->
        (exists thread_num, consumers s !! j = Some (running thread_num consumer_exited))
        /\ occurrences (Consumer j, sem_V consumer_finished) (trace s) = 1%nat).
Proof.
  intros Hs. destruct (sequencing_reachable s Hs)
    as [H1 H2 H3 H4 H5 H6 H7 _ _ H8 H9 H10 H11].
  split.
  - intros Hclosing i Hi.
    assert (Hc : closing (main s) = true).
    { destruct Hclosing as [Hc|[d Hd]]; [exact Hc|].
      destruct (closing (main s)) eqn:E; [reflexivity|].
      apply elem_of_passed_by_main in Hd. rewrite H10 in Hd by reflexivity.
      now apply elem_of_nil in Hd. }
    assert (Hw : waited_producers (main s) = NUM_PRODUCERS)
      by (destruct (main s); try discriminate; try reflexivity;
          cbn in H3, Hc; discriminate).
    destruct (lookup_lt_is_Some_2 (producers s) i) as [th Hth]; [lia|].
    assert (Hdone : producer_done th = 1%nat).
    { apply (sum_list_with_full producer_done (producers s)).
      - intros [|tn [| | | |]]; cbn; lia.
      - lia.
      - apply list_elem_of_lookup. now exists i. }
    rewrite (H8 i th Hth). split; [|exact Hdone].
    destruct th as [|tn []]; try discriminate. now exists tn.
  - intros Hshut j Hj.
    assert (Hc : shutting_down (main s) = true).
    { destruct Hshut as [Hc|Hd]; [exact Hc|].
      destruct (shutting_down (main s)) eqn:E; [reflexivity|].
      apply occurrences_pos in Hd. rewrite H11 in Hd by reflexivity. lia. }
    assert (Hw : waited_consumers (main s) = NUM_CONSUMERS)
      by (destruct (main s); try discriminate; reflexivity).
    destruct (lookup_lt_is_Some_2 (consumers s) j) as [th Hth]; [lia|].
    assert (Hdone : consumer_done th = 1%nat).
    { apply (sum_list_with_full consumer_done (consumers s)).
      - intros [|tn [| | | |]]; cbn; lia.
      - lia.
      - apply list_elem_of_lookup. now exists j. }
    rewrite (H9 j th Hth). split; [|exact Hdone].
    destruct th as [|tn []]; try discriminate. now exists tn.
Qed.

End Sequencing.

Lemma configured_run_reachable :
  reachable Configured.NUM_PRODUCERS Configured.NUM_CONSUMERS
    Configured.ITEMS_TO_PRODUCE Configured.CONSUMER_BORED_COUNT (bounded_buffer 10)
    configured_run.
Proof. apply reachable_drive. apply reachable_initial. Qed.

Lemma shutdown_sequencing_witness :
  main configured_run = main_returned
  /\ forall i, (i < Configured.NUM_PRODUCERS)%nat ->
       (exists thread_num,
           producers configured_run !! i = Some (running thread_num producer_exited))
       /\ occurrences (Producer i, sem_V producer_finished) (trace configured_run)
          = 1%nat.
Proof.
  split; [vm_compute; reflexivity|].
  apply (shutdown_sequencing Configured.NUM_PRODUCERS Configured.NUM_CONSUMERS
           Configured.ITEMS_TO_PRODUCE Configured.CONSUMER_BORED_COUNT
           (bounded_buffer 10) configured_run configured_run_reachable).
  left. vm_compute. reflexivity.
Defined.


(** *** The ring of slots as a queue *)

Section Ring.

Variable CAPACITY : nat.
Hypothesis capacity_positive : (0 < CAPACITY)%nat.

Abbreviation ring_rep := (ring_rep CAPACITY).

Lemma mod_add_inj h a b :
  (a < CAPACITY)%nat -> (b < CAPACITY)%nat ->
  ((h + a) mod CAPACITY = (h + b) mod CAPACITY)%nat -> a = b.
Proof.
  intros Ha Hb Heq.
  pose proof (Nat.div_mod_eq (h + a) CAPACITY) as Da.
  pose proof (Nat.div_mod_eq (h + b) CAPACITY) as Db.
  rewrite Heq in Da.
  pose proof (Nat.mod_upper_bound (h + b) CAPACITY ltac:(lia)) as Hr.
  set (qa := ((h + a) / CAPACITY)%nat) in *.
  set (qb := ((h + b) / CAPACITY)%nat) in *.
  set (r := ((h + b) mod CAPACITY)%nat) in *.
  clearbody qa qb r.
  destruct (Nat.lt_trichotomy qa qb) as [Hlt|[->|Hgt]]; [nia | lia | nia].
Qed.

Lemma ring_rep_startup : ring_rep (replicate CAPACITY Empty) 0 0 [].
Proof.
  unfold ring_rep. rewrite length_replicate. cbn.
  repeat split; try lia.
  - rewrite Nat.Div0.mod_0_l. reflexivity.
  - intros k Hk. rewrite Nat.mod_small by lia.
    now rewrite lookup_replicate_2 by lia.
Qed.

(** Writing at the tail appends to the queue. *)
Lemma ring_rep_write sl hd tl q d :
  ring_rep sl hd tl q -> (length q < CAPACITY)%nat ->
  ring_rep (<[tl := Occupied d]> sl) hd ((tl + 1) mod CAPACITY)%nat (q ++ [d]).
Proof.
  intros (Hlen & Hhd & Hq & -> & Hsl) Hfree. unfold ring_rep.
  rewrite length_insert, length_app. cbn [length].
  repeat split; try lia.
  - rewrite Nat.Div0.add_mod_idemp_l. f_equal. lia.
  - intros k Hk.
    destruct (Nat.eq_dec k (length q)) as [->|Hne].
    + rewrite list_lookup_insert_eq
        by (rewrite Hlen; apply Nat.mod_upper_bound; lia).
      rewrite lookup_app_r by lia. now rewrite Nat.sub_diag.
    + rewrite list_lookup_insert_ne
        by (intros Heq; apply Hne; symmetry; eapply mod_add_inj; eassumption).
      rewrite Hsl by exact Hk.
      destruct (Nat.lt_ge_cases k (length q)) as [Hlt|Hge].
      * now rewrite lookup_app_l by exact Hlt.
      * rewrite (lookup_ge_None_2 q k) by exact Hge.
        rewrite lookup_ge_None_2; [reflexivity|].
        rewrite length_app. cbn. lia.
Qed.

(** The slot at the head holds the first item of the queue; taking it
    leaves the rest. *)
Lemma ring_rep_read sl hd tl d q :
  ring_rep sl hd tl (d :: q) ->
  sl !! hd = Some (Occupied d)
  /\ ring_rep (<[hd := Empty]> sl) ((hd + 1) mod CAPACITY)%nat tl q.
Proof.
  intros (Hlen & Hhd & Hq & -> & Hsl). cbn [length] in *. split.
  - specialize (Hsl 0%nat ltac:(lia)).
    rewrite Nat.add_0_r, Nat.mod_small in Hsl by lia. exact Hsl.
  - unfold ring_rep. rewrite length_insert.
    repeat split; try lia.
    + apply Nat.mod_upper_bound. lia.
    + rewrite Nat.Div0.add_mod_idemp_l. f_equal. lia.
    + intros k Hk. rewrite Nat.Div0.add_mod_idemp_l.
      replace (hd + 1 + k)%nat with (hd + S k)%nat by lia.
      destruct (Nat.eq_dec (S k) CAPACITY) as [Hlast|Hnot].
      * rewrite Hlast.
        replace (hd + CAPACITY)%nat with (hd + 1 * CAPACITY)%nat by lia.
        rewrite Nat.Div0.mod_add, Nat.mod_small by lia.
        rewrite list_lookup_insert_eq by lia.
        now rewrite (lookup_ge_None_2 q k) by lia.
      * rewrite list_lookup_insert_ne.
        -- rewrite Hsl by lia. reflexivity.
        -- intros Heq.
           assert (0 = S k)%nat; [|lia].
           apply (mod_add_inj hd); [lia | lia |].
           rewrite Nat.add_0_r, Nat.mod_small by lia. exact Heq.
Qed.

(** A ring never holds more than CAPACITY items. *)
Lemma ring_rep_bound sl hd tl q :
  ring_rep sl hd tl q -> (length q <= CAPACITY)%nat.
Proof. now intros (_ & _ & Hq & _). Qed.

End Ring.

Section Invariant.

Variable NUM_PRODUCERS : nat.
Variable NUM_CONSUMERS : nat.
Variable ITEMS_TO_PRODUCE : Z.
Variable CONSUMER_BORED_COUNT : Z.
Variable CAPACITY : nat.

(** The system and its invariant at the constants of this section. *)
Abbreviation step :=
  (step NUM_PRODUCERS NUM_CONSUMERS ITEMS_TO_PRODUCE CONSUMER_BORED_COUNT
     (bounded_buffer CAPACITY)).
Abbreviation reachable :=
  (reachable NUM_PRODUCERS NUM_CONSUMERS ITEMS_TO_PRODUCE CONSUMER_BORED_COUNT
     (bounded_buffer CAPACITY)).
Abbreviation stuck :=
  (stuck NUM_PRODUCERS NUM_CONSUMERS ITEMS_TO_PRODUCE CONSUMER_BORED_COUNT
     (bounded_buffer CAPACITY)).
Abbreviation sequencing := (sequencing NUM_PRODUCERS NUM_CONSUMERS).
Abbreviation producer_passed := (producer_passed ITEMS_TO_PRODUCE).
Abbreviation main_passed := (main_passed NUM_CONSUMERS).
Abbreviation main_ok := (main_ok NUM_CONSUMERS).
Abbreviation producer_ok := (producer_ok ITEMS_TO_PRODUCE).
Abbreviation consumer_ok := (consumer_ok CONSUMER_BORED_COUNT).
Abbreviation producer_steps := (producer_steps ITEMS_TO_PRODUCE).
Abbreviation consumer_steps := (consumer_steps CONSUMER_BORED_COUNT).
Abbreviation main_steps := (main_steps NUM_PRODUCERS NUM_CONSUMERS).
Abbreviation steps_left :=
  (steps_left NUM_PRODUCERS NUM_CONSUMERS ITEMS_TO_PRODUCE CONSUMER_BORED_COUNT).
Abbreviation inv :=
  (inv NUM_PRODUCERS NUM_CONSUMERS ITEMS_TO_PRODUCE CONSUMER_BORED_COUNT CAPACITY).

(** The buffer has room for an item; every producer has something to
    count down from, and its items are built without overflow; the
    producers together submit fewer items than it takes to bore a
    consumer. *)
Hypothesis capacity_positive : (0 < CAPACITY)%nat.
Hypothesis items_positive : 1 <= ITEMS_TO_PRODUCE.
Hypothesis items_fit : ITEMS_TO_PRODUCE + 1000 * Z.of_nat NUM_PRODUCERS <= INT_MAX.
Hypothesis never_bored :
  Z.of_nat NUM_PRODUCERS * (ITEMS_TO_PRODUCE - 1) < CONSUMER_BORED_COUNT <= INT_MAX.

Local Arguments eos : simpl never.
Local Arguments real : simpl never.

Lemma eos_sentinel : eos (mk_pc_data 0 0) = 1%nat.
Proof. reflexivity. Qed.

Lemma real_sentinel : real (mk_pc_data 0 0) = 0%nat.
Proof. reflexivity. Qed.

Lemma eos_real d : (eos d + real d = 1)%nat.
Proof. unfold eos, real. destruct (loop_test d); reflexivity. Qed.

Lemma make_item_real i v :
  (i < NUM_PRODUCERS)%nat -> 1 <= v < ITEMS_TO_PRODUCE ->
  loop_test (make_item (Z.of_nat i) v) = true.
Proof.
  intros Hi Hv. rewrite make_item_exact by lia.
  unfold loop_test. cbn [item1 item2].
  destruct (Z.eqb_spec (v + 1000 * Z.of_nat i) 0) as [E|_]; [lia|].
  destruct (Z.eqb_spec (v + 1000 * Z.of_nat i + 1) 0) as [E|_]; [lia|].
  reflexivity.
Qed.

Lemma sum_list_with_repeat (w : pc_data -> nat) d n :
  sum_list_with w (repeat d n) = (n * w d)%nat.
Proof. induction n as [|n IH]; cbn; [reflexivity | rewrite IH; lia]. Qed.

Lemma sum_list_with_le_length (w : pc_data -> nat) l :
  (forall d, (w d <= 1)%nat) -> (sum_list_with w l <= length l)%nat.
Proof.
  intros Hw. induction l as [|d l IH]; cbn; [lia|]. specialize (Hw d). lia.
Qed.

Lemma sum_list_with_one (l : list pc_data) :
  sum_list_with (fun _ => 1%nat) l = length l.
Proof. induction l as [|d l IH]; cbn; [reflexivity | now rewrite IH]. Qed.

Lemma reals_first_snoc_eos q d :
  reals_first q -> real d = 0%nat -> reals_first (q ++ [d]).
Proof.
  intros Hq Hd. induction q as [|x q IH]; cbn in *.
  - split; [reflexivity | exact Logic.I].
  - destruct Hq as [Hx Hq]. split; [|now apply IH].
    intros Hex. rewrite sum_list_with_app. cbn. rewrite (Hx Hex). lia.
Qed.

Lemma reals_first_snoc_real q d :
  sum_list_with eos q = 0%nat -> reals_first (q ++ [d]).
Proof.
  induction q as [|x q IH]; cbn; intros Hq.
  - split; [reflexivity | exact Logic.I].
  - split; [intros Hex; lia | apply IH; lia].
Qed.

Lemma producer_passed_bound i th :
  producer_ok i th -> (producer_passed th <= Z.to_nat (ITEMS_TO_PRODUCE - 1))%nat.
Proof.
  destruct th as [|tn [|v|v pc| |]]; cbn; intros Hok; lia.
Qed.

Lemma inv_initial : inv (initial NUM_PRODUCERS NUM_CONSUMERS (bounded_buffer CAPACITY)) [].
Proof.
  constructor; cbn.
  - apply sequencing_initial.
  - exact Logic.I.
  - intros i th Hth. now apply lookup_replicate in Hth as [-> _].
  - intros i th Hth. now apply lookup_replicate in Hth as [-> _].
  - now apply ring_rep_startup.
  - rewrite !sum_list_with_replicate. cbn. lia.
  - rewrite !sum_list_with_replicate. cbn. lia.
  - rewrite !sum_list_with_replicate. cbn. lia.
  - rewrite !sum_list_with_replicate. cbn. lia.
  - reflexivity.
  - reflexivity.
  - intros w. rewrite !sum_list_with_replicate. cbn. lia.
  - rewrite !sum_list_with_replicate. cbn. lia.
  - intros j th Hth. now apply lookup_replicate in Hth as [-> _].
  - rewrite !sum_list_with_replicate. cbn. lia.
  - exact Logic.I.
  - rewrite !sum_list_with_replicate. cbn. lia.
Qed.

(** Before the first fork the queue is empty. *)
Lemma inv_no_thread s q :
  inv s q ->
  (forall i th, producers s !! i = Some th -> th = not_started) ->
  main_passed (main s) = 0%nat ->
  q = [].
Proof.
  intros Hinv Hps Hm.
  pose proof (inv_conservation _ _ _ _ _ s q Hinv (fun _ => 1%nat)) as Hcons.
  pose proof (inv_passed _ _ _ _ _ s q Hinv) as Hpassed.
  pose proof (inv_passed_main _ _ _ _ _ s q Hinv) as Hpmain.
  rewrite !sum_list_with_one in Hcons.
  rewrite (sum_list_with_zero producer_passed) in Hpassed
    by (intros i th Hth; now rewrite (Hps i th Hth)).
  rewrite Hpmain, Hpassed, repeat_length, Hm in Hcons.
  apply length_zero_iff_nil. lia.
Qed.

Lemma inv_step_main s s' q :
  inv s q -> main_step NUM_PRODUCERS NUM_CONSUMERS (bounded_buffer CAPACITY) s = Some s' ->
  sequencing s' -> exists q', inv s' q'.
Proof.
  intros Hinv Hstep Hseq'.
  destruct s as [m ps cs [pf cf [sl hd tl av cap lk]] tr].
  pose proof eos_sentinel as Hes. pose proof real_sentinel as Hrs.
  unfold main_step in Hstep. cbn in Hstep.
  destruct m as [[|]| | | | | | i pc | | | [|] | |]; cbn in Hstep;
    try destruct pc; cbn in Hstep; repeat case_match; simplify_eq; loop_tests.
  all: pose proof Hinv as Hinv0.
  all: destruct Hinv as [Hseq Hmain Hps Hcs Hring Hcap Havail Hlock Hpassed Hpreal
                      Hpmain Hcons Heos Heach Hreals Hfirst Hdrained]; cbn in *.
  all: try assert (Hlk1 : ((if lk then 1 else 0) <= 1)%nat) by (destruct lk; lia).
  all: pose proof (seq_not_started_producers _ _ _ Hseq) as Hnp;
    pose proof (seq_not_started_consumers _ _ _ Hseq) as Hnc;
    pose proof (seq_producers _ _ _ Hseq) as Hlp;
    pose proof (seq_consumers _ _ _ Hseq) as Hlc; cbn in Hnp, Hnc, Hlp, Hlc.
  all: try (exists q; constructor; cbn in *; sums;
            try assumption; try lia;
            try (weigh; cbn in *; sums; lia); fail).
  - (* producerconsumer_startup *)
    assert (q = []) as ->.
    { apply (inv_no_thread _ _ Hinv0); [|reflexivity].
      intros i th Hth. apply (Hnp i th); [lia | exact Hth]. }
    assert (Hzp : forall f, (f not_started = 0)%nat -> sum_list_with f ps = 0%nat).
    { intros f Hf. apply sum_list_with_zero. intros i th Hth.
      now rewrite (Hnp i th ltac:(lia) Hth). }
    assert (Hzc : forall f, (f not_started = 0)%nat -> sum_list_with f cs = 0%nat).
    { intros f Hf. apply sum_list_with_zero. intros i th Hth.
      now rewrite (Hnc i th ltac:(lia) Hth). }
    exists []. constructor; cbn in *; try assumption; try lia.
    + now apply ring_rep_startup.
    + rewrite !Hzp, !Hzc by reflexivity. lia.
    + rewrite !Hzp, !Hzc by reflexivity. lia.
  - (* thread_fork of a consumer *)
    assert (Hlk : cs !! i = Some not_started).
    { destruct (lookup_lt_is_Some_2 cs i) as [th Hth]; [lia|].
      rewrite Hth. f_equal. apply (Hnc i th); [lia | exact Hth]. }
    exists q; constructor; cbn in *; sums; try assumption; try lia;
      try (weigh; cbn in *; sums; lia).
    + lookups; [exact Logic.I | eapply Hcs; eassumption].
    + lookups; [now rewrite (Heach _ _ Hlk) | eapply Heach; eassumption].
  - (* thread_fork of a producer *)
    assert (Hlk : ps !! i = Some not_started).
    { destruct (lookup_lt_is_Some_2 ps i) as [th Hth]; [lia|].
      rewrite Hth. f_equal. apply (Hnp i th); [lia | exact Hth]. }
    exists q; constructor; cbn in *; sums; try assumption; try lia;
      try (weigh; cbn in *; sums; lia).
    lookups; [split; [reflexivity | exact Logic.I] | eapply Hps; eassumption].
  - (* the main thread hands over a sentinel *)
    exists q; constructor; cbn in *; sums; try assumption; try lia;
      try (weigh; cbn in *; sums; lia).
    now rewrite Hpmain.
  - (* the last sentinel is in *)
    assert (i = NUM_CONSUMERS) as -> by lia.
    exists q; constructor; cbn in *; sums; try assumption; try lia;
      try (weigh; cbn in *; sums; lia).
  - (* the main thread writes its sentinel *)
    exists (q ++ [mk_pc_data 0 0]).
    constructor; cbn in *; rewrite ?length_app, ?sum_list_with_app; cbn;
      try assumption; try lia.
    + apply ring_rep_write; [exact capacity_positive | exact Hring | lia].
    + weigh. rewrite sum_list_with_app. cbn. lia.
    + now apply reals_first_snoc_eos.
Qed.

Lemma sum_list_with_missing {A} (f : A -> nat) (l : list A) i x :
  (forall y, (f y <= 1)%nat) -> l !! i = Some x -> f x = 0%nat ->
  (sum_list_with f l < length l)%nat.
Proof.
  intros Hone. revert i. induction l as [|a l IH]; intros [|i] Hl Hx; try discriminate.
  - injection Hl as ->. simpl.
    assert (sum_list_with f l <= length l * 1)%nat
      by (apply sum_list_with_bound; intros; apply Hone).
    lia.
  - simpl in *. specialize (IH i Hl Hx). specialize (Hone a). lia.
Qed.

(** While some producer thread is still there, the stream is open: the
    main thread has handed over no sentinel, and no item that ends a
    consumer's loop is anywhere. *)
Lemma inv_open s q i th :
  inv s q -> producers s !! i = Some th -> producer_done th = 0%nat ->
  main_passed (main s) = 0%nat
  /\ sum_list_with eos q = 0%nat
  /\ sum_list_with eos (consumed (trace s)) = 0%nat
  /\ sum_list_with (consumer_call (consume_hand eos)) (consumers s) = 0%nat.
Proof.
  intros Hinv Hth Hdone.
  pose proof (inv_sequencing _ _ _ _ _ s q Hinv) as Hseq.
  pose proof (seq_producer_finished _ _ _ Hseq) as Hpf.
  pose proof (seq_producers _ _ _ Hseq) as Hlen.
  pose proof (seq_index _ _ _ Hseq) as Hidx.
  assert (Hlt : (sum_list_with producer_done (producers s) < NUM_PRODUCERS)%nat).
  { rewrite <- Hlen. apply (sum_list_with_missing producer_done _ i th); try assumption.
    intros [|tn []]; cbn; lia. }
  assert (Hm : main_passed (main s) = 0%nat).
  { pose proof (inv_main _ _ _ _ _ s q Hinv) as Hmain.
    destruct (main s); cbn in *; try reflexivity; lia. }
  split; [exact Hm|].
  pose proof (inv_conservation _ _ _ _ _ s q Hinv eos) as Hcons.
  rewrite (inv_passed_real _ _ _ _ _ s q Hinv), (inv_passed_main _ _ _ _ _ s q Hinv), Hm in Hcons.
  cbn in Hcons. lia.
Qed.

(** No consumer has accepted more items than the producers submit. *)
Lemma inv_reals_bound s q j th :
  inv s q -> consumers s !! j = Some th ->
  Z.of_nat (consumer_reals th) <= Z.of_nat NUM_PRODUCERS * (ITEMS_TO_PRODUCE - 1).
Proof.
  intros Hinv Hth.
  pose proof (sum_list_with_lookup consumer_reals _ j th Hth) as H1.
  pose proof (inv_reals _ _ _ _ _ s q Hinv) as H2.
  pose proof (inv_conservation _ _ _ _ _ s q Hinv real) as H3.
  pose proof (inv_passed _ _ _ _ _ s q Hinv) as H4.
  pose proof (sum_list_with_le_length real (passed_by_producers (trace s))) as H5.
  rewrite (inv_passed_main _ _ _ _ _ s q Hinv), sum_list_with_repeat in H3.
  unfold sentinel in H3. rewrite real_sentinel in H3.
  assert (H6 : (sum_list_with producer_passed (producers s)
                <= length (producers s) * Z.to_nat (ITEMS_TO_PRODUCE - 1))%nat).
  { apply sum_list_with_bound. intros x Hx.
    apply list_elem_of_lookup in Hx as [i Hi].
    apply (producer_passed_bound i). exact (inv_producers _ _ _ _ _ s q Hinv i x Hi). }
  rewrite (seq_producers _ _ _ (inv_sequencing _ _ _ _ _ s q Hinv)) in H6.
  specialize (H5 ltac:(intros d; unfold real; destruct (loop_test d); lia)).
  nia.
Qed.

Lemma inv_step_producer s q i thread_num pc pc' sh evs :
  inv s q ->
  producers s !! i = Some (running thread_num pc) ->
  producer_step ITEMS_TO_PRODUCE (bounded_buffer CAPACITY) thread_num pc (mem s) = Some (pc', sh, evs) ->
  sequencing (mk_state (main s) (<[i := running thread_num pc']> (producers s))
                (consumers s) sh (record (Producer i) evs (trace s))) ->
  exists q',
    inv (mk_state (main s) (<[i := running thread_num pc']> (producers s))
           (consumers s) sh (record (Producer i) evs (trace s))) q'.
Proof.
  intros Hinv Hlk Hstep Hseq'.
  pose proof (inv_producers _ _ _ _ _ s q Hinv i _ Hlk) as Hok.
  pose proof (lookup_lt_Some _ _ _ Hlk) as Hi.
  rewrite (seq_producers _ _ _ (inv_sequencing _ _ _ _ _ s q Hinv)) in Hi.
  destruct s as [m ps cs [pf cf [sl hd tl av cap lk]] tr].
  cbn in Hlk, Hstep, Hok, Hseq' |- *. destruct Hok as [-> Hok].
  destruct pc as [|v|v ph| |]; [| |destruct ph| |]; cbn in Hstep.
  all: try rewrite (wrap_int_small (v - 1)) in Hstep
      by (unfold INT_MIN, INT_MAX in *; lia).
  all: repeat case_match; simplify_eq; loop_tests.
  all: try (pose proof (make_item_real i (v - 1) Hi ltac:(lia)) as Hreal;
            assert (Heos0 : eos (make_item (Z.of_nat i) (v - 1)) = 0%nat)
              by (unfold eos; now rewrite Hreal)).
  all: pose proof Hinv as Hinv0.
  all: destruct Hinv as [Hseq Hmain Hps Hcs Hring Hcap Havail Hlock Hpassed Hpreal
                      Hpmain Hcons Heos Heach Hreals Hfirst Hdrained]; cbn in *.
  all: try assert (Hlk1 : ((if lk then 1 else 0) <= 1)%nat) by (destruct lk; lia).
  all: try (exists q; constructor; cbn in *; sums;
            try assumption; try lia;
            try (weigh; cbn in *; sums; lia);
            try (lookups; [cbn; split; [reflexivity | lia]
                          | eapply Hps; eassumption]); fail).
  (* the producer writes its item *)
  destruct (inv_open _ _ i _ Hinv0 Hlk eq_refl) as (Hm0 & Hq0 & Hc0 & Hh0).
  cbn in Hm0, Hc0, Hh0.
  exists (q ++ [make_item (Z.of_nat i) v]).
  constructor; cbn in *; rewrite ?length_app; cbn; sums;
    try assumption; try lia.
  - lookups; [cbn; split; [reflexivity | lia] | eapply Hps; eassumption].
  - pose proof (sum_list_with_lookup (producer_call produce_reserved) _ _ _ Hlk) as Hres.
    cbn in Hres.
    apply ring_rep_write; [exact capacity_positive | exact Hring | lia].
  - weigh. cbn in *. sums. rewrite sum_list_with_app. cbn. lia.
  - now apply reals_first_snoc_real.
Qed.

Lemma inv_step_consumer s q j thread_num pc pc' sh evs :
  inv s q ->
  consumers s !! j = Some (running thread_num pc) ->
  consumer_step CONSUMER_BORED_COUNT (bounded_buffer CAPACITY) pc (mem s) = Some (pc', sh, evs) ->
  sequencing (mk_state (main s) (producers s)
                (<[j := running thread_num pc']> (consumers s))
                sh (record (Consumer j) evs (trace s))) ->
  exists q',
    inv (mk_state (main s) (producers s)
           (<[j := running thread_num pc']> (consumers s))
           sh (record (Consumer j) evs (trace s))) q'.
Proof.
  intros Hinv Hlk Hstep Hseq'.
  pose proof (inv_consumers _ _ _ _ _ s q Hinv j _ Hlk) as Hok.
  pose proof (inv_reals_bound s q j _ Hinv Hlk) as Hbound.
  destruct s as [m ps cs [pf cf [sl hd tl av cap lk]] tr].
  cbn in Hlk, Hstep, Hok, Hbound, Hseq' |- *.
  destruct pc as [|b ph|b d|b|]; [|destruct ph| | |]; cbn in Hstep.
  all: try rewrite (wrap_int_small (b + 1)) in Hstep
      by (unfold INT_MIN, INT_MAX in *; lia).
  all: repeat case_match; simplify_eq; loop_tests.
  all: try match goal with
         | H : loop_test ?d = true |- _ =>
             assert (Heos0 : eos d = 0%nat) by (unfold eos; now rewrite H);
             assert (Hreal1 : real d = 1%nat) by (unfold real; now rewrite H)
         | H : loop_test ?d = false |- _ =>
             assert (Heos1 : eos d = 1%nat) by (unfold eos; now rewrite H);
             assert (Hreal0 : real d = 0%nat) by (unfold real; now rewrite H)
         end.
  all: try (cbn in Hbound; rewrite ?Hreal1 in Hbound; lia).
  all: pose proof Hinv as Hinv0.
  all: destruct Hinv as [Hseq Hmain Hps Hcs Hring Hcap Havail Hlock Hpassed Hpreal
                      Hpmain Hcons Heos Heach Hreals Hfirst Hdrained]; cbn in *.
  all: try assert (Hlk1 : ((if lk then 1 else 0) <= 1)%nat) by (destruct lk; lia).
  all: try match goal with
         | |- context [consume_signal ?d] => pose proof (eos_real d)
         | |- context [consumer_consume ?d] => pose proof (eos_real d)
         end.
  all: try (exists q; constructor; cbn in *; sums;
            try assumption; try lia;
            try (weigh; cbn in *; sums; lia);
            try (lookups; [cbn; lia | eapply Hcs; eassumption]);
            try (lookups; decides;
                 [pose proof (Heach _ _ Hlk) as Hj; cbn in Hj |- *; lia
                 | eapply Heach; eassumption]);
            fail).
  (* the consumer reads the slot at the head *)
  pose proof (sum_list_with_lookup (consumer_call consume_reserved) _ _ _ Hlk) as Hres.
  cbn in Hres.
  destruct q as [|d' q']; [cbn in Havail; lia|].
  destruct (ring_rep_read CAPACITY capacity_positive _ _ _ _ _ Hring) as [Hhd Hring'].
  assert (d' = d) as -> by congruence.
  pose proof (eos_real d) as Hd. destruct Hfirst as [Hfirst1 Hfirst].
  exists q'.
  constructor; cbn in *; sums; try assumption; try lia.
  - lookups; [cbn; lia | eapply Hcs; eassumption].
  - weigh. cbn in *. sums. lia.
  - lookups; [pose proof (Heach _ _ Hlk) as Hj; cbn in Hj |- *; lia
             | eapply Heach; eassumption].
Qed.

Lemma inv_step a s s' q :
  inv s q -> step a s = Some s' -> exists q', inv s' q'.
Proof.
  intros Hinv Hstep.
  pose proof (sequencing_step _ _ _ _ _ a s s' (inv_sequencing _ _ _ _ _ s q Hinv) Hstep) as Hseq'.
  unfold step in Hstep.
  destruct (is_panicked (main s)) eqn:Hnp; [discriminate|].
  destruct a as [[|i|j]|].
  - exact (inv_step_main s s' q Hinv Hstep Hseq').
  - destruct (producers s !! i) as [[|tn pc]|] eqn:Hlk; try discriminate.
    destruct (producer_step _ _ tn pc (mem s)) as [[[pc' sh] evs]|] eqn:Hpc;
      [|discriminate].
    injection Hstep as <-. exact (inv_step_producer s q i tn pc pc' sh evs Hinv Hlk Hpc Hseq').
  - destruct (consumers s !! j) as [[|tn pc]|] eqn:Hlk; try discriminate.
    destruct (consumer_step _ _ pc (mem s)) as [[[pc' sh] evs]|] eqn:Hpc;
      [|discriminate].
    injection Hstep as <-. exact (inv_step_consumer s q j tn pc pc' sh evs Hinv Hlk Hpc Hseq').
  - destruct s as [m ps cs sh tr]. unfold main_fail in Hstep. cbn in Hstep.
    destruct m as [[|]| | | | | | | | | [|] | |]; cbn in Hstep; repeat case_match;
      simplify_eq.
    all: destruct Hinv as [Hseq Hmain Hps Hcs Hring Hcap Havail Hlock Hpassed Hpreal
                      Hpmain Hcons Heos Heach Hreals Hfirst Hdrained]; cbn in *.
    all: exists q; constructor; cbn in *; try assumption; try lia.
Qed.

(** When the main thread has returned, nothing is left anywhere but in
    the trace. *)
Lemma inv_returned s q :
  inv s q -> main s = main_returned -> (0 < NUM_CONSUMERS)%nat ->
  q = []
  /\ forall w : pc_data -> nat,
       (sum_list_with w (passed_by_producers (trace s))
        + sum_list_with w (passed_by_main (trace s))
        = sum_list_with w (consumed (trace s)))%nat.
Proof.
  intros Hinv Hm Hc.
  pose proof (inv_sequencing _ _ _ _ _ s q Hinv) as Hseq.
  assert (Hps : forall th, th ∈ producers s ->
                  exists tn, th = running tn producer_exited)
    by (intros th; apply (producers_gone NUM_PRODUCERS NUM_CONSUMERS);
        [exact Hseq | now rewrite Hm]).
  assert (Hcs : forall th, th ∈ consumers s ->
                  exists tn, th = running tn consumer_exited)
    by (intros th; apply (consumers_gone NUM_PRODUCERS NUM_CONSUMERS);
        [exact Hseq | now rewrite Hm]).
  assert (Hp0 : forall f, (forall tn, f (running tn producer_exited) = 0%nat) ->
                  sum_list_with f (producers s) = 0%nat).
  { intros f Hf. rewrite (sum_list_with_const f _ 0); [lia|].
    intros th Hth. destruct (Hps th Hth) as [tn ->]. apply Hf. }
  assert (Hc0 : forall f, (forall tn, f (running tn consumer_exited) = 0%nat) ->
                  sum_list_with f (consumers s) = 0%nat).
  { intros f Hf. rewrite (sum_list_with_const f _ 0); [lia|].
    intros th Hth. destruct (Hcs th Hth) as [tn ->]. apply Hf. }
  assert (Hc1 : sum_list_with consumer_eos (consumers s) = NUM_CONSUMERS).
  { rewrite (sum_list_with_const consumer_eos _ 1).
    - rewrite (seq_consumers _ _ _ Hseq). lia.
    - intros th Hth. now destruct (Hcs th Hth) as [tn ->]. }
  pose proof (inv_conservation _ _ _ _ _ s q Hinv) as Hcons.
  pose proof (inv_eos _ _ _ _ _ s q Hinv) as Heos.
  pose proof (inv_drained _ _ _ _ _ s q Hinv) as Hdrained.
  pose proof (inv_passed_real _ _ _ _ _ s q Hinv) as Hpreal.
  pose proof (inv_passed_main _ _ _ _ _ s q Hinv) as Hpmain.
  rewrite Hm in *. cbn in Hpmain, Hcons.
  assert (Hq : q = []).
  { pose proof (Hcons eos) as He.
    rewrite Hpreal, Hpmain, sum_list_with_repeat in He.
    unfold sentinel in He. rewrite eos_sentinel in He.
    rewrite (Hp0 (producer_hand eos)), (Hc0 (consumer_call (consume_hand eos))) in He
      by reflexivity.
    rewrite (Hc0 (consumer_call (consume_hand eos))) in Hdrained by reflexivity.
    assert (Hreal : sum_list_with real q = 0%nat) by (apply Hdrained; lia).
    assert (Heq : sum_list_with eos q = 0%nat) by lia.
    destruct q as [|d q]; [reflexivity|]. cbn in Hreal, Heq.
    pose proof (eos_real d). lia. }
  split; [exact Hq|]. intros w. specialize (Hcons w). subst q.
  rewrite (Hp0 (producer_hand w)), (Hc0 (consumer_call (consume_hand w))) in Hcons
    by reflexivity.
  cbn in Hcons. lia.
Qed.

Lemma inv_reachable s : reachable s -> exists q, inv s q.
Proof.
  induction 1 as [|a s s' _ [q IH] Hstep].
  - exists []. apply inv_initial.
  - exact (inv_step a s s' q IH Hstep).
Qed.


(** Every step of the system lowers [steps_left]. *)
Lemma steps_left_step a s s' q :
  inv s q -> step a s = Some s' -> (steps_left s' < steps_left s)%nat.
Proof.
  intros Hinv Hstep. unfold step in Hstep.
  destruct (is_panicked (main s)) eqn:Hnp; [discriminate|].
  pose proof (seq_not_started_producers _ _ _ (inv_sequencing _ _ _ _ _ s q Hinv)) as Hnp'.
  pose proof (seq_not_started_consumers _ _ _ (inv_sequencing _ _ _ _ _ s q Hinv)) as Hnc'.
  pose proof (seq_producers _ _ _ (inv_sequencing _ _ _ _ _ s q Hinv)) as Hlp.
  pose proof (seq_consumers _ _ _ (inv_sequencing _ _ _ _ _ s q Hinv)) as Hlc.
  destruct a as [[|i|j]|].
  - destruct s as [m ps cs [pf cf c] tr]. unfold main_step in Hstep. cbn in *.
    destruct m as [[|]| | | | | | i pc | | | [|] | |]; cbn in Hstep;
      try destruct pc; cbn in Hstep; repeat case_match; simplify_eq; loop_tests.
    all: unfold steps_left; cbn in *; try lia.
    + assert (Hlk : cs !! i = Some not_started).
      { destruct (lookup_lt_is_Some_2 cs i) as [th Hth]; [lia|].
        rewrite Hth. f_equal. apply (Hnc' i th); [lia | exact Hth]. }
      sums. lia.
    + assert (Hlk : ps !! i = Some not_started).
      { destruct (lookup_lt_is_Some_2 ps i) as [th Hth]; [lia|].
        rewrite Hth. f_equal. apply (Hnp' i th); [lia | exact Hth]. }
      sums. lia.
  - destruct (producers s !! i) as [[|tn pc]|] eqn:Hlk; try discriminate.
    pose proof (inv_producers _ _ _ _ _ s q Hinv i _ Hlk) as [_ Hok].
    destruct s as [m ps cs [pf cf c] tr]. cbn in *.
    destruct pc as [|v|v ph| |]; [| |destruct ph| |]; cbn in Hstep.
    all: try rewrite (wrap_int_small (v - 1)) in Hstep
        by (unfold INT_MIN, INT_MAX in *; lia).
    all: repeat case_match; simplify_eq; loop_tests.
    all: unfold steps_left; cbn in *; sums; lia.
  - destruct (consumers s !! j) as [[|tn pc]|] eqn:Hlk; try discriminate.
    pose proof (inv_consumers _ _ _ _ _ s q Hinv j _ Hlk) as Hok.
    destruct s as [m ps cs [pf cf c] tr]. cbn in *.
    destruct pc as [|b ph|b d|b|]; [|destruct ph| | |]; cbn in Hstep.
    all: try rewrite (wrap_int_small (b + 1)) in Hstep
        by (unfold INT_MIN, INT_MAX in *; lia).
    all: repeat case_match; simplify_eq; loop_tests.
    all: unfold steps_left; cbn in *; sums; lia.
  - destruct s as [m ps cs sh tr]. unfold main_fail in Hstep. cbn in *.
    destruct m as [[|]| | | | | | | | | [|] | |]; cbn in Hstep; repeat case_match;
      simplify_eq.
    all: unfold steps_left; cbn; lia.
Qed.

(** *** No deadlock *)

(** In a state where nothing can move, nobody holds the exclusion. *)
Lemma stuck_unlocked s q :
  inv s q -> stuck s -> is_panicked (main s) = false ->
  locked (buffer (mem s)) = false.
Proof.
  intros Hinv Hstuck Hnp.
  destruct (locked (buffer (mem s))) eqn:Hl; [exfalso|reflexivity].
  pose proof (inv_locked _ _ _ _ _ s q Hinv) as Hlock. rewrite Hl in Hlock.
  pose proof (inv_available _ _ _ _ _ s q Hinv) as Havail.
  pose proof (inv_ring _ _ _ _ _ s q Hinv) as Hring.
  destruct s as [m ps cs [pf cf [sl hd tl av cap lk]] tr]; cbn in *. subst lk.
  assert (Hwho : (0 < sum_list_with (producer_call produce_critical) ps)%nat
                 \/ (0 < main_call produce_critical m)%nat
                 \/ (0 < sum_list_with (consumer_call consume_critical) cs)%nat) by lia.
  destruct Hwho as [H|[H|H]].
  - apply sum_list_with_pos in H as (i & th & Hth & Hpos).
    specialize (Hstuck (run (Producer i))). unfold step in Hstuck. cbn in Hstuck.
    rewrite Hnp, Hth in Hstuck.
    destruct th as [|tn [|v|v [| | | |]| |]]; cbn in Hpos; try lia;
      cbn in Hstuck; discriminate.
  - specialize (Hstuck (run Main)). unfold step, main_step in Hstuck. cbn in Hstuck.
    rewrite Hnp in Hstuck.
    destruct m as [| | | | | |i [| | | |]| | | | |]; cbn in H; try lia;
      cbn in Hstuck; discriminate.
  - apply sum_list_with_pos in H as (j & th & Hth & Hpos).
    specialize (Hstuck (run (Consumer j))). unfold step in Hstuck. cbn in Hstuck.
    rewrite Hnp, Hth in Hstuck.
    destruct th as [|tn [|b [| | |d|d]|b d|b|]]; cbn in Hpos; try lia;
      cbn in Hstuck; try discriminate.
    pose proof (sum_list_with_lookup (consumer_call consume_reserved) _ _ _ Hth) as Hres.
    cbn in Hres.
    destruct q as [|d q]; [cbn in Havail; lia|].
    destruct (ring_rep_read CAPACITY capacity_positive _ _ _ _ _ Hring) as [Hhd _].
    rewrite Hhd in Hstuck. discriminate.
Qed.

(** In a state where nothing can move, a producer thread has not started,
    is gone, or waits for capacity that is not there. *)
Lemma stuck_producer s q i th :
  inv s q -> stuck s -> is_panicked (main s) = false ->
  producers s !! i = Some th ->
  th = not_started
  \/ (exists tn, th = running tn producer_exited)
  \/ (exists tn v, th = running tn (producer_in_produce v produce_wait)
                   /\ capacity_available (buffer (mem s)) = 0%nat).
Proof.
  intros Hinv Hstuck Hnp Hth.
  pose proof (stuck_unlocked s q Hinv Hstuck Hnp) as Hl.
  specialize (Hstuck (run (Producer i))). unfold step in Hstuck.
  rewrite Hnp, Hth in Hstuck.
  destruct s as [m ps cs [pf cf [sl hd tl av cap lk]] tr]; cbn in *. subst lk.
  destruct th as [|tn [|v|v [| | | |]| |]]; cbn in Hstuck;
    repeat case_match; try discriminate.
  - now left.
  - right. right. now exists tn, v.
  - right. left. now exists tn.
Qed.

(** In a state where nothing can move, a consumer thread has not started,
    is gone, or waits for an item that is not there. *)
Lemma stuck_consumer s q j th :
  inv s q -> stuck s -> is_panicked (main s) = false ->
  consumers s !! j = Some th ->
  th = not_started
  \/ (exists tn, th = running tn consumer_exited)
  \/ (exists tn b, th = running tn (consumer_in_consume b consume_wait)
                   /\ items_available (buffer (mem s)) = 0%nat).
Proof.
  intros Hinv Hstuck Hnp Hth.
  pose proof (stuck_unlocked s q Hinv Hstuck Hnp) as Hl.
  pose proof (inv_locked _ _ _ _ _ s q Hinv) as Hlock. rewrite Hl in Hlock.
  pose proof (sum_list_with_lookup (consumer_call consume_critical) _ _ _ Hth) as Hcrit.
  specialize (Hstuck (run (Consumer j))). unfold step in Hstuck.
  rewrite Hnp, Hth in Hstuck.
  destruct s as [m ps cs [pf cf [sl hd tl av cap lk]] tr]; cbn in *. subst lk.
  destruct th as [|tn [|b [| | |d|d]|b d|b|]]; cbn in Hstuck, Hcrit;
    try lia; repeat case_match; try discriminate.
  - now left.
  - right. right. now exists tn, b.
  - right. left. now exists tn.
Qed.

Lemma consumer_eos_le_1 th : (consumer_eos th <= 1)%nat.
Proof.
  destruct th as [|tn [|b ph|b d|b|]]; cbn; try lia.
  pose proof (eos_real d). lia.
Qed.

(** The system never deadlocks: when nothing can move, the main thread has
    returned (or has panicked at startup). *)
Lemma deadlock_free s q :
  inv s q -> stuck s -> (0 < NUM_CONSUMERS)%nat ->
  main s = main_panicked \/ main s = main_returned.
Proof.
  intros Hinv Hstuck HM.
  destruct (is_panicked (main s)) eqn:Hnp;
    [left; destruct (main s); try discriminate; reflexivity|].
  right.
  pose proof (stuck_unlocked s q Hinv Hstuck Hnp) as Hl.
  pose proof (fun i th => stuck_producer s q i th Hinv Hstuck Hnp) as Hsp.
  pose proof (fun j th => stuck_consumer s q j th Hinv Hstuck Hnp) as Hsc.
  assert (HP0 : forall f, f produce_wait = 0%nat ->
                  sum_list_with (producer_call f) (producers s) = 0%nat).
  { intros f Hf. apply sum_list_with_zero. intros i th Hth.
    destruct (Hsp i th Hth) as [->|[[tn ->]|(tn & v & -> & _)]]; cbn; auto. }
  assert (HC0 : forall f, f consume_wait = 0%nat ->
                  sum_list_with (consumer_call f) (consumers s) = 0%nat).
  { intros f Hf. apply sum_list_with_zero. intros j th Hth.
    destruct (Hsc j th Hth) as [->|[[tn ->]|(tn & b & -> & _)]]; cbn; auto. }
  pose proof (inv_sequencing _ _ _ _ _ s q Hinv) as Hseq.
  pose proof (inv_capacity _ _ _ _ _ s q Hinv) as Hcap.
  pose proof (inv_available _ _ _ _ _ s q Hinv) as Havail.
  pose proof (inv_conservation _ _ _ _ _ s q Hinv eos) as Hcons.
  pose proof (inv_eos _ _ _ _ _ s q Hinv) as Heos.
  pose proof (inv_main _ _ _ _ _ s q Hinv) as Hmain.
  pose proof (inv_passed_real _ _ _ _ _ s q Hinv) as Hpreal.
  pose proof (inv_passed_main _ _ _ _ _ s q Hinv) as Hpmain.
  pose proof (seq_producers _ _ _ Hseq) as Hlp.
  pose proof (seq_consumers _ _ _ Hseq) as Hlc.
  pose proof (seq_started_producers _ _ _ Hseq) as Hstp.
  pose proof (seq_started_consumers _ _ _ Hseq) as Hstc.
  pose proof (seq_producer_finished _ _ _ Hseq) as Hpf.
  pose proof (seq_consumer_finished _ _ _ Hseq) as Hcf.
  rewrite (HP0 produce_reserved), (HC0 consume_freed) in Hcap by reflexivity.
  rewrite (HP0 produce_written), (HC0 consume_reserved) in Havail by reflexivity.
  rewrite (HC0 (consume_hand eos)), Hpreal, Hpmain, sum_list_with_repeat in Hcons
    by reflexivity.
  unfold sentinel in Hcons. rewrite eos_sentinel in Hcons.
  pose proof (Hstuck (run Main)) as Hrun. unfold step in Hrun. rewrite Hnp in Hrun.
  unfold main_step in Hrun.
  (* every consumer is gone as soon as an item is available *)
  assert (Hgone : (0 < items_available (buffer (mem s)))%nat ->
                  started_consumers NUM_CONSUMERS (main s) = NUM_CONSUMERS ->
                  sum_list_with consumer_eos (consumers s) = NUM_CONSUMERS).
  { intros Hav Hstarted.
    rewrite (sum_list_with_const consumer_eos _ 1); [lia|].
    intros th Hth. apply list_elem_of_lookup in Hth as [j Hj].
    destruct (Hsc j th Hj) as [->|[[tn ->]|(tn & b & -> & Hz)]];
      [|reflexivity|lia].
    exfalso. apply (Hstc j not_started); [|exact Hj|reflexivity].
    rewrite Hstarted. apply lookup_lt_Some in Hj. lia. }
  destruct s as [m ps cs [pf cf [sl hd tl av cap lk]] tr]; cbn in *. subst lk.
  destruct m as [[|]| | | | |i|i [| | | |]|i| |[|]| |]; cbn in Hrun;
    repeat case_match; try discriminate; loop_tests; try reflexivity.
  all: cbn in Hcap, Havail, Hcons, Hmain, Hgone.
  all: pose proof eos_sentinel as Hes.
  - (* in wait_for_producer_threads, with no signal to take *)
    exfalso. cbn in Hpf.
    destruct (sum_list_with_short producer_done ps) as (k & th & Hk & Hdone); [lia|].
    destruct (inv_open _ _ k th Hinv Hk Hdone) as (_ & _ & Hc0 & _). cbn in Hc0.
    destruct (Hsp k th Hk) as [->|[[tn ->]|(tn & v & -> & Hz)]];
      [|discriminate|].
    { apply (Hstp k not_started); [|exact Hk|reflexivity].
      apply lookup_lt_Some in Hk. cbn. lia. }
    cbn in Hz. rewrite Hgone in Heos by (reflexivity || lia). lia.
  - (* in stop_consumer_threads, waiting for capacity *)
    exfalso. rewrite Hgone in Heos by (reflexivity || lia). lia.
  - (* in stop_consumer_threads, with no signal to take *)
    exfalso. cbn in Hcf.
    destruct (sum_list_with_short consumer_done cs) as (k & th & Hk & Hdone); [lia|].
    destruct (Hsc k th Hk) as [->|[[tn ->]|(tn & b & -> & Hz)]];
      [|discriminate|].
    { apply (Hstc k not_started); [|exact Hk|reflexivity].
      apply lookup_lt_Some in Hk. cbn. lia. }
    cbn in Hz.
    assert (Hlt : (sum_list_with consumer_eos cs < length cs)%nat)
      by (eapply (sum_list_with_missing consumer_eos cs k);
          [apply consumer_eos_le_1 | exact Hk | reflexivity]).
    assert (Hq : sum_list_with eos q = 0%nat)
      by (destruct q; [reflexivity | cbn in Havail; lia]).
    assert (Hph : sum_list_with (producer_hand eos) ps = 0%nat).
    { apply sum_list_with_zero. intros k' th' Hk'.
      destruct (producers_gone NUM_PRODUCERS NUM_CONSUMERS _ th' Hseq)
        as [tn' ->]; [reflexivity | | reflexivity].
      apply list_elem_of_lookup. now exists k'. }
    lia.
Qed.

Lemma sum_list_with_zero_elem {A} (f : A -> nat) (l : list A) x :
  sum_list_with f l = 0%nat -> x ∈ l -> f x = 0%nat.
Proof.
  intros Hz Hx. apply list_elem_of_lookup in Hx as [i Hi].
  pose proof (sum_list_with_lookup f l i x Hi). lia.
Qed.

(** When no consumer can get bored: in every state a run can reach, no
    item has been returned by [consumer_consume] more often than it has
    been handed to [producer_produce]; and when the main thread has
    returned, the items returned by all the calls of [consumer_consume] of
    the run are exactly the items the producer threads handed over, each as
    often as it was handed over, and NUM_CONSUMERS sentinels.  The
    producers have then handed over
    NUM_PRODUCERS * (ITEMS_TO_PRODUCE - 1) items. *)
Lemma delivery_when_never_bored s :
  (0 < NUM_CONSUMERS)%nat ->
  reachable s ->
  (forall d,
      (multiplicity d (consumed (trace s))
       <= multiplicity d (passed_by_producers (trace s))
          + multiplicity d (passed_by_main (trace s)))%nat)
  /\ (main s = main_returned ->
      consumed (trace s)
        ≡ₚ passed_by_producers (trace s) ++ repeat sentinel NUM_CONSUMERS
      /\ length (passed_by_producers (trace s))
         = (NUM_PRODUCERS * Z.to_nat (ITEMS_TO_PRODUCE - 1))%nat
      /\ forall d, d ∈ passed_by_producers (trace s) ->
           multiplicity d (consumed (trace s))
           = multiplicity d (passed_by_producers (trace s))).
Proof.
  intros Hc Hs. destruct (inv_reachable s Hs) as [q Hinv]. split.
  - intros d. unfold multiplicity.
    pose proof (inv_conservation _ _ _ _ _ s q Hinv
                  (fun x => if bool_decide (x = d) then 1%nat else 0%nat)). lia.
  - intros Hm. destruct (inv_returned s q Hinv Hm Hc) as [_ Hw].
    pose proof (inv_passed_main _ _ _ _ _ s q Hinv) as Hpmain.
    rewrite Hm in Hpmain. cbn in Hpmain.
    assert (Hperm : consumed (trace s)
                      ≡ₚ passed_by_producers (trace s) ++ repeat sentinel NUM_CONSUMERS).
    { apply permutation_by_weights. intros w.
      rewrite sum_list_with_app, <- Hpmain. symmetry. apply Hw. }
    split; [exact Hperm|]. split.
    + rewrite (inv_passed _ _ _ _ _ s q Hinv).
      rewrite (sum_list_with_const producer_passed _ (Z.to_nat (ITEMS_TO_PRODUCE - 1))).
      * now rewrite (seq_producers _ _ _ (inv_sequencing _ _ _ _ _ s q Hinv)).
      * intros th Hth.
        destruct (producers_gone NUM_PRODUCERS NUM_CONSUMERS s th
                    (inv_sequencing _ _ _ _ _ s q Hinv)) as [tn ->];
          [now rewrite Hm | exact Hth | reflexivity].
    + intros d Hd. unfold multiplicity at 1. rewrite Hperm.
      rewrite sum_list_with_app. fold (multiplicity d (passed_by_producers (trace s))).
      fold (multiplicity d (repeat sentinel NUM_CONSUMERS)).
      rewrite (multiplicity_zero d (repeat sentinel NUM_CONSUMERS)); [lia|].
      intros Hin. apply list_elem_of_In, repeat_spec in Hin. subst d.
      pose proof (sum_list_with_zero_elem eos _ _ (inv_passed_real _ _ _ _ _ s q Hinv) Hd) as He.
      unfold sentinel in He. rewrite eos_sentinel in He. discriminate.
Qed.

Lemma steps_left_run sched s s' :
  reachable s ->
  run_schedule NUM_PRODUCERS NUM_CONSUMERS ITEMS_TO_PRODUCE CONSUMER_BORED_COUNT
    (bounded_buffer CAPACITY) sched s = Some s' ->
  (length sched + steps_left s' <= steps_left s)%nat.
Proof.
  revert s. induction sched as [|a sched IH]; intros s Hs; cbn.
  - intros [= <-]. lia.
  - destruct (step a s) as [s1|] eqn:Hstep; [|discriminate]. intros Hrun.
    destruct (inv_reachable s Hs) as [q Hinv].
    pose proof (steps_left_step a s s1 q Hinv Hstep).
    pose proof (IH s1 (reachable_step _ _ _ _ _ a s s1 Hs Hstep) Hrun). lia.
Qed.

(** When no consumer can get bored: from every state a run can reach,
    every continuation of the run is finite, of at most [steps_left] steps,
    whatever the scheduler does; and a state in which no thread can take a
    step is not a deadlock: either the main thread panicked at startup, or
    it has returned, and then every consumer thread is gone, after having
    received exactly one item that ends its loop. *)
Lemma termination_when_never_bored s :
  (0 < NUM_CONSUMERS)%nat ->
  reachable s ->
  (forall sched s',
      run_schedule NUM_PRODUCERS NUM_CONSUMERS ITEMS_TO_PRODUCE
        CONSUMER_BORED_COUNT (bounded_buffer CAPACITY) sched s = Some s' ->
      (length sched + steps_left s' <= steps_left s)%nat)
  /\ (stuck s ->
      main s = main_panicked
      \/ (main s = main_returned
          /\ forall j, (j < NUM_CONSUMERS)%nat ->
               (exists thread_num,
                   consumers s !! j = Some (running thread_num consumer_exited))
               /\ sum_list_with eos (returned_to j (trace s)) = 1%nat)).
Proof.
  intros HM Hs. split.
  - intros sched s'. now apply steps_left_run.
  - intros Hstuck. destruct (inv_reachable s Hs) as [q Hinv].
    destruct (deadlock_free s q Hinv Hstuck HM) as [Hp|Hr]; [now left|].
    right. split; [exact Hr|]. intros j Hj.
    pose proof (inv_sequencing _ _ _ _ _ s q Hinv) as Hseq.
    destruct (lookup_lt_is_Some_2 (consumers s) j) as [th Hth];
      [rewrite (seq_consumers _ _ _ Hseq); lia|].
    destruct (consumers_gone NUM_PRODUCERS NUM_CONSUMERS s th Hseq) as [tn ->];
      [now rewrite Hr | apply list_elem_of_lookup; now exists j |].
    split; [now exists tn|].
    now rewrite (inv_eos_each _ _ _ _ _ s q Hinv j _ Hth).
Qed.

End Invariant.

(** *** The run with the shipped constants *)

Lemma configured_run_returned : main configured_run = main_returned.
Proof. vm_compute. reflexivity. Qed.

Lemma configured_run_stuck :
  stuck Configured.NUM_PRODUCERS Configured.NUM_CONSUMERS
    Configured.ITEMS_TO_PRODUCE Configured.CONSUMER_BORED_COUNT (bounded_buffer 10)
    configured_run.
Proof.
  assert (Hm : main configured_run = main_returned) by exact configured_run_returned.
  assert (Hp : producers configured_run
               = [running 0 producer_exited; running 1 producer_exited])
    by (vm_compute; reflexivity).
  assert (Hc : consumers configured_run
               = [running 0 consumer_exited; running 1 consumer_exited;
                  running 2 consumer_exited; running 3 consumer_exited;
                  running 4 consumer_exited])
    by (vm_compute; reflexivity).
  intros [[|i|j]|]; unfold step, main_step, main_fail; rewrite Hm; cbn.
  - reflexivity.
  - rewrite Hp. destruct i as [|[|i]]; reflexivity.
  - rewrite Hc. destruct j as [|[|[|[|[|j]]]]]; reflexivity.
  - reflexivity.
Qed.

(** ** The threads in the running system, for every core *)

Lemma rev_record t evs tr : rev (record t evs tr) = rev tr ++ map (pair t) evs.
Proof.
  unfold record. revert tr. induction evs as [|e evs IH]; intros tr; cbn.
  - now rewrite app_nil_r.
  - rewrite IH. cbn. now rewrite <- app_assoc.
Qed.

Lemma session_app ph h1 h2 :
  session ph (h1 ++ h2)
  = match session ph h1 with Some ph' => session ph' h2 | None => None end.
Proof.
  revert ph. induction h1 as [|x h1 IH]; intros ph; cbn; [reflexivity|].
  destruct (phase_step ph x); [apply IH | reflexivity].
Qed.

Lemma events_of_record t t' evs tr :
  events_of t (record t' evs tr)
  = events_of t tr ++ (if bool_decide (t' = t) then evs else []).
Proof.
  unfold events_of. rewrite rev_record, omap_app. f_equal.
  induction evs as [|e evs IH]; cbn; [now destruct (bool_decide _)|].
  rewrite IH. now destruct (bool_decide (t' = t)).
Qed.

Section Threads.

Variable NUM_PRODUCERS : nat.
Variable NUM_CONSUMERS : nat.
Variable ITEMS_TO_PRODUCE : Z.
Variable CONSUMER_BORED_COUNT : Z.
Variable CORE : core_operations.

(** The system at the constants of this section. *)
Abbreviation step :=
  (step NUM_PRODUCERS NUM_CONSUMERS ITEMS_TO_PRODUCE CONSUMER_BORED_COUNT CORE).
Abbreviation reachable :=
  (reachable NUM_PRODUCERS NUM_CONSUMERS ITEMS_TO_PRODUCE CONSUMER_BORED_COUNT CORE).
Abbreviation sequencing := (sequencing NUM_PRODUCERS NUM_CONSUMERS).

Local Arguments record : simpl never.
Local Arguments events_of : simpl never.
Local Arguments passed_by_producers : simpl never.

(** The calls a producer or a consumer thread makes in one step are calls
    that belong inside the session. *)
Lemma producer_step_session i thread_num pc sh pc' sh' evs :
  producer_step ITEMS_TO_PRODUCE CORE thread_num pc sh = Some (pc', sh', evs) ->
  session in_session (map (pair (Producer i)) evs) = Some in_session.
Proof.
  destruct pc; cbn; intros Hstep; repeat case_match; simplify_eq; reflexivity.
Qed.

Lemma consumer_step_session j pc sh pc' sh' evs :
  consumer_step CONSUMER_BORED_COUNT CORE pc sh = Some (pc', sh', evs) ->
  session in_session (map (pair (Consumer j)) evs) = Some in_session.
Proof.
  destruct pc; cbn; intros Hstep; repeat case_match; simplify_eq; reflexivity.
Qed.

Lemma session_step a s s' ph :
  sequencing s ->
  session before_startup (rev (trace s)) = Some ph ->
  phase_ok ph (main s) ->
  (ph = before_startup -> no_thread s) ->
  step a s = Some s' ->
  exists ph',
    session before_startup (rev (trace s')) = Some ph'
    /\ phase_ok ph' (main s')
    /\ (ph' = before_startup -> no_thread s').
Proof.
  intros Hseq Hsess Hok Hnone Hstep. unfold step in Hstep.
  destruct (is_panicked (main s)) eqn:Hnp; [discriminate|].
  destruct a as [[|i|j]|].
  - destruct s as [m ps cs sh tr]. unfold main_step in Hstep. cbn in *.
    destruct m as [[|]| | | | | | | | | [|] | |]; cbn in Hstep, Hok;
      repeat case_match; simplify_eq; cbn [trace main];
      rewrite ?rev_record, ?session_app, ?Hsess; cbn;
      eexists; (split; [reflexivity|]); (split; [reflexivity|]);
      try discriminate; intros _; exact (Hnone eq_refl).
  - destruct (producers s !! i) as [[|tn pc]|] eqn:Hlk; try discriminate.
    destruct (producer_step ITEMS_TO_PRODUCE CORE tn pc (mem s))
      as [[[pc' sh'] evs]|] eqn:Hpc; [|discriminate].
    injection Hstep as <-. cbn [trace main].
    assert (Hin : running tn pc ∈ producers s)
      by (apply list_elem_of_lookup; now exists i).
    assert (Hph : ph = in_session).
    { destruct ph; [|reflexivity|].
      - destruct (Hnone eq_refl) as [Hp _]. specialize (Hp _ Hin). discriminate.
      - assert (Hc : closing (main s) = true)
          by (destruct (main s); cbn in Hok; try discriminate; try reflexivity;
              congruence).
        destruct (producers_gone NUM_PRODUCERS NUM_CONSUMERS s _ Hseq Hc Hin) as [tn' Heq].
        injection Heq as -> ->. discriminate. }
    subst ph. exists in_session.
    rewrite rev_record, session_app, Hsess.
    split; [exact (producer_step_session i tn pc (mem s) pc' sh' evs Hpc)|].
    split; [exact Hok | discriminate].
  - destruct (consumers s !! j) as [[|tn pc]|] eqn:Hlk; try discriminate.
    destruct (consumer_step CONSUMER_BORED_COUNT CORE pc (mem s))
      as [[[pc' sh'] evs]|] eqn:Hpc; [|discriminate].
    injection Hstep as <-. cbn [trace main].
    assert (Hin : running tn pc ∈ consumers s)
      by (apply list_elem_of_lookup; now exists j).
    assert (Hph : ph = in_session).
    { destruct ph; [|reflexivity|].
      - destruct (Hnone eq_refl) as [_ Hc]. specialize (Hc _ Hin). discriminate.
      - assert (Hc : shutting_down (main s) = true)
          by (destruct (main s); cbn in Hok; try discriminate; try reflexivity;
              congruence).
        destruct (consumers_gone NUM_PRODUCERS NUM_CONSUMERS s _ Hseq Hc Hin) as [tn' Heq].
        injection Heq as -> ->. discriminate. }
    subst ph. exists in_session.
    rewrite rev_record, session_app, Hsess.
    split; [exact (consumer_step_session j pc (mem s) pc' sh' evs Hpc)|].
    split; [exact Hok | discriminate].
  - destruct s as [m ps cs sh tr]. unfold main_fail in Hstep. cbn in *.
    destruct m as [[|]| | | | | | | | | [|] | |]; cbn in Hstep, Hok;
      repeat case_match; simplify_eq; cbn [trace main];
      rewrite ?rev_record, ?session_app, ?Hsess; cbn;
      eexists; (split; [reflexivity|]); (split; [discriminate|]);
      try discriminate; intros _; exact (Hnone eq_refl).
Qed.

Lemma session_reachable s :
  reachable s ->
  exists ph,
    session before_startup (rev (trace s)) = Some ph
    /\ phase_ok ph (main s)
    /\ (ph = before_startup -> no_thread s).
Proof.
  induction 1 as [|a s s' Hs IH Hstep].
  - exists before_startup. split; [reflexivity|]. split; [reflexivity|].
    intros _. split; intros th Hth; cbn in Hth;
      apply elem_of_replicate in Hth as [-> _]; reflexivity.
  - destruct IH as (ph & Hsess & Hok & Hnone).
    exact (session_step a s s' ph
             (sequencing_reachable _ _ _ _ _ s Hs) Hsess Hok Hnone Hstep).
Qed.

(** X8: whatever the core does and however the threads are scheduled, the
    calls of a run are in the order of a session.  Before
    [producerconsumer_startup] only the main thread acts: it prints,
    creates the semaphores, or panics.  [producerconsumer_startup] and
    [producerconsumer_shutdown] are each called at most once, by the main
    thread, in this order.  Every fork, every call of [producer_produce]
    and [consumer_consume] and every use of a semaphore lies between the
    two.  After [producerconsumer_shutdown] the only calls are the main
    thread's [sem_destroy]s and its return.  And no call into the core is
    in progress outside the session: before it no thread has been forked,
    after it every thread has run to its end. *)
Theorem session_bracket s :
  reachable s ->
  exists ph,
    session before_startup (rev (trace s)) = Some ph
    /\ (ph = before_startup -> no_thread s)
    /\ (ph = after_shutdown -> all_exited s).
Proof.
  intros Hs. destruct (session_reachable s Hs) as (ph & Hsess & Hok & Hnone).
  exists ph. split; [exact Hsess|]. split; [exact Hnone|].
  intros ->. pose proof (sequencing_reachable _ _ _ _ _ s Hs) as Hseq.
  assert (Hc : closing (main s) = true /\ shutting_down (main s) = true)
    by (destruct (main s); cbn in Hok; try discriminate; try (split; reflexivity);
        congruence).
  destruct Hc as [Hc1 Hc2]. split; intros th Hth.
  - exact (producers_gone NUM_PRODUCERS NUM_CONSUMERS s th Hseq Hc1 Hth).
  - exact (consumers_gone NUM_PRODUCERS NUM_CONSUMERS s th Hseq Hc2 Hth).
Qed.

Abbreviation producer_calls := (producer_calls ITEMS_TO_PRODUCE).
Abbreviation producer_rest := (producer_rest ITEMS_TO_PRODUCE).
Abbreviation producer_refines := (producer_refines ITEMS_TO_PRODUCE).
Abbreviation consumer_refines := (consumer_refines CONSUMER_BORED_COUNT).

Lemma countdown_step (v : Z) :
  1 <= v - 1 ->
  countdown (Z.to_nat (v - 1)) = (v - 1) :: countdown (Z.to_nat (v - 1 - 1)).
Proof.
  intros Hv. replace (Z.to_nat (v - 1)) with (S (Z.to_nat (v - 1 - 1))) by lia.
  cbn [countdown]. f_equal. lia.
Qed.

(** One step of a producer thread takes it one step further through its
    calls. *)
Lemma producer_refines_step i thread_num pc sh pc' sh' evs evs' :
  1 <= ITEMS_TO_PRODUCE <= INT_MAX ->
  producer_step ITEMS_TO_PRODUCE CORE thread_num pc sh = Some (pc', sh', evs') ->
  producer_refines i (running thread_num pc) evs ->
  producer_refines i (running thread_num pc') (evs ++ evs').
Proof.
  intros Hitems Hstep (Htn & Hevs & Hv). split; [exact Htn|].
  destruct pc as [|v|v pc0| |]; cbn in Hstep.
  - injection Hstep as <- <- <-. cbn [producer_rest] in *.
    apply (app_inv_tail _ evs []) in Hevs. subst evs.
    split; [reflexivity | lia].
  - rewrite wrap_int_small in Hstep by (unfold INT_MIN, INT_MAX in *; lia).
    destruct (Z.eqb_spec (v - 1) 0) as [E|E]; injection Hstep as <- <- <-.
    + cbn [producer_rest] in *. rewrite app_nil_r.
      replace (Z.to_nat (v - 1)) with 0%nat in Hevs by lia.
      split; [exact Hevs | exact Logic.I].
    + cbn [producer_rest] in *. rewrite countdown_step in Hevs by lia.
      cbn [map] in Hevs. rewrite <- app_assoc. cbn [app].
      split; [exact Hevs | lia].
  - destruct (core_produce CORE (make_item thread_num v) pc0 (buffer sh))
      as [[c [pc1|]]|]; [| |discriminate]; injection Hstep as <- <- <-;
      rewrite app_nil_r; cbn [producer_rest] in *; (split; [exact Hevs | lia]).
  - injection Hstep as <- <- <-. cbn [producer_rest] in *.
    rewrite app_nil_r. split; [exact Hevs | exact Logic.I].
  - discriminate.
Qed.

Lemma producers_refine_step a s s' :
  1 <= ITEMS_TO_PRODUCE <= INT_MAX ->
  sequencing s ->
  (forall i th, producers s !! i = Some th ->
     producer_refines i th (events_of (Producer i) (trace s))) ->
  step a s = Some s' ->
  forall i th, producers s' !! i = Some th ->
    producer_refines i th (events_of (Producer i) (trace s')).
Proof.
  intros Hitems Hseq Hinv Hstep. unfold step in Hstep.
  destruct (is_panicked (main s)) eqn:Hnp; [discriminate|].
  destruct a as [[|i|j]|].
  - pose proof (seq_not_started_producers _ _ s Hseq) as Hfresh.
    destruct s as [m ps cs sh tr]. unfold main_step in Hstep. cbn in *.
    destruct m as [[|]| | | | | | | | | [|] | |]; cbn in Hstep, Hfresh;
      repeat case_match; simplify_eq; cbn [trace producers];
      intros i0 th Hlk; rewrite ?events_of_record;
      rewrite ?bool_decide_eq_false_2, ?app_nil_r by discriminate;
      try (apply Hinv; exact Hlk).
    apply list_lookup_insert_Some in Hlk as [(-> & <- & Hlen)|(Hne & Hlk)];
      [|apply Hinv; exact Hlk].
    destruct (lookup_lt_is_Some_2 ps i0 Hlen) as [th0 Hth0].
    pose proof (Hinv i0 th0 Hth0) as Hold.
    rewrite (Hfresh i0 th0 (Nat.le_refl _) Hth0) in Hold. hnf in Hold.
    rewrite Hold. split; [reflexivity|]. split; [reflexivity | exact Logic.I].
  - destruct (producers s !! i) as [[|tn pc]|] eqn:Hlk; try discriminate.
    destruct (producer_step ITEMS_TO_PRODUCE CORE tn pc (mem s))
      as [[[pc' sh'] evs]|] eqn:Hpc; [|discriminate].
    injection Hstep as <-. cbn [trace producers].
    intros i0 th Hlk0. rewrite events_of_record.
    apply list_lookup_insert_Some in Hlk0 as [(-> & <- & Hlen)|(Hne & Hlk0)].
    + rewrite bool_decide_eq_true_2 by reflexivity.
      exact (producer_refines_step i0 tn pc (mem s) pc' sh' _ evs Hitems Hpc
               (Hinv i0 _ Hlk)).
    + rewrite bool_decide_eq_false_2 by congruence. rewrite app_nil_r.
      apply Hinv. exact Hlk0.
  - destruct (consumers s !! j) as [[|tn pc]|] eqn:Hlk; try discriminate.
    destruct (consumer_step CONSUMER_BORED_COUNT CORE pc (mem s))
      as [[[pc' sh'] evs]|] eqn:Hpc; [|discriminate].
    injection Hstep as <-. cbn [trace producers].
    intros i0 th Hlk0. rewrite events_of_record.
    rewrite bool_decide_eq_false_2 by discriminate. rewrite app_nil_r.
    apply Hinv. exact Hlk0.
  - destruct s as [m ps cs sh tr]. unfold main_fail in Hstep. cbn in *.
    destruct m as [[|]| | | | | | | | | [|] | |]; cbn in Hstep;
      repeat case_match; simplify_eq; cbn [trace producers];
      intros i0 th Hlk; rewrite events_of_record;
      rewrite bool_decide_eq_false_2, app_nil_r by discriminate;
      apply Hinv; exact Hlk.
Qed.

Lemma producers_refine_reachable s :
  1 <= ITEMS_TO_PRODUCE <= INT_MAX ->
  reachable s ->
  forall i th, producers s !! i = Some th ->
    producer_refines i th (events_of (Producer i) (trace s)).
Proof.
  intros Hitems. induction 1 as [|a s s' Hs IH Hstep].
  - intros i th Hth. cbn in Hth. apply lookup_replicate in Hth as [-> _]. reflexivity.
  - exact (producers_refine_step a s s' Hitems
             (sequencing_reachable _ _ _ _ _ s Hs) IH Hstep).
Qed.

(** X9: whatever the core does and however the threads are scheduled, the
    calls producer thread [i] has made so far are the first calls of
    [producer_thread] run on its own with thread number [i]; and once the
    thread has run to its end they are all of them.  A producer's calls
    depend on nothing but its thread number. *)
Theorem producer_thread_refines s i th :
  1 <= ITEMS_TO_PRODUCE <= INT_MAX ->
  reachable s ->
  producers s !! i = Some th ->
  exists tr,
    producer_thread ITEMS_TO_PRODUCE (Z.to_nat ITEMS_TO_PRODUCE) (Z.of_nat i) = Some tr
    /\ events_of (Producer i) (trace s) `prefix_of` tr
    /\ ((exists thread_num, th = running thread_num producer_exited) ->
        events_of (Producer i) (trace s) = tr).
Proof.
  intros Hitems Hs Hth.
  pose proof (producers_refine_reachable s Hitems Hs i th Hth) as Href.
  eexists. split; [apply producer_thread_trace; [exact Hitems | lia]|].
  fold (producer_calls (Z.of_nat i)).
  destruct th as [|tn pc]; cbn in Href.
  - rewrite Href. split; [apply prefix_nil|]. intros [tn Hd]. discriminate.
  - destruct Href as (-> & Hevs & _). split.
    + exists (producer_rest (Z.of_nat i) pc). now rewrite Hevs.
    + intros [tn' Hd]. injection Hd as _ ->. cbn in Hevs.
      now rewrite app_nil_r in Hevs.
Qed.

(** One step of a consumer thread, seen in its calls. *)
Lemma consumer_refines_step thread_num pc sh pc' sh' evs evs' :
  1 <= CONSUMER_BORED_COUNT <= INT_MAX ->
  consumer_step CONSUMER_BORED_COUNT CORE pc sh = Some (pc', sh', evs') ->
  consumer_refines (running thread_num pc) evs ->
  consumer_refines (running thread_num pc') (evs ++ evs').
Proof.
  intros HB Hstep Href.
  destruct pc as [|b pc0|b d|b|]; cbn in Hstep, Href.
  - injection Hstep as <- <- <-. subst evs. exists []. cbn.
    split; [lia|]. split; [reflexivity|]. split; [constructor | reflexivity].
  - destruct Href as (init & Hb & Hlen & Hpass & ->).
    destruct (core_consume CORE pc0 (buffer sh)) as [[c [pc1|d]]|];
      [| |discriminate]; injection Hstep as <- <- <-; exists init.
    + rewrite app_nil_r. repeat split; assumption || lia.
    + repeat split; assumption || lia.
  - destruct Href as (init & Hb & Hlen & Hpass & ->).
    destruct (loop_test d) eqn:Htest.
    + rewrite wrap_int_small in Hstep by (unfold INT_MIN, INT_MAX in *; lia).
      destruct (Z.eqb_spec (b + 1) CONSUMER_BORED_COUNT) as [E|E];
        injection Hstep as <- <- <-.
      * exists init, d. rewrite app_nil_r.
        split; [lia|]. split; [exact Hpass|]. split; [|reflexivity].
        right. split; [exact Htest|]. split; [lia | exact E].
      * exists (init ++ [d]). split; [lia|].
        split; [rewrite length_app; cbn; lia|].
        split; [apply Forall_app; split; [exact Hpass | now constructor]|].
        rewrite flat_map_app. cbn [flat_map accepted]. rewrite app_nil_r.
        unfold report. cbn [app]. rewrite <- app_assoc. reflexivity.
    + injection Hstep as <- <- <-. exists init, d. rewrite app_nil_r.
      split; [lia|]. split; [exact Hpass|]. split; [|reflexivity].
      left. split; [exact Htest | lia].
  - destruct Href as (init & d & Hlen & Hpass & Hexit & ->).
    injection Hstep as <- <- <-. exists init, d.
    split; [exact Hlen|]. split; [exact Hpass|]. split.
    + destruct Hexit as [[Hf _]|(_ & Hb1 & Hb2)]; [now left | right; lia].
    + assert (Hmsg : (if b =? CONSUMER_BORED_COUNT then kprintf msg_bored []
                      else kprintf msg_finished_normally [])
                     = (if loop_test d then kprintf msg_bored []
                        else kprintf msg_finished_normally [])).
      { destruct Hexit as [[-> Hb]|(-> & _ & Hb)].
        - destruct (Z.eqb_spec b CONSUMER_BORED_COUNT); [lia | reflexivity].
        - destruct (Z.eqb_spec b CONSUMER_BORED_COUNT); [reflexivity | lia]. }
      rewrite Hmsg. cbn [app]. rewrite <- app_assoc. reflexivity.
  - discriminate.
Qed.

Lemma consumers_refine_step a s s' :
  1 <= CONSUMER_BORED_COUNT <= INT_MAX ->
  sequencing s ->
  (forall j th, consumers s !! j = Some th ->
     consumer_refines th (events_of (Consumer j) (trace s))) ->
  step a s = Some s' ->
  forall j th, consumers s' !! j = Some th ->
    consumer_refines th (events_of (Consumer j) (trace s')).
Proof.
  intros HB Hseq Hinv Hstep. unfold step in Hstep.
  destruct (is_panicked (main s)) eqn:Hnp; [discriminate|].
  destruct a as [[|i|j]|].
  - pose proof (seq_not_started_consumers _ _ s Hseq) as Hfresh.
    destruct s as [m ps cs sh tr]. unfold main_step in Hstep. cbn in *.
    destruct m as [[|]| | | | | | | | | [|] | |]; cbn in Hstep, Hfresh;
      repeat case_match; simplify_eq; cbn [trace consumers];
      intros j0 th Hlk; rewrite ?events_of_record;
      rewrite ?bool_decide_eq_false_2, ?app_nil_r by discriminate;
      try (apply Hinv; exact Hlk).
    apply list_lookup_insert_Some in Hlk as [(-> & <- & Hlen)|(Hne & Hlk)];
      [|apply Hinv; exact Hlk].
    destruct (lookup_lt_is_Some_2 cs j0 Hlen) as [th0 Hth0].
    pose proof (Hinv j0 th0 Hth0) as Hold.
    rewrite (Hfresh j0 th0 (Nat.le_refl _) Hth0) in Hold. exact Hold.
  - destruct (producers s !! i) as [[|tn pc]|] eqn:Hlk; try discriminate.
    destruct (producer_step ITEMS_TO_PRODUCE CORE tn pc (mem s))
      as [[[pc' sh'] evs]|] eqn:Hpc; [|discriminate].
    injection Hstep as <-. cbn [trace consumers].
    intros j0 th Hlk0. rewrite events_of_record.
    rewrite bool_decide_eq_false_2 by discriminate. rewrite app_nil_r.
    apply Hinv. exact Hlk0.
  - destruct (consumers s !! j) as [[|tn pc]|] eqn:Hlk; try discriminate.
    destruct (consumer_step CONSUMER_BORED_COUNT CORE pc (mem s))
      as [[[pc' sh'] evs]|] eqn:Hpc; [|discriminate].
    injection Hstep as <-. cbn [trace consumers].
    intros j0 th Hlk0. rewrite events_of_record.
    apply list_lookup_insert_Some in Hlk0 as [(-> & <- & Hlen)|(Hne & Hlk0)].
    + rewrite bool_decide_eq_true_2 by reflexivity.
      exact (consumer_refines_step tn pc (mem s) pc' sh' _ evs HB Hpc (Hinv j0 _ Hlk)).
    + rewrite bool_decide_eq_false_2 by congruence. rewrite app_nil_r.
      apply Hinv. exact Hlk0.
  - destruct s as [m ps cs sh tr]. unfold main_fail in Hstep. cbn in *.
    destruct m as [[|]| | | | | | | | | [|] | |]; cbn in Hstep;
      repeat case_match; simplify_eq; cbn [trace consumers];
      intros j0 th Hlk; rewrite events_of_record;
      rewrite bool_decide_eq_false_2, app_nil_r by discriminate;
      apply Hinv; exact Hlk.
Qed.

Lemma consumers_refine_reachable s :
  1 <= CONSUMER_BORED_COUNT <= INT_MAX ->
  reachable s ->
  forall j th, consumers s !! j = Some th ->
    consumer_refines th (events_of (Consumer j) (trace s)).
Proof.
  intros HB. induction 1 as [|a s s' Hs IH Hstep].
  - intros j th Hth. cbn in Hth. apply lookup_replicate in Hth as [-> _]. reflexivity.
  - exact (consumers_refine_step a s s' HB
             (sequencing_reachable _ _ _ _ _ s Hs) IH Hstep).
Qed.

Lemma received_app evs1 evs2 : received (evs1 ++ evs2) = received evs1 ++ received evs2.
Proof. unfold received. apply omap_app. Qed.

Lemma received_accepted init : received (flat_map accepted init) = init.
Proof.
  induction init as [|d init IH]; [reflexivity|].
  cbn [flat_map]. rewrite received_app, IH. unfold accepted, report.
  destruct (data_error d); reflexivity.
Qed.

(** The calls of a consumer's loop, read item by item. *)
Lemma accepted_iterations (consume : nat -> pc_data) init d k0 :
  (forall k x, init !! k = Some x -> consume (k0 + k)%nat = x) ->
  consume (k0 + length init)%nat = d ->
  consumer_consume (consume k0) :: flat_map (iteration consume) (seq k0 (length init))
  = flat_map accepted init ++ [consumer_consume d].
Proof.
  revert k0. induction init as [|x init IH]; intros k0 Hinit Hd.
  - cbn in *. rewrite Nat.add_0_r in Hd. now rewrite Hd.
  - cbn [length seq flat_map].
    pose proof (Hinit 0%nat x eq_refl) as Hx. rewrite Nat.add_0_r in Hx.
    unfold iteration at 1. rewrite Hx. unfold accepted at 1. fold (report x).
    cbn [app]. f_equal. rewrite <- !app_assoc. f_equal. cbn [app].
    apply IH.
    + intros k y Hk. rewrite <- (Hinit (S k) y Hk). f_equal. lia.
    + rewrite <- Hd. f_equal. cbn [length]. lia.
Qed.

Lemma run_length_exact consume k limit n :
  (forall j, (j < n)%nat -> loop_test (consume (k + j)%nat) = true) ->
  (n <= limit)%nat ->
  (n = limit \/ loop_test (consume (k + n)%nat) = false) ->
  run_length consume k limit = n.
Proof.
  revert k n. induction limit as [|l IH]; intros k n Hpass Hle Hstop.
  - cbn. lia.
  - cbn [run_length]. destruct n as [|n].
    + destruct Hstop as [Hn|Hstop]; [lia|].
      rewrite Nat.add_0_r in Hstop. now rewrite Hstop.
    + pose proof (Hpass 0%nat ltac:(lia)) as H0. rewrite Nat.add_0_r in H0.
      rewrite H0. f_equal. apply IH.
      * intros j Hj. rewrite <- (Hpass (S j)) by lia. do 2 f_equal. lia.
      * lia.
      * destruct Hstop as [Hn|Hstop]; [left; lia|].
        right. rewrite <- Hstop. do 2 f_equal. lia.
Qed.

(** X10: whatever the core does and however the threads are scheduled, the
    calls of a consumer thread that has run to its end are exactly the
    calls of [consumer_thread] run on its own on the items the thread
    received.  A consumer's calls depend on nothing but the items
    [consumer_consume] returned to it. *)
Theorem consumer_thread_refines s j thread_num :
  1 <= CONSUMER_BORED_COUNT <= INT_MAX ->
  reachable s ->
  consumers s !! j = Some (running thread_num consumer_exited) ->
  consumer_thread CONSUMER_BORED_COUNT (Z.to_nat CONSUMER_BORED_COUNT)
    (fun k => nth k (received (events_of (Consumer j) (trace s))) sentinel)
  = Some (events_of (Consumer j) (trace s)).
Proof.
  intros HB Hs Hth.
  pose proof (consumers_refine_reachable s HB Hs j _ Hth) as Href.
  cbn in Href. destruct Href as (init & d & Hlen & Hpass & Hexit & Hevs).
  set (evs := events_of (Consumer j) (trace s)) in *.
  assert (Hrec : received evs = init ++ [d]).
  { rewrite Hevs. change (received (kprintf ?m ?a :: ?t)) with (received t).
    rewrite !received_app, received_accepted. cbn.
    destruct (loop_test d); cbn; reflexivity. }
  rewrite Hrec.
  set (consume := fun k => nth k (init ++ [d]) sentinel).
  assert (Hinit : forall k x, init !! k = Some x -> consume (0 + k)%nat = x).
  { intros k x Hk. unfold consume. cbn [Nat.add]. rewrite nth_lookup.
    rewrite lookup_app_l by (apply lookup_lt_Some in Hk; exact Hk).
    now rewrite Hk. }
  assert (Hd : consume (0 + length init)%nat = d).
  { unfold consume. cbn [Nat.add]. rewrite nth_lookup.
    rewrite lookup_app_r by lia. now rewrite Nat.sub_diag. }
  assert (Hn : iterations CONSUMER_BORED_COUNT consume = length init).
  { apply run_length_exact.
    - intros k Hk. destruct (lookup_lt_is_Some_2 init k Hk) as [x Hx].
      rewrite (Hinit k x Hx). rewrite Forall_forall in Hpass. apply Hpass.
      apply list_elem_of_lookup. now exists k.
    - lia.
    - rewrite Hd. destruct Hexit as [Hf|Hb]; [now right | left; lia]. }
  rewrite consumer_thread_trace by (exact HB || lia).
  rewrite Hn. cbn [Nat.add] in Hd. rewrite Hd. f_equal. rewrite Hevs.
  cbn [app]. f_equal.
  change (consumer_consume d :: ?t) with ([consumer_consume d] ++ t).
  rewrite (app_assoc (flat_map accepted init)).
  rewrite <- (accepted_iterations consume init d 0 Hinit Hd).
  reflexivity.
Qed.

Abbreviation forked := (forked NUM_CONSUMERS).
Abbreviation waited := (waited NUM_PRODUCERS NUM_CONSUMERS).
Abbreviation stopping := (stopping NUM_PRODUCERS NUM_CONSUMERS).
Abbreviation stopped := (stopped NUM_PRODUCERS NUM_CONSUMERS).
Abbreviation main_calls := (main_calls NUM_PRODUCERS NUM_CONSUMERS).
Abbreviation main_index_ok := (main_index_ok NUM_PRODUCERS NUM_CONSUMERS).
Abbreviation some_failure := (some_failure NUM_PRODUCERS NUM_CONSUMERS).
Abbreviation main_refines := (main_refines NUM_PRODUCERS NUM_CONSUMERS).

Lemma forks_S f i : forks f (S i) = forks f i ++ [thread_fork f (Z.of_nat i) true].
Proof. unfold forks. rewrite seq_S, map_app. reflexivity. Qed.

Lemma repeat_S {A} (x : A) n : repeat x (S n) = repeat x n ++ [x].
Proof. cbn [repeat]. apply repeat_cons. Qed.

Lemma forks_prefix f i n : (i <= n)%nat -> forks f i `prefix_of` forks f n.
Proof.
  intros Hle. exists (map (fun k => thread_fork f (Z.of_nat k) true) (seq i (n - i))).
  unfold forks. rewrite <- map_app, <- seq_app. do 2 f_equal. lia.
Qed.

Lemma repeat_prefix {A} (x : A) i n : (i <= n)%nat -> repeat x i `prefix_of` repeat x n.
Proof.
  intros Hle. exists (repeat x (n - i)). rewrite <- repeat_app. f_equal. lia.
Qed.

(** The first fork that fails ends the loop. *)
Lemma fork_loop_first f msg fork_ok n i :
  (i < n)%nat -> fork_ok f i = false ->
  (forall k, (k < i)%nat -> fork_ok f k = true) ->
  fork_loop f msg fork_ok 0 n
  = (forks f i ++ [thread_fork f (Z.of_nat i) false; panic msg], false).
Proof.
  intros Hi Hfail Hbefore.
  destruct (fork_loop_outcome f msg fork_ok 0 n) as [[_ Hall]|(m & Hm & Hf & Hall & ->)].
  - rewrite Hall in Hfail by lia. discriminate.
  - cbn [Nat.add] in *.
    assert (m = i).
    { destruct (Nat.lt_trichotomy m i) as [Hlt|[Heq|Hgt]]; [|exact Heq|].
      - rewrite Hbefore in Hf by exact Hlt. discriminate.
      - rewrite Hall in Hfail by lia. discriminate. }
    subst m. reflexivity.
Qed.

(** The run in which nothing fails, call by call. *)
Lemma run_producerconsumer_success :
  run_producerconsumer NUM_PRODUCERS NUM_CONSUMERS (fun _ => true) (fun _ _ => true)
  = main_calls main_returned.
Proof.
  unfold run_producerconsumer. cbn [negb].
  unfold start_consumer_threads, start_producer_threads.
  rewrite !fork_loop_all by reflexivity. cbn [negb].
  unfold wait_for_producer_threads, stop_consumer_threads.
  cbn [main_calls]. unfold stopped, stopping, waited, forked, opening, sentinel.
  cbn [app]. rewrite <- !app_assoc. reflexivity.
Qed.

Lemma main_calls_prefix pc :
  pc <> main_panicked -> main_index_ok pc ->
  main_calls pc `prefix_of` main_calls main_returned.
Proof.
  intros Hpc Hidx.
  assert (Hforked : forall i, (i <= NUM_PRODUCERS)%nat ->
            forked i `prefix_of` main_calls main_returned).
  { intros i Hi. cbn [main_calls]. unfold stopped, stopping, waited.
    do 4 apply prefix_app_r. unfold forked.
    do 2 apply prefix_app. now apply forks_prefix. }
  assert (Hwaited : forall i, (i <= NUM_PRODUCERS)%nat ->
            waited i `prefix_of` main_calls main_returned).
  { intros i Hi. cbn [main_calls]. unfold stopped, stopping.
    do 3 apply prefix_app_r. unfold waited.
    do 2 apply prefix_app. now apply repeat_prefix. }
  assert (Hstopping : forall i, (i <= NUM_CONSUMERS)%nat ->
            stopping i `prefix_of` main_calls main_returned).
  { intros i Hi. cbn [main_calls]. unfold stopped.
    do 2 apply prefix_app_r. unfold stopping.
    do 2 apply prefix_app. now apply repeat_prefix. }
  assert (Hstopped : forall i, (i <= NUM_CONSUMERS)%nat ->
            stopped i `prefix_of` main_calls main_returned).
  { intros i Hi. cbn [main_calls]. apply prefix_app_r. unfold stopped.
    apply prefix_app. now apply repeat_prefix. }
  assert (Hopening : forall l, l `prefix_of` opening ->
            l `prefix_of` main_calls main_returned).
  { intros l Hl. etransitivity; [exact Hl|].
    etransitivity; [|apply (Hforked 0%nat); lia].
    unfold forked. apply prefix_app_r. reflexivity. }
  destruct pc as [[|]| | | | | | | | | [|] | |]; cbn [main_calls] in *;
    cbn in Hidx; try congruence.
  - apply prefix_nil.
  - apply Hopening. now exists [sem_create producer_finished true; producerconsumer_startup].
  - apply Hopening. now exists [producerconsumer_startup].
  - etransitivity; [|apply (Hforked 0%nat); lia].
    unfold forked. cbn [forks seq map]. rewrite app_nil_r.
    apply prefix_app. now apply forks_prefix.
  - now apply Hforked.
  - now apply Hwaited.
  - now apply Hstopping.
  - apply Hstopping. lia.
  - now apply Hstopped.
  - now apply Hstopped.
  - apply prefix_app. now exists [sem_destroy consumer_finished; return_int 0].
  - apply prefix_app.
    now exists [sem_destroy producer_finished; sem_destroy consumer_finished; return_int 0].
  - reflexivity.
Qed.

Lemma main_refines_step a s s' :
  main_refines (main s) (events_of Main (trace s)) ->
  step a s = Some s' ->
  main_refines (main s') (events_of Main (trace s')).
Proof.
  intros Hinv Hstep. unfold step in Hstep.
  destruct (is_panicked (main s)) eqn:Hnp; [discriminate|].
  destruct a as [[|i|j]|].
  - destruct s as [m ps cs sh tr]. unfold main_step in Hstep. cbn in *.
    destruct m as [[|]| |n|n|n|n|n pc0|n| |[|]| |]; try discriminate;
      destruct Hinv as [Hevs Hidx]; cbn in Hstep, Hidx;
      repeat case_match; simplify_eq; loop_tests; cbn [trace main];
      rewrite ?events_of_record, ?bool_decide_eq_true_2 by reflexivity;
      rewrite Hevs; (split; [|cbn; lia]); cbn [main_calls];
      try reflexivity.
    all: try (assert (n = NUM_CONSUMERS) by lia; subst n);
      try (assert (n = NUM_PRODUCERS) by lia; subst n);
      unfold stopped, stopping, waited, forked;
      rewrite ?forks_S, ?repeat_S;
      change (forks producer_entry 0) with (@nil event);
      cbn [repeat]; rewrite ?app_nil_r, <- ?app_assoc; reflexivity.
  - destruct (producers s !! i) as [[|tn pc]|] eqn:Hlk; try discriminate.
    destruct (producer_step ITEMS_TO_PRODUCE CORE tn pc (mem s))
      as [[[pc' sh'] evs]|] eqn:Hpc; [|discriminate].
    injection Hstep as <-. cbn [trace main]. rewrite events_of_record.
    rewrite bool_decide_eq_false_2 by discriminate. now rewrite app_nil_r.
  - destruct (consumers s !! j) as [[|tn pc]|] eqn:Hlk; try discriminate.
    destruct (consumer_step CONSUMER_BORED_COUNT CORE pc (mem s))
      as [[[pc' sh'] evs]|] eqn:Hpc; [|discriminate].
    injection Hstep as <-. cbn [trace main]. rewrite events_of_record.
    rewrite bool_decide_eq_false_2 by discriminate. now rewrite app_nil_r.
  - destruct s as [m ps cs sh tr]. unfold main_fail in Hstep. cbn in *.
    destruct m as [[|]| |n|n|n|n|n pc0|n| |[|]| |]; try discriminate;
      destruct Hinv as [Hevs Hidx]; cbn in Hstep, Hidx;
      repeat case_match; simplify_eq; loop_tests; cbn [trace main];
      rewrite events_of_record, bool_decide_eq_true_2 by reflexivity;
      rewrite Hevs; cbn [main_calls main_refines].
    + exists (fun _ => false), (fun _ _ => true). split; [now left | reflexivity].
    + exists (fun s => bool_decide (s = consumer_finished)), (fun _ _ => true).
      split; [right; now left | reflexivity].
    + exists (fun _ => true),
        (fun f k => match f with
                    | consumer_entry => negb (k =? n)%nat
                    | producer_entry => true
                    end).
      split.
      * right. right. left. exists n. split; [lia|]. now rewrite Nat.eqb_refl.
      * unfold run_producerconsumer. cbn [negb].
        unfold start_consumer_threads.
        rewrite (fork_loop_first consumer_entry _ _ NUM_CONSUMERS n).
        -- cbn [negb]. unfold opening. cbn [app]. rewrite <- !app_assoc, app_nil_r.
           reflexivity.
        -- lia.
        -- now rewrite Nat.eqb_refl.
        -- intros k Hk. apply negb_true_iff, Nat.eqb_neq. lia.
    + exists (fun _ => true),
        (fun f k => match f with
                    | consumer_entry => true
                    | producer_entry => negb (k =? n)%nat
                    end).
      split.
      * right. right. right. exists n. split; [lia|]. now rewrite Nat.eqb_refl.
      * unfold run_producerconsumer. cbn [negb].
        unfold start_consumer_threads, start_producer_threads.
        rewrite fork_loop_all by reflexivity.
        rewrite (fork_loop_first producer_entry _ _ NUM_PRODUCERS n).
        -- cbn [negb]. unfold forked, opening. cbn [app].
           rewrite <- !app_assoc, app_nil_r. reflexivity.
        -- lia.
        -- now rewrite Nat.eqb_refl.
        -- intros k Hk. apply negb_true_iff, Nat.eqb_neq. lia.
Qed.

Lemma main_refines_reachable s :
  reachable s -> main_refines (main s) (events_of Main (trace s)).
Proof.
  induction 1 as [|a s s' Hs IH Hstep].
  - split; [reflexivity | exact Logic.I].
  - exact (main_refines_step a s s' IH Hstep).
Qed.

(** X11: whatever the core does and however the threads are scheduled,
    the calls the main thread makes are the calls of
    [run_producerconsumer] run on its own: while it has not panicked, the
    calls made so far are the first calls of the run in which nothing
    fails, and all of them once it has returned; when it has panicked,
    they are the calls of a run in which a semaphore or a fork fails. *)
Theorem main_thread_refines s :
  reachable s ->
  (main s <> main_panicked ->
   events_of Main (trace s)
     `prefix_of` run_producerconsumer NUM_PRODUCERS NUM_CONSUMERS
                   (fun _ => true) (fun _ _ => true))
  /\ (main s = main_returned ->
      events_of Main (trace s)
      = run_producerconsumer NUM_PRODUCERS NUM_CONSUMERS
          (fun _ => true) (fun _ _ => true))
  /\ (main s = main_panicked ->
      exists sem_ok fork_ok,
        some_failure sem_ok fork_ok
        /\ events_of Main (trace s)
           = run_producerconsumer NUM_PRODUCERS NUM_CONSUMERS sem_ok fork_ok).
Proof.
  intros Hs. pose proof (main_refines_reachable s Hs) as Href.
  rewrite run_producerconsumer_success.
  repeat split.
  - intros Hpc. destruct (main s) eqn:Hm; try congruence;
      destruct Href as [-> Hidx]; apply main_calls_prefix; assumption || discriminate.
  - intros Hm. rewrite Hm in Href. now destruct Href as [-> _].
  - intros Hm. rewrite Hm in Href. exact Href.
Qed.

Lemma elem_of_events_of t e tr : e ∈ events_of t tr <-> (t, e) ∈ tr.
Proof.
  unfold events_of. rewrite list_elem_of_omap. split.
  - intros ([t' e'] & Hin & Heq). cbn in Heq.
    destruct (bool_decide_reflect (t' = t)) as [->|]; [|discriminate].
    injection Heq as ->. now apply list_elem_of_In, in_rev, list_elem_of_In in Hin.
  - intros Hin. exists (t, e). split.
    + now apply list_elem_of_In, in_rev, list_elem_of_In; rewrite rev_involutive.
    + cbn. now rewrite bool_decide_eq_true_2.
Qed.

(** A thread that does not exist makes no call. *)
Lemma idle_step a s s' :
  ((forall i, producers s !! i = None -> events_of (Producer i) (trace s) = [])
   /\ (forall j, consumers s !! j = None -> events_of (Consumer j) (trace s) = [])) ->
  step a s = Some s' ->
  (forall i, producers s' !! i = None -> events_of (Producer i) (trace s') = [])
  /\ (forall j, consumers s' !! j = None -> events_of (Consumer j) (trace s') = []).
Proof.
  intros [Hp Hc] Hstep. unfold step in Hstep.
  destruct (is_panicked (main s)) eqn:Hnp; [discriminate|].
  assert (Hins : forall A (l : list A) i k x, <[i:=x]> l !! k = None -> l !! k = None).
  { intros A l i k x Hk. apply lookup_ge_None. apply lookup_ge_None in Hk.
    now rewrite length_insert in Hk. }
  destruct a as [[|i|j]|].
  - destruct s as [m ps cs sh tr]. unfold main_step in Hstep. cbn in *.
    destruct m as [[|]| | | | | | | | | [|] | |]; cbn in Hstep;
      repeat case_match; simplify_eq; cbn [trace producers consumers];
      (split; intros k Hk; rewrite ?events_of_record;
       rewrite ?bool_decide_eq_false_2, ?app_nil_r by discriminate;
       [apply Hp | apply Hc]; eauto).
  - destruct (producers s !! i) as [[|tn pc]|] eqn:Hlk; try discriminate.
    destruct (producer_step ITEMS_TO_PRODUCE CORE tn pc (mem s))
      as [[[pc' sh'] evs]|] eqn:Hpc; [|discriminate].
    injection Hstep as <-. cbn [trace producers consumers].
    split; intros k Hk; rewrite events_of_record.
    + assert (k <> i).
      { intros ->. apply Hins in Hk. congruence. }
      rewrite bool_decide_eq_false_2 by congruence. rewrite app_nil_r.
      apply Hp. eauto.
    + rewrite bool_decide_eq_false_2 by discriminate. rewrite app_nil_r. now apply Hc.
  - destruct (consumers s !! j) as [[|tn pc]|] eqn:Hlk; try discriminate.
    destruct (consumer_step CONSUMER_BORED_COUNT CORE pc (mem s))
      as [[[pc' sh'] evs]|] eqn:Hpc; [|discriminate].
    injection Hstep as <-. cbn [trace producers consumers].
    split; intros k Hk; rewrite events_of_record.
    + rewrite bool_decide_eq_false_2 by discriminate. rewrite app_nil_r. now apply Hp.
    + assert (k <> j).
      { intros ->. apply Hins in Hk. congruence. }
      rewrite bool_decide_eq_false_2 by congruence. rewrite app_nil_r.
      apply Hc. eauto.
  - destruct s as [m ps cs sh tr]. unfold main_fail in Hstep. cbn in *.
    destruct m as [[|]| | | | | | | | | [|] | |]; cbn in Hstep;
      repeat case_match; simplify_eq; cbn [trace producers consumers];
      (split; intros k Hk; rewrite events_of_record;
       rewrite bool_decide_eq_false_2, app_nil_r by discriminate;
       [now apply Hp | now apply Hc]).
Qed.

Lemma idle_reachable s :
  reachable s ->
  (forall i, producers s !! i = None -> events_of (Producer i) (trace s) = [])
  /\ (forall j, consumers s !! j = None -> events_of (Consumer j) (trace s) = []).
Proof.
  induction 1 as [|a s s' Hs IH Hstep].
  - split; reflexivity.
  - exact (idle_step a s s' IH Hstep).
Qed.

(** A consumer's report is a report on an item it received and went on
    after. *)
Lemma consumer_refines_report th evs args :
  consumer_refines th evs ->
  kprintf msg_unexpected args ∈ evs ->
  exists d,
    loop_test d = true /\ data_error d = true
    /\ consumer_consume d ∈ evs /\ args = [item1 d; item2 d].
Proof.
  assert (Hacc : forall init,
    Forall (fun d => loop_test d = true) init ->
    kprintf msg_unexpected args ∈ flat_map accepted init ->
    exists d,
      loop_test d = true /\ data_error d = true
      /\ consumer_consume d ∈ flat_map accepted init /\ args = [item1 d; item2 d]).
  { intros init Hpass Hin.
    apply list_elem_of_In, in_flat_map in Hin as (d & Hd & Hin).
    apply list_elem_of_In in Hd. rewrite Forall_forall in Hpass.
    exists d. split; [now apply Hpass|].
    unfold accepted, report in Hin. destruct Hin as [Hin|Hin]; [discriminate|].
    destruct (data_error d) eqn:Herr; [|destruct Hin].
    destruct Hin as [Hin|[]]. injection Hin as <-.
    split; [reflexivity|]. split; [|reflexivity].
    apply list_elem_of_In, in_flat_map. exists d.
    split; [now apply list_elem_of_In | now left]. }
  intros Href Hin.
  destruct th as [|tn [|b pc0|b d0|b|]]; cbn in Href.
  - subst evs. now apply elem_of_nil in Hin.
  - subst evs. now apply elem_of_nil in Hin.
  - destruct Href as (init & _ & _ & Hpass & ->).
    apply elem_of_cons in Hin as [Hin|Hin]; [discriminate|].
    destruct (Hacc init Hpass Hin) as (d & H1 & H2 & H3 & H4).
    exists d. repeat split; try assumption. now apply list_elem_of_further.
  - destruct Href as (init & _ & _ & Hpass & ->).
    apply elem_of_cons in Hin as [Hin|Hin]; [discriminate|].
    apply elem_of_app in Hin as [Hin|Hin].
    + destruct (Hacc init Hpass Hin) as (d & H1 & H2 & H3 & H4).
      exists d. repeat split; try assumption.
      apply list_elem_of_further, elem_of_app. now left.
    + apply list_elem_of_singleton in Hin. discriminate.
  - destruct Href as (init & d0 & _ & Hpass & _ & ->).
    apply elem_of_cons in Hin as [Hin|Hin]; [discriminate|].
    apply elem_of_app in Hin as [Hin|Hin].
    + destruct (Hacc init Hpass Hin) as (d & H1 & H2 & H3 & H4).
      exists d. repeat split; try assumption.
      apply list_elem_of_further, elem_of_app. now left.
    + apply list_elem_of_singleton in Hin. discriminate.
  - destruct Href as (init & d0 & _ & Hpass & _ & ->).
    apply elem_of_cons in Hin as [Hin|Hin]; [discriminate|].
    apply elem_of_app in Hin as [Hin|Hin].
    + destruct (Hacc init Hpass Hin) as (d & H1 & H2 & H3 & H4).
      exists d. repeat split; try assumption.
      apply list_elem_of_further, elem_of_app. now left.
    + exfalso. rewrite !elem_of_cons, elem_of_nil in Hin.
      destruct Hin as [Hin|[Hin|[Hin|[]]]]; try discriminate.
      destruct (loop_test d0); discriminate.
Qed.

Lemma main_refines_running pc evs :
  main_refines pc evs -> pc <> main_panicked ->
  evs = main_calls pc /\ main_index_ok pc.
Proof. destruct pc; intros Href Hpc; try exact Href. congruence. Qed.

(** The items the main thread hands over in a run are sentinels. *)
Lemma produce_in_main_calls d :
  producer_produce d ∈ main_calls main_returned -> d = sentinel.
Proof.
  cbn [main_calls]. unfold stopped, stopping, waited, forked, opening, forks.
  rewrite !elem_of_app, !elem_of_cons, !elem_of_nil, !list_elem_of_fmap.
  intros H.
  repeat match goal with
    | H : _ \/ _ |- _ => destruct H as [H|H]
    | H : exists _, _ |- _ => destruct H as (? & H & _)
    | H : _ ∈ repeat _ _ |- _ => apply list_elem_of_In, repeat_spec in H
    end; try discriminate; try contradiction.
  now injection H as ->.
Qed.

(** X12: an error report blames the core.  Whatever the core does and
    however the threads are scheduled, as long as no item overflows: when
    a consumer thread prints "Unexpected data", the two numbers it prints
    are the fields of an item that [consumer_consume] returned and that
    nobody, neither a producer thread nor the main thread, ever handed to
    [producer_produce]. *)
Theorem error_report_blames_core s j args :
  1 <= ITEMS_TO_PRODUCE ->
  ITEMS_TO_PRODUCE + 1000 * Z.of_nat NUM_PRODUCERS <= INT_MAX ->
  1 <= CONSUMER_BORED_COUNT <= INT_MAX ->
  reachable s ->
  (Consumer j, kprintf msg_unexpected args) ∈ trace s ->
  exists d,
    args = [item1 d; item2 d]
    /\ d ∈ consumed (trace s)
    /\ (d ∉ passed_by_producers (trace s))
    /\ (d ∉ passed_by_main (trace s)).
Proof.
  intros Hitems Hfit HB Hs Hin.
  assert (Hrange : 1 <= ITEMS_TO_PRODUCE <= INT_MAX) by lia.
  pose proof (sequencing_reachable _ _ _ _ _ s Hs) as Hseq.
  destruct (idle_reachable s Hs) as [Hidlep Hidlec].
  apply elem_of_events_of in Hin.
  destruct (consumers s !! j) as [th|] eqn:Hth;
    [|rewrite (Hidlec j Hth) in Hin; now apply elem_of_nil in Hin].
  destruct (consumer_refines_report th _ args
              (consumers_refine_reachable s HB Hs j th Hth) Hin)
    as (d & Htest & Herr & Hcons & ->).
  exists d. split; [reflexivity|]. split; [|split].
  - apply elem_of_events_of in Hcons. unfold consumed.
    apply list_elem_of_omap. now exists (Consumer j, consumer_consume d).
  - intros Hd. unfold passed_by_producers in Hd.
    apply list_elem_of_omap in Hd as ([t e] & Hd & Heq).
    destruct t as [|i|]; try discriminate. destruct e; try discriminate.
    injection Heq as ->. apply elem_of_events_of in Hd.
    destruct (producers s !! i) as [thp|] eqn:Hthp;
      [|rewrite (Hidlep i Hthp) in Hd; now apply elem_of_nil in Hd].
    assert (Hi : (i < NUM_PRODUCERS)%nat).
    { rewrite <- (seq_producers _ _ s Hseq). now apply lookup_lt_Some in Hthp. }
    pose proof (producers_refine_reachable s Hrange Hs i thp Hthp) as Href.
    assert (Hcalls : producer_produce d ∈ producer_calls (Z.of_nat i)).
    { destruct thp as [|tn pc]; hnf in Href.
      - rewrite Href in Hd. now apply elem_of_nil in Hd.
      - destruct Href as (-> & Hevs & _). rewrite <- Hevs.
        apply elem_of_app. now left. }
    unfold producer_calls in Hcalls.
    rewrite !elem_of_app, !elem_of_cons, !elem_of_nil in Hcalls.
    destruct Hcalls as [[Hc|[]]|[Hc|[Hc|[Hc|[]]]]]; try discriminate.
    apply list_elem_of_fmap in Hc as (k & Heq & Hk). injection Heq as ->.
    apply elem_of_countdown in Hk.
    rewrite producer_item_no_error in Herr; [discriminate|].
    exists (Z.of_nat i), k. repeat split; try lia.
  - intros Hd. apply elem_of_passed_by_main in Hd.
    pose proof (main_refines_reachable s Hs) as Href.
    assert (Hcases : main s = main_panicked \/ main s <> main_panicked)
      by (destruct (main s); (now left) || (right; discriminate)).
    destruct Hcases as [Hm|Hm].
    + apply elem_of_passed_by_main in Hd.
      rewrite (seq_closing _ _ s Hseq) in Hd by (now rewrite Hm).
      now apply elem_of_nil in Hd.
    + destruct (main_refines_running _ _ Href Hm) as [Hevs Hidx].
      apply elem_of_events_of in Hd. rewrite Hevs in Hd.
      assert (Hd' : producer_produce d ∈ main_calls main_returned).
      { destruct (main_calls_prefix _ Hm Hidx) as [k Hk]. rewrite Hk.
        apply elem_of_app. now left. }
      apply produce_in_main_calls in Hd'. subst d. discriminate.
Qed.

(** X13: whatever the core does and however the threads are scheduled, no
    signal of a thread is left over when the main thread has waited for
    the threads of its kind: the count of [producer_finished] is 0 from the
    moment [wait_for_producer_threads] returns, and the count of
    [consumer_finished] is 0 from the moment [stop_consumer_threads]
    returns.  So both semaphores are destroyed with count 0, and at no
    moment a count exceeds the number of threads of its kind. *)
Theorem semaphores_drained s :
  reachable s ->
  (count_producer_finished (mem s) <= NUM_PRODUCERS)%nat
  /\ (count_consumer_finished (mem s) <= NUM_CONSUMERS)%nat
  /\ (closing (main s) = true -> count_producer_finished (mem s) = 0%nat)
  /\ (shutting_down (main s) = true -> count_consumer_finished (mem s) = 0%nat).
Proof.
  intros Hs. pose proof (sequencing_reachable _ _ _ _ _ s Hs) as Hseq.
  pose proof (seq_producer_finished _ _ s Hseq) as Hpf.
  pose proof (seq_consumer_finished _ _ s Hseq) as Hcf.
  pose proof (seq_producers _ _ s Hseq) as Hlp.
  pose proof (seq_consumers _ _ s Hseq) as Hlc.
  assert (Hp : (sum_list_with producer_done (producers s) <= NUM_PRODUCERS)%nat).
  { rewrite <- Hlp, <- (Nat.mul_1_r (length _)). apply sum_list_with_bound.
    intros [|tn [| | | |]] _; cbn; lia. }
  assert (Hc : (sum_list_with consumer_done (consumers s) <= NUM_CONSUMERS)%nat).
  { rewrite <- Hlc, <- (Nat.mul_1_r (length _)). apply sum_list_with_bound.
    intros [|tn [| | | |]] _; cbn; lia. }
  split; [lia|]. split; [lia|]. split.
  - intros Hclosing.
    assert (waited_producers NUM_PRODUCERS (main s) = NUM_PRODUCERS)
      by (destruct (main s); try discriminate; reflexivity).
    lia.
  - intros Hshut.
    assert (waited_consumers NUM_CONSUMERS (main s) = NUM_CONSUMERS)
      by (destruct (main s); try discriminate; reflexivity).
    lia.
Qed.

Abbreviation producer_passed := (producer_passed ITEMS_TO_PRODUCE).

Lemma passed_by_producers_record t evs tr :
  passed_by_producers (record t evs tr)
  = match t with Producer _ => rev (produced evs) | _ => [] end
    ++ passed_by_producers tr.
Proof.
  unfold record. revert tr. induction evs as [|e evs IH]; intros tr.
  - now destruct t.
  - cbn [foldl]. rewrite IH. destruct t as [|i|j]; try (destruct e; reflexivity).
    destruct e; try reflexivity.
    change (produced (producer_produce d :: evs)) with (d :: produced evs).
    change (passed_by_producers ((Producer i, producer_produce d) :: tr))
      with (d :: passed_by_producers tr).
    cbn [rev]. rewrite <- app_assoc. reflexivity.
Qed.

Lemma passed_by_main_events tr :
  passed_by_main tr = rev (produced (events_of Main tr)).
Proof.
  induction tr as [|[t e] tr IH]; [reflexivity|].
  change ((t, e) :: tr) with (record t [e] tr). rewrite events_of_record.
  rewrite produced_app, rev_app_distr, <- IH. unfold record. cbn [foldl].
  destruct t as [|i|j]; [|now destruct e..].
  rewrite bool_decide_eq_true_2 by reflexivity. now destruct e.
Qed.

Lemma passed_step a s s' :
  1 <= ITEMS_TO_PRODUCE <= INT_MAX ->
  sequencing s ->
  (forall i th, producers s !! i = Some th ->
     producer_refines i th (events_of (Producer i) (trace s))) ->
  length (passed_by_producers (trace s)) = sum_list_with producer_passed (producers s) ->
  step a s = Some s' ->
  length (passed_by_producers (trace s')) = sum_list_with producer_passed (producers s').
Proof.
  intros Hitems Hseq Href Hinv Hstep. unfold step in Hstep.
  destruct (is_panicked (main s)) eqn:Hnp; [discriminate|].
  destruct a as [[|i|j]|].
  - pose proof (seq_not_started_producers _ _ s Hseq) as Hfresh.
    pose proof (seq_producers _ _ s Hseq) as Hlen.
    destruct s as [m ps cs sh tr]. unfold main_step in Hstep. cbn in *.
    destruct m as [[|]| |n|n|n|n|n pc0|n| |[|]| |]; cbn in Hstep, Hfresh;
      repeat case_match; simplify_eq; loop_tests; cbn [trace producers];
      rewrite ?passed_by_producers_record; cbn [app]; try exact Hinv.
    destruct (lookup_lt_is_Some_2 ps n) as [th Hlk]; [lia|].
    pose proof (Hfresh n th (Nat.le_refl _) Hlk) as ->.
    sums. cbn in *. lia.
  - destruct (producers s !! i) as [[|tn pc]|] eqn:Hlk; try discriminate.
    destruct (producer_step ITEMS_TO_PRODUCE CORE tn pc (mem s))
      as [[[pc' sh'] evs]|] eqn:Hpc; [|discriminate].
    injection Hstep as <-. cbn [trace producers].
    rewrite passed_by_producers_record, length_app, length_rev.
    pose proof (Href i _ Hlk) as (_ & _ & Hv).
    destruct s as [m ps cs sh tr]. cbn in *.
    destruct pc as [|v|v pc0| |]; cbn in Hpc;
      rewrite ?wrap_int_small in Hpc by (unfold INT_MIN, INT_MAX in *; lia);
      repeat case_match; simplify_eq; loop_tests; sums; cbn in *; lia.
  - destruct (consumers s !! j) as [[|tn pc]|] eqn:Hlk; try discriminate.
    destruct (consumer_step CONSUMER_BORED_COUNT CORE pc (mem s))
      as [[[pc' sh'] evs]|] eqn:Hpc; [|discriminate].
    injection Hstep as <-. cbn [trace producers].
    now rewrite passed_by_producers_record.
  - destruct s as [m ps cs sh tr]. unfold main_fail in Hstep. cbn in *.
    destruct m as [[|]| | | | | | | | | [|] | |]; cbn in Hstep;
      repeat case_match; simplify_eq; cbn [trace producers];
      now rewrite passed_by_producers_record.
Qed.

Lemma passed_reachable s :
  1 <= ITEMS_TO_PRODUCE <= INT_MAX ->
  reachable s ->
  length (passed_by_producers (trace s)) = sum_list_with producer_passed (producers s).
Proof.
  intros Hitems. induction 1 as [|a s s' Hs IH Hstep].
  - cbn. now rewrite sum_list_with_replicate, Nat.mul_0_r.
  - exact (passed_step a s s' Hitems (sequencing_reachable _ _ _ _ _ s Hs)
             (producers_refine_reachable s Hitems Hs) IH Hstep).
Qed.

Lemma rev_repeat_same {A} (x : A) n : rev (repeat x n) = repeat x n.
Proof.
  induction n as [|n IH]; [reflexivity|].
  cbn [repeat rev]. rewrite IH. symmetry. apply repeat_cons.
Qed.

Lemma produced_forks f n : produced (forks f n) = [].
Proof.
  unfold forks. induction (seq 0 n) as [|k l IH]; [reflexivity | exact IH].
Qed.

Lemma produced_repeat e n :
  produced (repeat e n)
  = match e with producer_produce d => repeat d n | _ => [] end.
Proof.
  induction n as [|n IH]; [now destruct e|].
  cbn [repeat]. change (e :: repeat e n) with ([e] ++ repeat e n).
  rewrite produced_app, IH. now destruct e.
Qed.

(** X14: whatever the core does and however the threads are scheduled,
    when [run_producerconsumer] has returned, the producer threads have
    handed NUM_PRODUCERS * (ITEMS_TO_PRODUCE - 1) items to
    [producer_produce] and the main thread has handed it NUM_CONSUMERS
    sentinels and nothing else. *)
Theorem complete_run_hands_over s :
  1 <= ITEMS_TO_PRODUCE <= INT_MAX ->
  reachable s ->
  main s = main_returned ->
  length (passed_by_producers (trace s))
  = (NUM_PRODUCERS * Z.to_nat (ITEMS_TO_PRODUCE - 1))%nat
  /\ passed_by_main (trace s) = repeat sentinel NUM_CONSUMERS.
Proof.
  intros Hitems Hs Hm.
  pose proof (sequencing_reachable _ _ _ _ _ s Hs) as Hseq. split.
  - rewrite (passed_reachable s Hitems Hs).
    rewrite (sum_list_with_const producer_passed _ (Z.to_nat (ITEMS_TO_PRODUCE - 1))).
    + now rewrite (seq_producers _ _ s Hseq).
    + intros th Hth.
      destruct (producers_gone NUM_PRODUCERS NUM_CONSUMERS s th Hseq) as [tn ->];
        [now rewrite Hm | exact Hth | reflexivity].
  - rewrite passed_by_main_events.
    pose proof (main_refines_reachable s Hs) as Href. rewrite Hm in Href.
    destruct Href as [-> _]. cbn [main_calls].
    unfold stopped, stopping, waited, forked, opening.
    rewrite !produced_app, !produced_forks, !produced_repeat.
    change (produced [kprintf msg_starting []; sem_create consumer_finished true;
                      sem_create producer_finished true; producerconsumer_startup])
      with (@nil pc_data).
    change (produced [kprintf msg_waiting []]) with (@nil pc_data).
    change (produced [kprintf msg_all_exited []]) with (@nil pc_data).
    change (produced [producerconsumer_shutdown; sem_destroy producer_finished;
                      sem_destroy consumer_finished; return_int 0])
      with (@nil pc_data).
    cbn [app]. rewrite !app_nil_r. apply rev_repeat_same.
Qed.

End Threads.

Lemma session_bracket_witness :
  session before_startup (rev (trace configured_run)) = Some after_shutdown
  /\ all_exited configured_run.
Proof.
  destruct (session_bracket Configured.NUM_PRODUCERS Configured.NUM_CONSUMERS
              Configured.ITEMS_TO_PRODUCE Configured.CONSUMER_BORED_COUNT
              (bounded_buffer 10) configured_run configured_run_reachable)
    as (ph & Hsess & _ & Hafter).
  assert (Hph : ph = after_shutdown).
  { assert (Hrun : session before_startup (rev (trace configured_run))
                   = Some after_shutdown) by (vm_compute; reflexivity).
    congruence. }
  subst ph. split; [exact Hsess | exact (Hafter eq_refl)].
Defined.

Lemma producer_thread_refines_witness :
  (1 <= 30 <= INT_MAX
   /\ producers configured_run !! 1%nat = Some (running 1 producer_exited))
  /\ exists tr,
      producer_thread 30 (Z.to_nat 30) (Z.of_nat 1) = Some tr
      /\ events_of (Producer 1) (trace configured_run) = tr.
Proof.
  assert (H1 : 1 <= 30 <= INT_MAX) by (unfold INT_MAX; lia).
  assert (H2 : producers configured_run !! 1%nat = Some (running 1 producer_exited))
    by (vm_compute; reflexivity).
  split; [split; assumption|].
  destruct (producer_thread_refines Configured.NUM_PRODUCERS Configured.NUM_CONSUMERS
              30 Configured.CONSUMER_BORED_COUNT (bounded_buffer 10)
              configured_run 1%nat _ H1 configured_run_reachable H2)
    as (tr & Htr & _ & Hall).
  exists tr. split; [exact Htr|]. apply Hall. now exists 1.
Defined.

Lemma consumer_thread_refines_witness :
  (1 <= 10000 <= INT_MAX
   /\ consumers configured_run !! 0%nat = Some (running 0 consumer_exited))
  /\ consumer_thread 10000 (Z.to_nat 10000)
       (fun k => nth k (received (events_of (Consumer 0) (trace configured_run))) sentinel)
     = Some (events_of (Consumer 0) (trace configured_run)).
Proof.
  assert (H1 : 1 <= 10000 <= INT_MAX) by (unfold INT_MAX; lia).
  assert (H2 : consumers configured_run !! 0%nat = Some (running 0 consumer_exited))
    by (vm_compute; reflexivity).
  split; [split; assumption|].
  exact (consumer_thread_refines Configured.NUM_PRODUCERS Configured.NUM_CONSUMERS
           Configured.ITEMS_TO_PRODUCE 10000 (bounded_buffer 10)
           configured_run 0%nat 0 H1 configured_run_reachable H2).
Defined.

Lemma main_thread_refines_witness :
  main configured_run = main_returned
  /\ events_of Main (trace configured_run)
     = run_producerconsumer Configured.NUM_PRODUCERS Configured.NUM_CONSUMERS
         (fun _ => true) (fun _ _ => true).
Proof.
  assert (H1 : main configured_run = main_returned) by (vm_compute; reflexivity).
  split; [exact H1|].
  destruct (main_thread_refines Configured.NUM_PRODUCERS Configured.NUM_CONSUMERS
              Configured.ITEMS_TO_PRODUCE Configured.CONSUMER_BORED_COUNT
              (bounded_buffer 10) configured_run configured_run_reachable)
    as (_ & Hret & _).
  exact (Hret H1).
Defined.

Lemma careless_run_reachable s :
  careless_run = Some s ->
  reachable Configured.NUM_PRODUCERS Configured.NUM_CONSUMERS
    Configured.ITEMS_TO_PRODUCE Configured.CONSUMER_BORED_COUNT careless_core s.
Proof.
  intros Hrun. eapply reachable_run_schedule; [apply reachable_initial | exact Hrun].
Qed.

Lemma error_report_blames_core_witness :
  exists s,
    careless_run = Some s
    /\ (Consumer 0, kprintf msg_unexpected [1; 5]) ∈ trace s
    /\ exists d,
        [1; 5] = [item1 d; item2 d]
        /\ d ∈ consumed (trace s)
        /\ (d ∉ passed_by_producers (trace s))
        /\ (d ∉ passed_by_main (trace s)).
Proof.
  destruct careless_run as [s|] eqn:Hrun; [|vm_compute in Hrun; discriminate].
  exists s. split; [reflexivity|].
  assert (Hin : (Consumer 0, kprintf msg_unexpected [1; 5]) ∈ trace s).
  { vm_compute in Hrun. injection Hrun as <-. cbn [trace]. apply list_elem_of_here. }
  split; [exact Hin|].
  apply (error_report_blames_core Configured.NUM_PRODUCERS Configured.NUM_CONSUMERS
           Configured.ITEMS_TO_PRODUCE Configured.CONSUMER_BORED_COUNT careless_core
           s 0%nat [1; 5]).
  - unfold Configured.ITEMS_TO_PRODUCE. lia.
  - unfold Configured.ITEMS_TO_PRODUCE, Configured.NUM_PRODUCERS, INT_MAX. lia.
  - unfold Configured.CONSUMER_BORED_COUNT, INT_MAX. lia.
  - now apply careless_run_reachable.
  - exact Hin.
Defined.

Lemma semaphores_drained_witness :
  closing (main configured_run) = true
  /\ count_producer_finished (mem configured_run) = 0%nat
  /\ count_consumer_finished (mem configured_run) = 0%nat.
Proof.
  assert (H1 : closing (main configured_run) = true) by (vm_compute; reflexivity).
  assert (H2 : shutting_down (main configured_run) = true) by (vm_compute; reflexivity).
  destruct (semaphores_drained Configured.NUM_PRODUCERS Configured.NUM_CONSUMERS
              Configured.ITEMS_TO_PRODUCE Configured.CONSUMER_BORED_COUNT
              (bounded_buffer 10) configured_run configured_run_reachable)
    as (_ & _ & Hp & Hc).
  split; [exact H1|]. split; [exact (Hp H1) | exact (Hc H2)].
Defined.

Lemma complete_run_hands_over_witness :
  (1 <= 30 <= INT_MAX /\ main configured_run = main_returned)
  /\ length (passed_by_producers (trace configured_run)) = 58%nat
  /\ passed_by_main (trace configured_run) = repeat sentinel 5.
Proof.
  assert (H1 : 1 <= 30 <= INT_MAX) by (unfold INT_MAX; lia).
  assert (H2 : main configured_run = main_returned) by (vm_compute; reflexivity).
  split; [split; assumption|].
  exact (complete_run_hands_over Configured.NUM_PRODUCERS Configured.NUM_CONSUMERS
           30 Configured.CONSUMER_BORED_COUNT (bounded_buffer 10)
           configured_run H1 configured_run_reachable H2).
Defined.

(** ** The bounded buffer, whatever the constants *)

Lemma weight_repeat (w : pc_data -> nat) d n :
  sum_list_with w (repeat d n) = (n * w d)%nat.
Proof. induction n as [|n IH]; cbn; [reflexivity | rewrite IH; lia]. Qed.

Lemma weight_missing {A} (f : A -> nat) (l : list A) i x :
  (forall y, (f y <= 1)%nat) -> l !! i = Some x -> f x = 0%nat ->
  (sum_list_with f l < length l)%nat.
Proof.
  intros Hone. revert i. induction l as [|a l IH]; intros [|i] Hl Hx; try discriminate.
  - injection Hl as ->. simpl.
    assert (sum_list_with f l <= length l * 1)%nat
      by (apply sum_list_with_bound; intros; apply Hone).
    lia.
  - simpl in *. specialize (IH i Hl Hx). specialize (Hone a). lia.
Qed.

Lemma consumer_eos_bound th : (consumer_eos th <= 1)%nat.
Proof.
  destruct th as [|tn [|b ph|b d|b|]]; cbn; try lia.
  pose proof (eos_real d). lia.
Qed.

Section Flow.

Variable NUM_PRODUCERS : nat.
Variable NUM_CONSUMERS : nat.
Variable ITEMS_TO_PRODUCE : Z.
Variable CONSUMER_BORED_COUNT : Z.
Variable CAPACITY : nat.

(** The system and its invariant at the constants of this section. *)
Abbreviation step :=
  (step NUM_PRODUCERS NUM_CONSUMERS ITEMS_TO_PRODUCE CONSUMER_BORED_COUNT
     (bounded_buffer CAPACITY)).
Abbreviation reachable :=
  (reachable NUM_PRODUCERS NUM_CONSUMERS ITEMS_TO_PRODUCE CONSUMER_BORED_COUNT
     (bounded_buffer CAPACITY)).
Abbreviation run_schedule :=
  (run_schedule NUM_PRODUCERS NUM_CONSUMERS ITEMS_TO_PRODUCE CONSUMER_BORED_COUNT
     (bounded_buffer CAPACITY)).
Abbreviation stuck :=
  (stuck NUM_PRODUCERS NUM_CONSUMERS ITEMS_TO_PRODUCE CONSUMER_BORED_COUNT
     (bounded_buffer CAPACITY)).
Abbreviation sequencing := (sequencing NUM_PRODUCERS NUM_CONSUMERS).
Abbreviation main_passed := (main_passed NUM_CONSUMERS).
Abbreviation main_ok := (main_ok NUM_CONSUMERS).
Abbreviation flow := (flow NUM_PRODUCERS NUM_CONSUMERS CAPACITY).
Abbreviation steps_after_close := (steps_after_close NUM_CONSUMERS).
Abbreviation awaits := (awaits CONSUMER_BORED_COUNT).
Abbreviation receives := (receives CONSUMER_BORED_COUNT).

(** The buffer has room for an item. *)
Hypothesis capacity_positive : (0 < CAPACITY)%nat.

Local Arguments eos : simpl never.
Local Arguments real : simpl never.

Lemma flow_initial :
  flow (initial NUM_PRODUCERS NUM_CONSUMERS (bounded_buffer CAPACITY)) [].
Proof.
  constructor; cbn.
  - apply sequencing_initial.
  - exact Logic.I.
  - now apply ring_rep_startup.
  - rewrite !sum_list_with_replicate. cbn. lia.
  - rewrite !sum_list_with_replicate. cbn. lia.
  - rewrite !sum_list_with_replicate. cbn. lia.
  - reflexivity.
  - intros w. rewrite !sum_list_with_replicate. cbn. lia.
  - lia.
  - reflexivity.
Qed.

(** Before the first fork of a producer the queue is empty. *)
Lemma flow_no_thread s q :
  flow s q ->
  (forall i th, producers s !! i = Some th -> th = not_started) ->
  main_passed (main s) = 0%nat ->
  q = [].
Proof.
  intros Hflow Hps Hm.
  pose proof (flow_conservation _ _ _ s q Hflow (fun _ => 1%nat)) as Hcons.
  pose proof (flow_passed_main _ _ _ s q Hflow) as Hpmain.
  rewrite (flow_idle _ _ _ s q Hflow Hps), Hpmain, Hm in Hcons.
  cbn in Hcons. rewrite !sum_list_with_one in Hcons.
  apply length_zero_iff_nil. lia.
Qed.

(** A thread that has just taken a step has started. *)
Ltac started Hlk :=
  let H := fresh "Hall" in
  let E := fresh "E" in
  intros H; exfalso;
  match type of Hlk with
  | ?l !! ?i = Some _ =>
      pose proof (H i _ (list_lookup_insert_eq l i _ (lookup_lt_Some _ _ _ Hlk))) as E;
      discriminate E
  end.

Lemma flow_step_main s s' q :
  flow s q ->
  main_step NUM_PRODUCERS NUM_CONSUMERS (bounded_buffer CAPACITY) s = Some s' ->
  sequencing s' -> exists q', flow s' q'.
Proof.
  intros Hflow Hstep Hseq'.
  destruct s as [m ps cs [pf cf [sl hd tl av cap lk]] tr].
  pose proof eos_sentinel as Hes.
  unfold main_step in Hstep. cbn in Hstep.
  destruct m as [[|]| | | | | | i pc | | | [|] | |]; cbn in Hstep;
    try destruct pc; cbn in Hstep; repeat case_match; simplify_eq; loop_tests.
  all: pose proof Hflow as Hflow0.
  all: destruct Hflow as [Hseq Hmain Hring Hcap Havail Hlock Hpmain Hcons Heos Hidle];
    cbn in *.
  all: try assert (Hlk1 : ((if lk then 1 else 0) <= 1)%nat) by (destruct lk; lia).
  all: pose proof (seq_not_started_producers _ _ _ Hseq) as Hnp;
    pose proof (seq_not_started_consumers _ _ _ Hseq) as Hnc;
    pose proof (seq_producers _ _ _ Hseq) as Hlp;
    pose proof (seq_consumers _ _ _ Hseq) as Hlc; cbn in Hnp, Hnc, Hlp, Hlc.
  all: try (exists q; constructor; cbn in *; sums;
            try assumption; try lia;
            try (weigh; cbn in *; sums; lia); fail).
  - (* producerconsumer_startup *)
    assert (q = []) as ->.
    { apply (flow_no_thread _ _ Hflow0); [|reflexivity].
      intros i th Hth. apply (Hnp i th); [lia | exact Hth]. }
    assert (Hzp : forall f, (f not_started = 0)%nat -> sum_list_with f ps = 0%nat).
    { intros f Hf. apply sum_list_with_zero. intros i th Hth.
      now rewrite (Hnp i th ltac:(lia) Hth). }
    assert (Hzc : forall f, (f not_started = 0)%nat -> sum_list_with f cs = 0%nat).
    { intros f Hf. apply sum_list_with_zero. intros i th Hth.
      now rewrite (Hnc i th ltac:(lia) Hth). }
    exists []. constructor; cbn in *; try assumption; try lia.
    + now apply ring_rep_startup.
    + rewrite !Hzp, !Hzc by reflexivity. lia.
    + rewrite !Hzp, !Hzc by reflexivity. lia.
  - (* thread_fork of a consumer *)
    assert (Hlk : cs !! i = Some not_started).
    { destruct (lookup_lt_is_Some_2 cs i) as [th Hth]; [lia|].
      rewrite Hth. f_equal. apply (Hnc i th); [lia | exact Hth]. }
    exists q; constructor; cbn in *; sums; try assumption; try lia;
      try (weigh; cbn in *; sums; lia).
  - (* thread_fork of a producer *)
    assert (Hlk : ps !! i = Some not_started).
    { destruct (lookup_lt_is_Some_2 ps i) as [th Hth]; [lia|].
      rewrite Hth. f_equal. apply (Hnp i th); [lia | exact Hth]. }
    exists q; constructor; cbn in *; sums; try assumption; try lia;
      try (weigh; cbn in *; sums; lia).
    started Hlk.
  - (* the main thread hands over a sentinel *)
    exists q; constructor; cbn in *; sums; try assumption; try lia;
      try (weigh; cbn in *; sums; lia).
    now rewrite Hpmain.
  - (* the last sentinel is in *)
    assert (i = NUM_CONSUMERS) as -> by lia.
    exists q; constructor; cbn in *; sums; try assumption; try lia;
      try (weigh; cbn in *; sums; lia).
  - (* the main thread writes its sentinel *)
    exists (q ++ [mk_pc_data 0 0]).
    constructor; cbn in *; rewrite ?length_app, ?sum_list_with_app; cbn;
      try assumption; try lia.
    + apply ring_rep_write; [exact capacity_positive | exact Hring | lia].
    + weigh. rewrite sum_list_with_app. cbn. lia.
Qed.

Lemma flow_step_producer s q i thread_num pc pc' sh evs :
  flow s q ->
  producers s !! i = Some (running thread_num pc) ->
  producer_step ITEMS_TO_PRODUCE (bounded_buffer CAPACITY) thread_num pc (mem s)
  = Some (pc', sh, evs) ->
  sequencing (mk_state (main s) (<[i := running thread_num pc']> (producers s))
                (consumers s) sh (record (Producer i) evs (trace s))) ->
  exists q',
    flow (mk_state (main s) (<[i := running thread_num pc']> (producers s))
            (consumers s) sh (record (Producer i) evs (trace s))) q'.
Proof.
  intros Hflow Hlk Hstep Hseq'.
  destruct s as [m ps cs [pf cf [sl hd tl av cap lk]] tr].
  cbn in Hlk, Hstep, Hseq' |- *.
  destruct pc as [|v|v ph| |]; [| |destruct ph| |]; cbn in Hstep.
  all: repeat case_match; simplify_eq; loop_tests.
  all: destruct Hflow as [Hseq Hmain Hring Hcap Havail Hlock Hpmain Hcons Heos Hidle];
    cbn in *.
  all: try assert (Hlk1 : ((if lk then 1 else 0) <= 1)%nat) by (destruct lk; lia).
  all: try (exists q; constructor; cbn in *; sums;
            try assumption; try lia;
            try (weigh; cbn in *; sums; lia);
            try (started Hlk); fail).
  (* the producer writes its item *)
  exists (q ++ [make_item thread_num v]).
  constructor; cbn in *; rewrite ?length_app; cbn; sums;
    try assumption; try lia.
  - pose proof (sum_list_with_lookup (producer_call produce_reserved) _ _ _ Hlk) as Hres.
    cbn in Hres.
    apply ring_rep_write; [exact capacity_positive | exact Hring | lia].
  - weigh. cbn in *. sums. rewrite sum_list_with_app. cbn. lia.
  - started Hlk.
Qed.

Lemma flow_step_consumer s q j thread_num pc pc' sh evs :
  flow s q ->
  consumers s !! j = Some (running thread_num pc) ->
  consumer_step CONSUMER_BORED_COUNT (bounded_buffer CAPACITY) pc (mem s)
  = Some (pc', sh, evs) ->
  sequencing (mk_state (main s) (producers s)
                (<[j := running thread_num pc']> (consumers s))
                sh (record (Consumer j) evs (trace s))) ->
  exists q',
    flow (mk_state (main s) (producers s)
            (<[j := running thread_num pc']> (consumers s))
            sh (record (Consumer j) evs (trace s))) q'.
Proof.
  intros Hflow Hlk Hstep Hseq'.
  destruct s as [m ps cs [pf cf [sl hd tl av cap lk]] tr].
  cbn in Hlk, Hstep, Hseq' |- *.
  destruct pc as [|b ph|b d|b|]; [|destruct ph| | |]; cbn in Hstep.
  all: repeat case_match; simplify_eq; loop_tests.
  all: try match goal with
         | H : loop_test ?d = true |- _ =>
             assert (Heos0 : eos d = 0%nat) by (unfold eos; now rewrite H)
         | H : loop_test ?d = false |- _ =>
             assert (Heos1 : eos d = 1%nat) by (unfold eos; now rewrite H)
         end.
  all: destruct Hflow as [Hseq Hmain Hring Hcap Havail Hlock Hpmain Hcons Heos Hidle];
    cbn in *.
  all: try assert (Hlk1 : ((if lk then 1 else 0) <= 1)%nat) by (destruct lk; lia).
  all: try match goal with
         | |- context [consume_signal ?d] => pose proof (eos_real d)
         | |- context [consumer_consume ?d] => pose proof (eos_real d)
         end.
  all: try (exists q; constructor; cbn in *; sums;
            try assumption; try lia;
            try (weigh; cbn in *; sums; lia); fail).
  (* the consumer reads the slot at the head *)
  pose proof (sum_list_with_lookup (consumer_call consume_reserved) _ _ _ Hlk) as Hres.
  cbn in Hres.
  destruct q as [|d' q']; [cbn in Havail; lia|].
  destruct (ring_rep_read CAPACITY capacity_positive _ _ _ _ _ Hring) as [Hhd Hring'].
  assert (d' = d) as -> by congruence.
  exists q'.
  constructor; cbn in *; sums; try assumption; try lia.
  weigh. cbn in *. sums. lia.
Qed.

Lemma flow_step a s s' q :
  flow s q -> step a s = Some s' -> exists q', flow s' q'.
Proof.
  intros Hflow Hstep.
  pose proof (sequencing_step _ _ _ _ _ a s s' (flow_sequencing _ _ _ s q Hflow) Hstep)
    as Hseq'.
  unfold step in Hstep.
  destruct (is_panicked (main s)) eqn:Hnp; [discriminate|].
  destruct a as [[|i|j]|].
  - exact (flow_step_main s s' q Hflow Hstep Hseq').
  - destruct (producers s !! i) as [[|tn pc]|] eqn:Hlk; try discriminate.
    destruct (producer_step _ _ tn pc (mem s)) as [[[pc' sh] evs]|] eqn:Hpc;
      [|discriminate].
    injection Hstep as <-.
    exact (flow_step_producer s q i tn pc pc' sh evs Hflow Hlk Hpc Hseq').
  - destruct (consumers s !! j) as [[|tn pc]|] eqn:Hlk; try discriminate.
    destruct (consumer_step _ _ pc (mem s)) as [[[pc' sh] evs]|] eqn:Hpc;
      [|discriminate].
    injection Hstep as <-.
    exact (flow_step_consumer s q j tn pc pc' sh evs Hflow Hlk Hpc Hseq').
  - destruct s as [m ps cs sh tr]. unfold main_fail in Hstep. cbn in Hstep.
    destruct m as [[|]| | | | | | | | | [|] | |]; cbn in Hstep; repeat case_match;
      simplify_eq.
    all: destruct Hflow as [Hseq Hmain Hring Hcap Havail Hlock Hpmain Hcons Heos Hidle];
      cbn in *.
    all: exists q; constructor; cbn in *; try assumption; try lia.
Qed.

Lemma flow_reachable s : reachable s -> exists q, flow s q.
Proof.
  induction 1 as [|a s s' _ [q IH] Hstep].
  - exists []. apply flow_initial.
  - exact (flow_step a s s' q IH Hstep).
Qed.

(** No item is returned more often than it was handed over. *)
Lemma flow_at_most_once s d :
  reachable s ->
  (multiplicity d (consumed (trace s))
   <= multiplicity d (passed_by_producers (trace s))
      + multiplicity d (passed_by_main (trace s)))%nat.
Proof.
  intros Hs. destruct (flow_reachable s Hs) as [q Hflow]. unfold multiplicity.
  pose proof (flow_conservation _ _ _ s q Hflow
                (fun x => if bool_decide (x = d) then 1%nat else 0%nat)). lia.
Qed.

(** *** No deadlock once the stream is closed *)

(** In a state where nothing can move, nobody holds the exclusion. *)
Lemma flow_stuck_unlocked s q :
  flow s q -> stuck s -> is_panicked (main s) = false ->
  locked (buffer (mem s)) = false.
Proof.
  intros Hflow Hstuck Hnp.
  destruct (locked (buffer (mem s))) eqn:Hl; [exfalso|reflexivity].
  pose proof (flow_locked _ _ _ s q Hflow) as Hlock. rewrite Hl in Hlock.
  pose proof (flow_available _ _ _ s q Hflow) as Havail.
  pose proof (flow_ring _ _ _ s q Hflow) as Hring.
  destruct s as [m ps cs [pf cf [sl hd tl av cap lk]] tr]; cbn in *. subst lk.
  assert (Hwho : (0 < sum_list_with (producer_call produce_critical) ps)%nat
                 \/ (0 < main_call produce_critical m)%nat
                 \/ (0 < sum_list_with (consumer_call consume_critical) cs)%nat) by lia.
  destruct Hwho as [H|[H|H]].
  - apply sum_list_with_pos in H as (i & th & Hth & Hpos).
    specialize (Hstuck (run (Producer i))). unfold step in Hstuck. cbn in Hstuck.
    rewrite Hnp, Hth in Hstuck.
    destruct th as [|tn [|v|v [| | | |]| |]]; cbn in Hpos; try lia;
      cbn in Hstuck; discriminate.
  - specialize (Hstuck (run Main)). unfold step, main_step in Hstuck. cbn in Hstuck.
    rewrite Hnp in Hstuck.
    destruct m as [| | | | | |i [| | | |]| | | | |]; cbn in H; try lia;
      cbn in Hstuck; discriminate.
  - apply sum_list_with_pos in H as (j & th & Hth & Hpos).
    specialize (Hstuck (run (Consumer j))). unfold step in Hstuck. cbn in Hstuck.
    rewrite Hnp, Hth in Hstuck.
    destruct th as [|tn [|b [| | |d|d]|b d|b|]]; cbn in Hpos; try lia;
      cbn in Hstuck; try discriminate.
    pose proof (sum_list_with_lookup (consumer_call consume_reserved) _ _ _ Hth) as Hres.
    cbn in Hres.
    destruct q as [|d q]; [cbn in Havail; lia|].
    destruct (ring_rep_read CAPACITY capacity_positive _ _ _ _ _ Hring) as [Hhd _].
    rewrite Hhd in Hstuck. discriminate.
Qed.

(** In a state where nothing can move, a consumer thread has not started,
    is gone, or waits for an item that is not there. *)
Lemma flow_stuck_consumer s q j th :
  flow s q -> stuck s -> is_panicked (main s) = false ->
  consumers s !! j = Some th ->
  th = not_started
  \/ (exists tn, th = running tn consumer_exited)
  \/ (exists tn b, th = running tn (consumer_in_consume b consume_wait)
                   /\ items_available (buffer (mem s)) = 0%nat).
Proof.
  intros Hflow Hstuck Hnp Hth.
  pose proof (flow_stuck_unlocked s q Hflow Hstuck Hnp) as Hl.
  pose proof (flow_locked _ _ _ s q Hflow) as Hlock. rewrite Hl in Hlock.
  pose proof (sum_list_with_lookup (consumer_call consume_critical) _ _ _ Hth) as Hcrit.
  specialize (Hstuck (run (Consumer j))). unfold step in Hstuck.
  rewrite Hnp, Hth in Hstuck.
  destruct s as [m ps cs [pf cf [sl hd tl av cap lk]] tr]; cbn in *. subst lk.
  destruct th as [|tn [|b [| | |d|d]|b d|b|]]; cbn in Hstuck, Hcrit;
    try lia; repeat case_match; try discriminate.
  - now left.
  - right. right. now exists tn, b.
  - right. left. now exists tn.
Qed.

Lemma closed_closing pc : closed pc = true -> closing pc = true.
Proof. destruct pc; try discriminate; reflexivity. Qed.

(** In a state where nothing can move, a main thread that is closing the
    stream has returned, or waits to hand over a sentinel to a buffer that
    is full. *)
Lemma closing_stuck_main s q :
  flow s q -> closing (main s) = true -> stuck s ->
  main s = main_returned
  \/ (exists i, main s = main_stop_in_produce i produce_wait)
      /\ (0 < items_available (buffer (mem s)))%nat.
Proof.
  intros Hflow Hcl Hstuck.
  assert (Hnp : is_panicked (main s) = false)
    by (destruct (main s); try discriminate; reflexivity).
  pose proof (flow_sequencing _ _ _ s q Hflow) as Hseq.
  assert (Hps : forall th, th ∈ producers s ->
                  exists tn, th = running tn producer_exited)
    by (intros th; now apply (producers_gone NUM_PRODUCERS NUM_CONSUMERS)).
  pose proof (flow_stuck_unlocked s q Hflow Hstuck Hnp) as Hl.
  pose proof (fun j th => flow_stuck_consumer s q j th Hflow Hstuck Hnp) as Hsc.
  assert (HP0 : forall f, (forall tn, f (running tn producer_exited) = 0%nat) ->
                  sum_list_with f (producers s) = 0%nat).
  { intros f Hf. apply sum_list_with_zero. intros i th Hth.
    destruct (Hps th) as [tn ->]; [apply list_elem_of_lookup; now exists i|].
    apply Hf. }
  assert (HC0 : forall f, f consume_wait = 0%nat ->
                  sum_list_with (consumer_call f) (consumers s) = 0%nat).
  { intros f Hf. apply sum_list_with_zero. intros j th Hth.
    destruct (Hsc j th Hth) as [->|[[tn ->]|(tn & b & -> & _)]]; cbn; auto. }
  pose proof (flow_capacity _ _ _ s q Hflow) as Hcap.
  pose proof (flow_available _ _ _ s q Hflow) as Havail.
  pose proof (flow_conservation _ _ _ s q Hflow eos) as Hcons.
  pose proof (flow_eos _ _ _ s q Hflow) as Heos.
  pose proof (flow_passed_main _ _ _ s q Hflow) as Hpmain.
  pose proof (seq_consumers _ _ _ Hseq) as Hlc.
  pose proof (seq_started_consumers _ _ _ Hseq) as Hstc.
  pose proof (seq_consumer_finished _ _ _ Hseq) as Hcf.
  rewrite (HP0 (producer_call produce_reserved)), (HC0 consume_freed) in Hcap
    by reflexivity.
  rewrite (HP0 (producer_call produce_written)), (HC0 consume_reserved) in Havail
    by reflexivity.
  rewrite (HP0 (producer_hand eos)), (HC0 (consume_hand eos)), Hpmain,
    weight_repeat in Hcons by reflexivity.
  unfold sentinel in Hcons. rewrite eos_sentinel in Hcons.
  pose proof (Hstuck (run Main)) as Hrun. unfold step in Hrun.
  rewrite Hnp in Hrun. unfold main_step in Hrun.
  destruct s as [m ps cs [pf cf [sl hd tl av cap lk]] tr]; cbn in *. subst lk.
  destruct m as [| | | | |i|i [| | | |]|i| |[|]| |]; try discriminate Hcl;
    cbn in Hrun; repeat case_match; try discriminate; loop_tests.
  - (* waiting to hand over a sentinel: the buffer is full *)
    right. split; [now exists i|]. cbn in Hcap, Havail. lia.
  - (* in stop_consumer_threads, with no signal to take *)
    exfalso. cbn in Hcf, Havail, Hcons.
    destruct (sum_list_with_short consumer_done cs) as (k & th & Hk & Hdone); [lia|].
    destruct (Hsc k th Hk) as [->|[[tn ->]|(tn & b & -> & Hz)]];
      [|discriminate|].
    { apply (Hstc k not_started); [|exact Hk|reflexivity].
      apply lookup_lt_Some in Hk. cbn. lia. }
    cbn in Hz.
    assert (Hlt : (sum_list_with consumer_eos cs < length cs)%nat)
      by (eapply (weight_missing consumer_eos cs k);
          [apply consumer_eos_bound | exact Hk | reflexivity]).
    assert (Hq : sum_list_with eos q = 0%nat)
      by (destruct q; [reflexivity | cbn in Havail; lia]).
    lia.
  - now left.
Qed.

(** Once the main thread is closing the stream, a state where nothing can
    move has every thread gone: no consumer is left waiting. *)
Lemma closing_stuck s q :
  flow s q -> closing (main s) = true -> stuck s -> all_exited s.
Proof.
  intros Hflow Hcl Hstuck.
  assert (Hnp : is_panicked (main s) = false)
    by (destruct (main s); try discriminate; reflexivity).
  pose proof (flow_sequencing _ _ _ s q Hflow) as Hseq.
  split; [intros th; now apply (producers_gone NUM_PRODUCERS NUM_CONSUMERS)|].
  destruct (closing_stuck_main s q Hflow Hcl Hstuck) as [Hr|[_ Hav]].
  - intros th. apply (consumers_gone NUM_PRODUCERS NUM_CONSUMERS); [exact Hseq|].
    now rewrite Hr.
  - intros th Hth. apply list_elem_of_lookup in Hth as [j Hj].
    destruct (flow_stuck_consumer s q j th Hflow Hstuck Hnp Hj)
      as [->|[Hgone|(tn & b & -> & Hz)]]; [|exact Hgone|lia].
    exfalso.
    apply (seq_started_consumers _ _ _ Hseq j not_started); [|exact Hj|reflexivity].
    apply lookup_lt_Some in Hj. rewrite (seq_consumers _ _ _ Hseq) in Hj.
    destruct (main s); try discriminate Hcl; exact Hj.
Qed.

(** *** Every step after the main thread starts closing is one of the last *)

Lemma after_close_step a s s' :
  sequencing s -> closing (main s) = true -> step a s = Some s' ->
  closing (main s') = true
  /\ (closed (main s) = true -> closed (main s') = true)
  /\ (steps_after_close s' < steps_after_close s)%nat.
Proof.
  intros Hseq Hc Hstep. unfold step in Hstep.
  destruct (is_panicked (main s)) eqn:Hnp; [discriminate|].
  destruct a as [[|i|j]|].
  - destruct s as [m ps cs [pf cf c] tr]. unfold main_step in Hstep. cbn in *.
    destruct m as [| | | | |i|i pc|i| |[|]| |]; try discriminate Hc;
      try destruct pc; cbn in Hstep; repeat case_match; simplify_eq; loop_tests.
    all: split; [reflexivity|]; split; [intros; (reflexivity || discriminate)|].
    all: unfold steps_after_close; cbn; lia.
  - destruct (producers s !! i) as [[|tn pc]|] eqn:Hlk; try discriminate.
    destruct (producers_gone NUM_PRODUCERS NUM_CONSUMERS s (running tn pc) Hseq)
      as [tn' Heq]; [exact Hc | apply list_elem_of_lookup; now exists i|].
    injection Heq as -> ->. discriminate.
  - destruct (consumers s !! j) as [[|tn pc]|] eqn:Hlk; try discriminate.
    destruct s as [m ps cs [pf cf c] tr]. cbn in *.
    destruct pc as [|b ph|b d|b|]; [|destruct ph| | |]; cbn in Hstep.
    all: repeat case_match; simplify_eq.
    all: split; [exact Hc|]; split; [intros Hcd; exact Hcd|].
    all: unfold steps_after_close; cbn in *; sums; lia.
  - destruct s as [m ps cs sh tr]. unfold main_fail in Hstep. cbn in *.
    destruct m as [| | | | | | | | |[|]| |]; try discriminate Hc; discriminate.
Qed.

Lemma after_close_run sched s s' :
  sequencing s -> closing (main s) = true ->
  run_schedule sched s = Some s' ->
  closing (main s') = true
  /\ (closed (main s) = true -> closed (main s') = true)
  /\ (length sched + steps_after_close s' <= steps_after_close s)%nat.
Proof.
  revert s. induction sched as [|a sched IH]; intros s Hseq Hc; cbn.
  - intros [= <-]. split; [exact Hc|]. split; [intros Hcd; exact Hcd | lia].
  - destruct (step a s) as [s1|] eqn:Hstep; [|discriminate]. intros Hrun.
    destruct (after_close_step a s s1 Hseq Hc Hstep) as (Hc1 & Hcd1 & Hlt).
    destruct (IH s1 (sequencing_step _ _ _ _ _ a s s1 Hseq Hstep) Hc1 Hrun)
      as (Hc' & Hcd' & Hle).
    split; [exact Hc'|]. split; [intros Hcd; exact (Hcd' (Hcd1 Hcd)) | lia].
Qed.

(** *** What the consumers receive once the store is drained *)

Lemma drained_spec s :
  drained s = true
  <-> (forall k d, slots (buffer (mem s)) !! k = Some (Occupied d) -> d = sentinel)
      /\ (forall j th d, consumers s !! j = Some th -> held th = Some d ->
            d = sentinel).
Proof.
  unfold drained, in_flight. rewrite forallb_forall. split.
  - intros H. split.
    + intros k d Hk. specialize (H d). rewrite bool_decide_eq_true in H.
      apply H, list_elem_of_In, elem_of_app. left.
      apply list_elem_of_omap. exists (Occupied d).
      split; [apply list_elem_of_lookup; now exists k | reflexivity].
    + intros j th d Hj Hd. specialize (H d). rewrite bool_decide_eq_true in H.
      apply H, list_elem_of_In, elem_of_app. right.
      apply list_elem_of_omap. exists th.
      split; [apply list_elem_of_lookup; now exists j | exact Hd].
  - intros [H1 H2] d Hd. apply bool_decide_eq_true.
    apply list_elem_of_In, elem_of_app in Hd as [Hd|Hd];
      apply list_elem_of_omap in Hd as (y & Hy & Hf);
      apply list_elem_of_lookup in Hy as [k Hk].
    + destruct y as [|d']; [discriminate|]. injection Hf as ->. now apply (H1 k).
    + now apply (H2 k y).
Qed.

Lemma loop_test_sentinel : loop_test sentinel = false.
Proof. reflexivity. Qed.

(** Rewrite with the outcomes of the tests of the consumer's loop. *)
Ltac tests :=
  repeat match goal with
    | H : ?x = true |- context [?x] => rewrite H
    | H : ?x = false |- context [?x] => rewrite H
    end.

(** One step while the stream is being closed, or is closed, and the
    store is drained: the store stays drained, an item that is returned is
    the sentinel, and every consumer is as close to its sentinel as before,
    or has it. *)
Lemma drained_step a s s' :
  sequencing s -> closing (main s) = true -> drained s = true ->
  step a s = Some s' ->
  drained s' = true
  /\ (exists new, consumed (trace s') = new ++ consumed (trace s)
                  /\ forall d, d ∈ new -> d = sentinel)
  /\ (forall j th th', consumers s !! j = Some th -> consumers s' !! j = Some th' ->
        receives j th' (trace s') = receives j th (trace s)).
Proof.
  intros Hseq Hc Hd Hstep. rewrite drained_spec in Hd |- *.
  destruct Hd as [Hsl Hcs]. unfold step in Hstep.
  destruct (is_panicked (main s)) eqn:Hnp; [discriminate|].
  destruct a as [[|i|j0]|].
  - destruct s as [m ps cs [pf cf [sl hd tl av cap lk]] tr].
    unfold main_step in Hstep. cbn in *.
    destruct m as [| | | | |i|i pc|i| |[|]| |]; try discriminate Hc;
      try destruct pc; cbn in Hstep; repeat case_match; simplify_eq.
    all: cbn; split; [split; [|assumption]|].
    all: try assumption.
    all: try (intros k d Hk;
              apply list_lookup_insert_Some in Hk as [(_ & Hd & _)|(_ & Hk)];
              [now injection Hd as <- | eapply Hsl; eassumption]).
    all: split; [exists []; split; [reflexivity | intros d Hd; now apply elem_of_nil in Hd]|].
    all: intros j th th' Hj Hj'; simplify_eq; reflexivity.
  - destruct (producers s !! i) as [[|tn pc]|] eqn:Hlk; try discriminate.
    destruct (producers_gone NUM_PRODUCERS NUM_CONSUMERS s (running tn pc) Hseq)
      as [tn' Heq]; [exact Hc | apply list_elem_of_lookup; now exists i|].
    injection Heq as -> ->. discriminate.
  - destruct (consumers s !! j0) as [[|tn pc]|] eqn:Hlk; try discriminate.
    destruct s as [m ps cs [pf cf [sl hd tl av cap lk]] tr]. cbn in *.
    pose proof (fun d => Hcs j0 _ d Hlk) as Hheld.
    destruct pc as [|b ph|b d|b|]; [|destruct ph| | |]; cbn in Hstep, Hheld.
    all: repeat case_match; simplify_eq.
    all: try (specialize (Hheld _ eq_refl); subst).
    all: cbn; split; [split|split].
    (* the store stays drained *)
    all: try (intros k d' Hk; try (apply list_lookup_insert_Some in Hk
                as [(_ & ? & _)|(_ & Hk)]; [discriminate|]);
              solve [eapply Hsl; eassumption]).
    all: try (lookups; cbn in *; simplify_eq;
              solve [ reflexivity
                    | eapply Hsl; eassumption
                    | eapply Hcs; eassumption ]; fail).
    (* what is returned is a sentinel *)
    all: try (exists []; split; [reflexivity | intros d' Hd'; now apply elem_of_nil in Hd'];
              fail).
    all: try (exists [sentinel]; split;
              [reflexivity | intros d' Hd'; now apply list_elem_of_singleton in Hd']; fail).
    (* every consumer is as close to its sentinel as before *)
    all: intros j th th' Hj Hj'; lookups; simplify_eq;
      unfold receives, awaits; cbn; decides; tests;
      try rewrite loop_test_sentinel; try reflexivity; try congruence.
  - destruct s as [m ps cs sh tr]. unfold main_fail in Hstep. cbn in *.
    destruct m as [| | | | | | | | |[|]| |]; try discriminate Hc; discriminate.
Qed.

Lemma drained_along sched s s' :
  sequencing s -> closing (main s) = true -> drained s = true ->
  run_schedule sched s = Some s' ->
  (exists new, consumed (trace s') = new ++ consumed (trace s)
               /\ forall d, d ∈ new -> d = sentinel)
  /\ (forall j th th', consumers s !! j = Some th -> consumers s' !! j = Some th' ->
        receives j th' (trace s') = receives j th (trace s)).
Proof.
  revert s. induction sched as [|a sched IH]; intros s Hseq Hc Hd; cbn.
  - intros [= <-]. split.
    + exists []. split; [reflexivity | intros d Hin; now apply elem_of_nil in Hin].
    + intros j th th' Hj Hj'. now simplify_eq.
  - destruct (step a s) as [s1|] eqn:Hstep; [|discriminate]. intros Hrun.
    destruct (drained_step a s s1 Hseq Hc Hd Hstep) as (Hd1 & (new1 & Hn1 & Hs1) & Hr1).
    destruct (after_close_step a s s1 Hseq Hc Hstep) as (Hc1 & _ & _).
    pose proof (sequencing_step _ _ _ _ _ a s s1 Hseq Hstep) as Hseq1.
    destruct (IH s1 Hseq1 Hc1 Hd1 Hrun) as ((new & Hn & Hs) & Hr).
    split.
    + exists (new ++ new1). split; [now rewrite Hn, Hn1, app_assoc|].
      intros d Hin. apply elem_of_app in Hin as [Hin|Hin]; auto.
    + intros j th th' Hj Hj'.
      destruct (lookup_lt_is_Some_2 (consumers s1) j) as [th1 Hj1].
      { rewrite (seq_consumers _ _ _ Hseq1), <- (seq_consumers _ _ _ Hseq).
        now apply lookup_lt_Some in Hj. }
      rewrite (Hr j th1 th' Hj1 Hj'). exact (Hr1 j th th1 Hj Hj1).
Qed.

(** C2: once the main thread closes the stream - it is in
    [stop_consumer_threads], handing over the sentinels, or beyond - no
    consumer thread blocks forever, whatever the constants and whatever
    the scheduler does.  From a state [s] a run can reach in which the
    stream is being closed, every continuation of the run is finite, of at
    most [steps_after_close s] steps; in a state in which nothing can move
    every consumer thread is gone, none is left waiting in
    [consumer_consume] (and the main thread has returned, if all the
    sentinels were in in [s]); and when the store is drained in [s] (no
    item of a producer is left in it), every consumer thread that was in a
    call of [consumer_consume], or on its way to one, has at the end
    received exactly one more item, the sentinel, and every item returned
    after [s] is the sentinel. *)
Theorem consumers_terminate_after_close s sched s' :
  reachable s ->
  closing (main s) = true ->
  run_schedule sched s = Some s' ->
  (length sched + steps_after_close s' <= steps_after_close s)%nat
  /\ (stuck s' ->
      all_exited s'
      /\ (closed (main s) = true -> main s' = main_returned)
      /\ (drained s = true ->
          forall j th, consumers s !! j = Some th ->
            returned_to j (trace s') = receives j th (trace s)))
  /\ (drained s = true ->
      exists new,
        consumed (trace s') = new ++ consumed (trace s)
        /\ forall d, d ∈ new -> d = sentinel).
Proof.
  intros Hs Hc Hrun.
  pose proof (sequencing_reachable _ _ _ _ _ s Hs) as Hseq.
  destruct (after_close_run sched s s' Hseq Hc Hrun) as (Hc' & Hcd & Hle).
  split; [exact Hle|]. split.
  - intros Hstuck.
    pose proof (reachable_run_schedule _ _ _ _ _ sched s s' Hs Hrun) as Hs'.
    destruct (flow_reachable s' Hs') as [q Hflow].
    pose proof (closing_stuck s' q Hflow Hc' Hstuck) as Hall.
    split; [exact Hall|]. split.
    + intros Hclosed. specialize (Hcd Hclosed).
      destruct (closing_stuck_main s' q Hflow Hc' Hstuck) as [Hr|[[i Hi] _]];
        [exact Hr|].
      rewrite Hi in Hcd. discriminate.
    + intros Hd j th Hj.
      destruct (drained_along sched s s' Hseq Hc Hd Hrun) as [_ Hrec].
      destruct (lookup_lt_is_Some_2 (consumers s') j) as [th' Hj'].
      { rewrite (seq_consumers _ _ _ (flow_sequencing _ _ _ s' q Hflow)),
          <- (seq_consumers _ _ _ Hseq).
        now apply lookup_lt_Some in Hj. }
      rewrite <- (Hrec j th th' Hj Hj').
      destruct Hall as [_ Hgone].
      destruct (Hgone th') as [tn ->]; [apply list_elem_of_lookup; now exists j|].
      reflexivity.
  - intros Hd. now destruct (drained_along sched s s' Hseq Hc Hd Hrun) as [Hnew _].
Qed.

End Flow.


(** *** The statements on runs *)

Lemma first_enabled_action
    (NUM_PRODUCERS NUM_CONSUMERS : nat) (ITEMS_TO_PRODUCE CONSUMER_BORED_COUNT : Z)
    (CORE : core_operations) acts s :
  first_enabled NUM_PRODUCERS NUM_CONSUMERS ITEMS_TO_PRODUCE CONSUMER_BORED_COUNT
    CORE acts s
  = match first_action NUM_PRODUCERS NUM_CONSUMERS ITEMS_TO_PRODUCE
            CONSUMER_BORED_COUNT CORE acts s with
    | Some a =>
        step NUM_PRODUCERS NUM_CONSUMERS ITEMS_TO_PRODUCE CONSUMER_BORED_COUNT
          CORE a s
    | None => None
    end.
Proof.
  induction acts as [|a acts IH]; cbn; [reflexivity|].
  destruct (step _ _ _ _ _ a s) as [s1|] eqn:Hstep; [now rewrite Hstep | exact IH].
Qed.

(** [drive] follows [drive_schedule]. *)
Lemma run_drive_schedule
    (NUM_PRODUCERS NUM_CONSUMERS : nat) (ITEMS_TO_PRODUCE CONSUMER_BORED_COUNT : Z)
    (CORE : core_operations) fuel s :
  run_schedule NUM_PRODUCERS NUM_CONSUMERS ITEMS_TO_PRODUCE CONSUMER_BORED_COUNT CORE
    (drive_schedule NUM_PRODUCERS NUM_CONSUMERS ITEMS_TO_PRODUCE
       CONSUMER_BORED_COUNT CORE fuel s) s
  = Some (drive NUM_PRODUCERS NUM_CONSUMERS ITEMS_TO_PRODUCE CONSUMER_BORED_COUNT
            CORE fuel s).
Proof.
  revert s. induction fuel as [|fuel IH]; intros s; cbn [drive_schedule drive];
    [reflexivity|].
  rewrite first_enabled_action.
  destruct (first_action _ _ _ _ _ _ s) as [a|]; [|reflexivity].
  destruct (step _ _ _ _ _ a s) as [s1|] eqn:Hstep; [|reflexivity].
  cbn [run_schedule]. rewrite Hstep. apply IH.
Qed.



Lemma receives_awaiting CONSUMER_BORED_COUNT j th tr :
  awaits CONSUMER_BORED_COUNT th = true ->
  receives CONSUMER_BORED_COUNT j th tr = sentinel :: returned_to j tr.
Proof. unfold receives. now intros ->. Qed.

Lemma drained_run_reachable :
  reachable Configured.NUM_PRODUCERS Configured.NUM_CONSUMERS
    Configured.ITEMS_TO_PRODUCE Configured.CONSUMER_BORED_COUNT (bounded_buffer 10)
    drained_run.
Proof. apply reachable_drive. apply reachable_initial. Qed.

Lemma drained_run_end_stuck :
  stuck Configured.NUM_PRODUCERS Configured.NUM_CONSUMERS
    Configured.ITEMS_TO_PRODUCE Configured.CONSUMER_BORED_COUNT (bounded_buffer 10)
    drained_run_end.
Proof.
  assert (Hm : main drained_run_end = main_returned) by (vm_compute; reflexivity).
  assert (Hp : producers drained_run_end
               = [running 0 producer_exited; running 1 producer_exited])
    by (vm_compute; reflexivity).
  assert (Hc : consumers drained_run_end
               = [running 0 consumer_exited; running 1 consumer_exited;
                  running 2 consumer_exited; running 3 consumer_exited;
                  running 4 consumer_exited])
    by (vm_compute; reflexivity).
  intros [[|i|j]|]; unfold step, main_step, main_fail; rewrite Hm; cbn.
  - reflexivity.
  - rewrite Hp. destruct i as [|[|i]]; reflexivity.
  - rewrite Hc. destruct j as [|[|[|[|[|j]]]]]; reflexivity.
  - reflexivity.
Qed.

Lemma consumers_terminate_after_close_witness :
  ((0 < 10)%nat
   /\ closing (main drained_run) = true
   /\ closed (main drained_run) = true
   /\ drained drained_run = true
   /\ consumers drained_run
      = [running 0 (consumer_in_consume 58 consume_acquire);
         running 1 consumer_start; running 2 consumer_start;
         running 3 consumer_start; running 4 consumer_start])
  /\ (length drained_run_schedule + steps_after_close 5 drained_run_end
      <= steps_after_close 5 drained_run)%nat
  /\ all_exited drained_run_end
  /\ main drained_run_end = main_returned
  /\ (forall j th, consumers drained_run !! j = Some th ->
        returned_to j (trace drained_run_end)
        = sentinel :: returned_to j (trace drained_run))
  /\ exists new,
       consumed (trace drained_run_end) = new ++ consumed (trace drained_run)
       /\ forall d, d ∈ new -> d = sentinel.
Proof.
  assert (H1 : (0 < 10)%nat) by lia.
  assert (H2 : closing (main drained_run) = true) by (vm_compute; reflexivity).
  assert (H2' : closed (main drained_run) = true) by (vm_compute; reflexivity).
  assert (H3 : drained drained_run = true) by (vm_compute; reflexivity).
  assert (H4 : consumers drained_run
               = [running 0 (consumer_in_consume 58 consume_acquire);
                  running 1 consumer_start; running 2 consumer_start;
                  running 3 consumer_start; running 4 consumer_start])
    by (vm_compute; reflexivity).
  split; [repeat split; assumption|].
  destruct (consumers_terminate_after_close Configured.NUM_PRODUCERS
              Configured.NUM_CONSUMERS Configured.ITEMS_TO_PRODUCE
              Configured.CONSUMER_BORED_COUNT 10 H1
              drained_run drained_run_schedule drained_run_end
              drained_run_reachable H2
              (run_drive_schedule _ _ _ _ _ _ drained_run))
    as (Hle & Hend & Hnew).
  destruct (Hend drained_run_end_stuck) as (Hall & Hr & Hrec).
  split; [exact Hle|]. split; [exact Hall|]. split; [exact (Hr H2')|].
  split; [|exact (Hnew H3)].
  intros j th Hj. rewrite (Hrec H3 j th Hj). apply receives_awaiting.
  rewrite H4 in Hj.
  destruct j as [|[|[|[|[|j]]]]]; simpl in Hj; try discriminate Hj;
    injection Hj as <-; reflexivity.
Defined.
